(** * Zamex Telematics: Teltonika TCP listener

    A shallow embedding of the listener ([listener/parser.js],
    [listener/router.js], [listener/index.js]) and the properties of the
    frame decoder, the tenant resolver and the per-connection session that
    the specification states about them.

    Conventions of the embedding:
    - a Node [Buffer] is a [list byte]; offsets and JS integers are [Z];
    - a JS call that may throw lives in the [outcome] monad ([Ret], [Throw]);
      [Timeout] is the result of a loop that was given too little fuel, it is
      not a JS value and no [try]/[catch] observes it;
    - [null] is [None];
    - a JS object used as a dictionary is a [gmap string _];
    - an [async] function is cut at its [await]s into the segments that the
      event loop runs atomically. *)

From Stdlib Require Import ZArith List Lia Bool.
From Stdlib Require Import Strings.String Strings.Ascii Strings.Byte.
From Stdlib Require Import QArith_base.
From stdpp Require Import base option list gmap strings pretty.

Local Close Scope Q_scope.
Local Open Scope Z_scope.

(** ** Outcomes of JS computations *)

Inductive js_error : Set :=
  | RangeError
  | TypeError.

Inductive outcome (A : Type) : Type :=
  | Ret (a : A)
  | Throw (e : js_error)
  | Timeout.

Arguments Ret {A} a.
Arguments Throw {A} e.
Arguments Timeout {A}.

#[global] Instance outcome_ret : MRet outcome := λ A a, Ret a.

#[global] Instance outcome_bind : MBind outcome := λ A B f m,
  match m with
  | Ret a => f a
  | Throw e => Throw e
  | Timeout => Timeout
  end.

#[global] Instance outcome_fmap : FMap outcome := λ A B f m,
  match m with
  | Ret a => Ret (f a)
  | Throw e => Throw e
  | Timeout => Timeout
  end.

(** [try { m } catch (error) { h error }] *)
Definition try_catch {A} (m : outcome A) (h : js_error → outcome A) : outcome A :=
  match m with
  | Throw e => h e
  | _ => m
  end.

(** [while (cond s) { s = body s }], with an iteration budget. *)
Fixpoint while_loop {S : Type} (fuel : nat) (cond : S → bool)
    (body : S → outcome S) (s : S) : outcome S :=
  if cond s then
    match fuel with
    | O => Timeout
    | Datatypes.S fuel' => s' ← body s; while_loop fuel' cond body s'
    end
  else Ret s.

(** [k] iterations of a loop body, whatever the loop condition says. *)
Fixpoint iterate {S : Type} (k : nat) (body : S → outcome S) (s : S) : outcome S :=
  match k with
  | O => Ret s
  | Datatypes.S k' => s' ← body s; iterate k' body s'
  end.

(** ** Node's [Buffer] *)

Module Buffer.

Definition u8 (b : byte) : Z := Z.of_N (Byte.to_N b).

(** Big-endian value of a run of bytes, most significant first. *)
Fixpoint be_value (acc : Z) (bs : list byte) : Z :=
  match bs with
  | [] => acc
  | b :: rest => be_value (acc * 256 + u8 b) rest
  end.

(** The [n] bytes at [offset], or [ERR_OUT_OF_RANGE] (a [RangeError]) when
    they are not all inside the buffer. *)
Definition readUIntBE (n : nat) (buffer : list byte) (offset : Z) : outcome Z :=
  if (0 <=? offset) && (offset + Z.of_nat n <=? Z.of_nat (length buffer))
  then Ret (be_value 0 (take n (drop (Z.to_nat offset) buffer)))
  else Throw RangeError.

(** Two's complement reading of a [bits]-wide unsigned value. *)
Definition to_signed (bits : Z) (v : Z) : Z :=
  if v <? 2 ^ (bits - 1) then v else v - 2 ^ bits.

Definition readUInt8 := readUIntBE 1.
Definition readUInt16BE := readUIntBE 2.
Definition readUInt32BE := readUIntBE 4.
Definition readBigUInt64BE := readUIntBE 8.
Definition readInt16BE (buffer : list byte) (offset : Z) : outcome Z :=
  to_signed 16 <$> readUIntBE 2 buffer offset.
Definition readInt32BE (buffer : list byte) (offset : Z) : outcome Z :=
  to_signed 32 <$> readUIntBE 4 buffer offset.

(** [buffer.slice(start, end)] for non-negative indices: both ends are
    clamped to the buffer. *)
Definition slice (buffer : list byte) (start stop : Z) : list byte :=
  take (Z.to_nat (stop - start)) (drop (Z.to_nat start) buffer).

(** [buf.toString('ascii')]: Node decodes 'ascii' by clearing the highest
    bit of every byte and reading the result as latin1. *)
Definition ascii_char (b : byte) : ascii :=
  ascii_of_N (N.land (Byte.to_N b) 127).

Definition toString_ascii (bs : list byte) : string :=
  string_of_list_ascii (map ascii_char bs).

Definition alloc0 : list byte := [].
Definition concat (a b : list byte) : list byte := a ++ b.

(** [buf.writeUInt32BE(v, 0)] into a fresh 4-byte buffer, for
    [0 <= v < 2^32]. *)
Definition byte_of_Z (v : Z) : byte :=
  default x00 (Byte.of_N (Z.to_N (v mod 256))).

Definition writeUInt32BE (v : Z) : list byte :=
  [byte_of_Z (v / 16777216); byte_of_Z (v / 65536); byte_of_Z (v / 256); byte_of_Z v].

End Buffer.


(** ** The parts of the JS runtime the parser relies on *)

Module JS.

(** [Number(v)] for a BigInt [0 <= v < 2^64]: the nearest IEEE double, ties
    to the even mantissa. From [2^53] on a double is an integer multiple of
    its unit in the last place [2^e], so the result is again an integer and
    [Z] holds it exactly. *)
Definition Number_of_BigInt (v : Z) : Z :=
  if v <? 2 ^ 53 then v
  else
    let e := Z.log2 v - 52 in
    let q := v / 2 ^ e in
    let r := v mod 2 ^ e in
    let half := 2 ^ (e - 1) in
    let q' := if (half <? r) || ((r =? half) && Z.odd q) then q + 1 else q in
    q' * 2 ^ e.

(** Decimal digits of [v >= 0], padded with zeros on the left to [width]. *)
Definition digits (width : nat) (v : Z) : string :=
  let s := pretty (Z.to_N v) in
  String.concat EmptyString (replicate (width - String.length s) "0"%string) +:+ s.

(** Year, month and day of the proleptic Gregorian calendar for a count of
    days since 1970-01-01 (ECMAScript's YearFromTime, MonthFromTime and
    DateFromTime, computed era by era). *)
Definition civil_from_days (days : Z) : Z * Z * Z :=
  let z := days + 719468 in
  let era := z / 146097 in
  let doe := z - era * 146097 in
  let yoe := (doe - doe / 1460 + doe / 36524 - doe / 146096) / 365 in
  let doy := doe - (365 * yoe + yoe / 4 - yoe / 100) in
  let mp := (5 * doy + 2) / 153 in
  let d := doy - (153 * mp + 2) / 5 + 1 in
  let m := if mp <? 10 then mp + 3 else mp - 9 in
  let y := yoe + era * 400 + (if m <=? 2 then 1 else 0) in
  (y, m, d).

Definition max_time_value : Z := 8640000000000000.

(** [new Date(tv).toISOString()] for an integral [tv]: a time value beyond
    8.64e15 ms makes an invalid date, on which [toISOString] throws a
    [RangeError]. Years outside 0..9999 are written with a sign and six
    digits. *)
Definition Date_toISOString (tv : Z) : outcome string :=
  if Z.abs tv <=? max_time_value then
    let '(y, m, d) := civil_from_days (tv / 86400000) in
    let ms := tv mod 86400000 in
    let year :=
      if (0 <=? y) && (y <=? 9999) then digits 4 y
      else (if y <? 0 then "-"%string else "+"%string) +:+ digits 6 (Z.abs y) in
    Ret (year +:+ "-" +:+ digits 2 m +:+ "-" +:+ digits 2 d +:+ "T" +:+
         digits 2 (ms / 3600000) +:+ ":" +:+ digits 2 (ms / 60000 mod 60) +:+ ":" +:+
         digits 2 (ms / 1000 mod 60) +:+ "." +:+ digits 3 (ms mod 1000) +:+ "Z")
  else Throw RangeError.

Definition is_digit (c : ascii) : bool :=
  let n := N_of_ascii c in (48 <=? n)%N && (n <=? 57)%N.

(** The characters that [\d] matches. *)
Definition decimal_digit (c : ascii) : Prop := (48 ≤ N_of_ascii c ≤ 57)%N.

(** [/^\d{15}$/.test(s)] *)
Definition test_15_digits (s : string) : bool :=
  (String.length s =? 15)%nat && forallb is_digit (list_ascii_of_string s).

End JS.

(** ** [listener/parser.js] *)

Module TeltonikaParser.
Import Buffer JS.

(** [parseIMEI(buffer)] *)
Definition parseIMEI (buffer : list byte) : outcome (option string) :=
  try_catch
    (imeiLength ← readUInt16BE buffer 0;
     if negb (imeiLength =? 15) then Ret None
     else
       let imei := toString_ascii (slice buffer 2 (2 + imeiLength)) in
       if negb (test_15_digits imei) then Ret None
       else Ret (Some imei))
    (λ _, Ret None).

(** The record object that [parseAVLRecord] fills: its own fields, the GPS
    fields copied in by [Object.assign], and the IO part. Longitude and
    latitude keep the exact quotient [raw / 10000000], of which the JS
    number is the nearest double. *)
Record GPSElement := {
  gps_longitude : Q;
  gps_latitude : Q;
  gps_altitude : Z;
  gps_angle : Z;
  gps_satellites : Z;
  gps_speed : Z
}.

Record AVLRecord := {
  recorded_at : string;
  priority : Z;
  longitude : Q;
  latitude : Q;
  altitude : Z;
  angle : Z;
  satellites : Z;
  speed : Z;
  io_elements : gmap string Z;
  event_id : Z
}.

Record AVLData := {
  codecID : Z;
  numberOfRecords : Z;
  records : list AVLRecord
}.

(** The [byteLength] argument of [parseIOElements]; its callers pass the
    literals 1, 2, 4 and 8 and the [switch] has a case for each. *)
Inductive value_width : Set := W1 | W2 | W4 | W8.

Definition byteLength_of (w : value_width) : Z :=
  match w with W1 => 1 | W2 => 2 | W4 => 4 | W8 => 8 end.

(** [codecID === 0x8E ? 2 : 1] *)
Definition id_width (codecID : Z) : Z := if codecID =? 142 then 2 else 1.

(** [codecID === 0x8E ? buffer.readUInt16BE(offset) : buffer.readUInt8(offset)] *)
Definition read_id (buffer : list byte) (offset codecID : Z) : outcome Z :=
  if codecID =? 142 then readUInt16BE buffer offset else readUInt8 buffer offset.

(** The template literal [`io_${ioID}`] *)
Definition io_key (ioID : Z) : string := "io_" +:+ pretty ioID.

(** [parseGPSElement(buffer, offset)] *)
Definition parseGPSElement (buffer : list byte) (offset : Z) : outcome (GPSElement * Z) :=
  lon ← readInt32BE buffer offset;
  let offset := offset + 4 in
  lat ← readInt32BE buffer offset;
  let offset := offset + 4 in
  alt ← readInt16BE buffer offset;
  let offset := offset + 2 in
  ang ← readUInt16BE buffer offset;
  let offset := offset + 2 in
  sat ← readUInt8 buffer offset;
  let offset := offset + 1 in
  spd ← readUInt16BE buffer offset;
  let offset := offset + 2 in
  Ret ({| gps_longitude := Qmake lon 10000000; gps_latitude := Qmake lat 10000000;
          gps_altitude := alt; gps_angle := ang; gps_satellites := sat;
          gps_speed := spd |}, offset).

(** State of the [for] loop of [parseIOElements]: [i], [offset] and [io]. *)
Record io_loop := {
  io_i : Z;
  io_offset : Z;
  io_data : gmap string Z
}.

(** One turn of that loop, its [i++] included. *)
Definition parseIOElements_body (buffer : list byte) (byteLength : value_width)
    (codecID : Z) (s : io_loop) : outcome io_loop :=
  let offset := io_offset s in
  ioID ← read_id buffer offset codecID;
  let offset := offset + id_width codecID in
  value ← match byteLength with
          | W1 => readUInt8 buffer offset
          | W2 => readUInt16BE buffer offset
          | W4 => readUInt32BE buffer offset
          | W8 => Number_of_BigInt <$> readBigUInt64BE buffer offset
          end;
  let offset := offset + byteLength_of byteLength in
  Ret {| io_i := io_i s + 1; io_offset := offset;
         io_data := <[io_key ioID := value]> (io_data s) |}.

(** [parseIOElements(buffer, offset, byteLength, codecID)], returning
    [{ data, newOffset }] *)
Definition parseIOElements (fuel : nat) (buffer : list byte) (offset : Z)
    (byteLength : value_width) (codecID : Z) : outcome (gmap string Z * Z) :=
  count ← read_id buffer offset codecID;
  let offset := offset + id_width codecID in
  s ← while_loop fuel (λ s, io_i s <? count)
        (parseIOElements_body buffer byteLength codecID)
        {| io_i := 0; io_offset := offset; io_data := ∅ |};
  Ret (io_data s, io_offset s).

Record IOElement := {
  io_result_data : gmap string Z;
  io_result_eventID : Z;
  io_result_newOffset : Z
}.

(** [Object.assign(target, source)]: the keys of [source] win. *)
Definition Object_assign (target source : gmap string Z) : gmap string Z :=
  source ∪ target.

(** [parseIOElement(buffer, offset, codecID)] *)
Definition parseIOElement (fuel : nat) (buffer : list byte) (offset codecID : Z)
    : outcome IOElement :=
  let io : gmap string Z := ∅ in
  eventID ← read_id buffer offset codecID;
  let offset := offset + id_width codecID in
  totalElements ← read_id buffer offset codecID;
  let offset := offset + id_width codecID in
  '(data1, offset) ← parseIOElements fuel buffer offset W1 codecID;
  let io := Object_assign io data1 in
  '(data2, offset) ← parseIOElements fuel buffer offset W2 codecID;
  let io := Object_assign io data2 in
  '(data4, offset) ← parseIOElements fuel buffer offset W4 codecID;
  let io := Object_assign io data4 in
  '(data8, offset) ← parseIOElements fuel buffer offset W8 codecID;
  let io := Object_assign io data8 in
  Ret {| io_result_data := io; io_result_eventID := eventID;
         io_result_newOffset := offset |}.

(** [parseAVLRecord(buffer, offset, codecID)], returning
    [{ data, newOffset }] or [null] *)
Definition parseAVLRecord (fuel : nat) (buffer : list byte) (offset codecID : Z)
    : outcome (option (AVLRecord * Z)) :=
  try_catch
    (timestamp ← readBigUInt64BE buffer offset;
     recorded ← Date_toISOString (Number_of_BigInt timestamp);
     let offset := offset + 8 in
     prio ← readUInt8 buffer offset;
     let offset := offset + 1 in
     '(gps, offset) ← parseGPSElement buffer offset;
     io ← parseIOElement fuel buffer offset codecID;
     let offset := io_result_newOffset io in
     Ret (Some ({| recorded_at := recorded; priority := prio;
                   longitude := gps_longitude gps; latitude := gps_latitude gps;
                   altitude := gps_altitude gps; angle := gps_angle gps;
                   satellites := gps_satellites gps; speed := gps_speed gps;
                   io_elements := io_result_data io;
                   event_id := io_result_eventID io |}, offset)))
    (λ _, Ret None).

(** State of the [for] loop of [parseAVLData]: [i], [offset] and [records]. *)
Record avl_loop := {
  avl_i : Z;
  avl_offset : Z;
  avl_records : list AVLRecord
}.

(** One turn of that loop, its [i++] included: a record that failed to parse
    is not pushed and the offset stays where it was, so that the next turn
    reads at the same offset again. *)
Definition parseAVLData_body (fuel : nat) (buffer : list byte) (codecID : Z)
    (s : avl_loop) : outcome avl_loop :=
  record ← parseAVLRecord fuel buffer (avl_offset s) codecID;
  match record with
  | Some (data, newOffset) =>
      Ret {| avl_i := avl_i s + 1; avl_offset := newOffset;
             avl_records := avl_records s ++ [data] |}
  | None =>
      Ret {| avl_i := avl_i s + 1; avl_offset := avl_offset s;
             avl_records := avl_records s |}
  end.

(** The loop [for (let i = 0; i < numberOfData; i++)] of [parseAVLData]. *)
Definition parseAVLData_loop (fuel : nat) (buffer : list byte)
    (codecID numberOfData offset : Z) : outcome avl_loop :=
  while_loop fuel (λ s, avl_i s <? numberOfData)
    (parseAVLData_body fuel buffer codecID)
    {| avl_i := 0; avl_offset := offset; avl_records := [] |}.

(** [parseAVLData(buffer)]: the preamble is skipped, the data length is read
    and not used, then come the codec id, the record count and the records. *)
Definition parseAVLData (fuel : nat) (buffer : list byte) : outcome (option AVLData) :=
  try_catch
    (let offset := 0 in
     let offset := offset + 4 in
     dataLength ← readUInt32BE buffer offset;
     let offset := offset + 4 in
     codec ← readUInt8 buffer offset;
     let offset := offset + 1 in
     if negb (codec =? 8) && negb (codec =? 142) then Ret None
     else
       numberOfData ← readUInt8 buffer offset;
       let offset := offset + 1 in
       s ← parseAVLData_loop fuel buffer codec numberOfData offset;
       Ret (Some {| codecID := codec; numberOfRecords := numberOfData;
                    records := avl_records s |}))
    (λ _, Ret None).

(** [createACK(numberOfRecords)] *)
Definition createACK (n : Z) : list byte := writeUInt32BE n.

(** Iteration budget that covers every loop of the parser: a count is read
    from at most two bytes. *)
Definition enough_fuel : nat := Z.to_nat 65536.

End TeltonikaParser.

(** ** [listener/router.js] *)

Module DataRouter.

(** A row of [vista_maestra_dispositivos]; a column that is [null] is [None]. *)
Record Row := {
  row_imei : string;
  row_unidad : string;
  row_cliente : string;
  supabase_url_destino : option string;
  supabase_service_key_destino : option string
}.

Record ClientConfig := {
  imei : string;
  unidad : string;
  cliente : string;
  supabaseUrl : string;
  supabaseKey : string
}.

(** What the awaited query [.from(..).select('*').eq('imei', imei).single()]
    comes back with: the object [{ data, error }], or a rejected promise. *)
Inductive response : Type :=
  | Reply (data : option Row) (error : option string)
  | Rejected.

(** JS truthiness of a nullable string: [null] and the empty string are falsy. *)
Definition truthy (o : option string) : bool :=
  match o with
  | Some s => negb (String.eqb s EmptyString)
  | None => false
  end.

(** The router's [clientCache], the timers that [setTimeout] has armed (the
    instant each one is due and the key it deletes), and a simulated clock in
    milliseconds. *)
Record state := {
  clientCache : gmap string ClientConfig;
  timers : list (Z * string);
  clock : Z
}.

(** [new DataRouter(masterSupabase)] at instant [t]. *)
Definition new (t : Z) : state :=
  {| clientCache := ∅; timers := []; clock := t |}.

Definition cache_ttl : Z := 5 * 60 * 1000.

(** [validateDevice(imei)] up to its [await]: either the cached credentials
    are returned, or the master database is queried. *)
Inductive lookup : Type :=
  | Cached (c : ClientConfig)
  | QueryRegistry (imei : string).

Definition validateDevice_start (imei : string) (st : state) : lookup :=
  match clientCache st !! imei with
  | Some c => Cached c
  | None => QueryRegistry imei
  end.

(** [validateDevice(imei)] from its [await] on, given the registry's answer. *)
Definition validateDevice_resume (imei : string) (resp : response) (st : state)
    : option ClientConfig * state :=
  match resp with
  | Rejected => (None, st)
  | Reply _ (Some _) => (None, st)
  | Reply None None => (None, st)
  | Reply (Some data) None =>
      if negb (truthy (supabase_url_destino data))
         || negb (truthy (supabase_service_key_destino data))
      then (None, st)
      else
        let clientConfig :=
          {| imei := row_imei data; unidad := row_unidad data;
             cliente := row_cliente data;
             supabaseUrl := default EmptyString (supabase_url_destino data);
             supabaseKey := default EmptyString (supabase_service_key_destino data) |} in
        (Some clientConfig,
         {| clientCache := <[imei := clientConfig]> (clientCache st);
            timers := timers st ++ [(clock st + cache_ttl, imei)];
            clock := clock st |})
  end.

(** [clearCache()]; nothing in the listener calls it. *)
Definition clearCache (st : state) : state :=
  {| clientCache := ∅; timers := timers st; clock := clock st |}.

(** The clock moves on by [dt] milliseconds: every timer that has come due
    runs its callback [this.clientCache.delete(imei)] and is gone. *)
Definition due (t : Z) (tm : Z * string) : bool := fst tm <=? t.

Definition tick (dt : N) (st : state) : state :=
  let t := clock st + Z.of_N dt in
  {| clientCache :=
       foldr (λ tm c, delete (snd tm) c) (clientCache st) (filter (λ tm, due t tm) (timers st));
     timers := filter (λ tm, negb (due t tm)) (timers st);
     clock := t |}.

(** What can happen to a router between two moments: time passes, a session
    starts a lookup, the registry answers a query. *)
Inductive event : Type :=
  | Tick (dt : N)
  | Lookup (imei : string)
  | Answer (imei : string) (resp : response).

Definition step (e : event) (st : state) : state :=
  match e with
  | Tick dt => tick dt st
  | Lookup _ => st
  | Answer imei resp => snd (validateDevice_resume imei resp st)
  end.

Definition run (evs : list event) (st : state) : state :=
  foldl (λ st e, step e st) st evs.

(** Milliseconds that pass during a run of events. *)
Definition elapsed (evs : list event) : Z :=
  foldr (λ e acc, match e with Tick dt => Z.of_N dt + acc | _ => acc end) 0 evs.

(** No answer of the registry for [imei] arrives during the events. *)
Definition quiet (imei : string) (evs : list event) : Prop :=
  Forall (λ e, match e with Answer i _ => i ≠ imei | _ => True end) evs.


(** The entry of [imei] is gone, or the clock has not reached [deadline] and
    a timer that deletes the entry by then is armed. *)
Definition expiring (imei : string) (deadline : Z) (st : state) : Prop :=
  clientCache st !! imei = None ∨
  (clock st < deadline ∧ ∃ d, (d, imei) ∈ timers st ∧ d ≤ deadline).

(** The registry's answer holds a row whose destination URL and key are both
    set, and no error. *)
Definition configured (resp : response) : Prop :=
  ∃ data, resp = Reply (Some data) None ∧
          truthy (supabase_url_destino data) = true ∧
          truthy (supabase_service_key_destino data) = true.

(** The registry does not answer during the events. *)
Definition silent (evs : list event) : Prop :=
  Forall (λ e, match e with Answer _ _ => False | _ => True end) evs.

(** Every entry of the cache has a timer armed that deletes it within the
    next five minutes. *)
Definition all_expiring (st : state) : Prop :=
  ∀ k c, clientCache st !! k = Some c →
    ∃ d, (d, k) ∈ timers st ∧ d ≤ clock st + cache_ttl.

End DataRouter.

(** ** [listener/index.js]: one connection *)

Module Server.
Import Buffer TeltonikaParser.

(** The three variables that the connection's closure owns. *)
Record session := {
  deviceIMEI : option string;
  clientConfig : option DataRouter.ClientConfig;
  dataBuffer : list byte
}.

(** On accept: [deviceIMEI = null], [clientConfig = null], an empty buffer. *)
Definition accept : session :=
  {| deviceIMEI := None; clientConfig := None; dataBuffer := alloc0 |}.

(** The phase of the protocol, which the code reads off [deviceIMEI]. *)
Inductive phase : Set := AwaitingIdentity | Authenticated.

Definition phase_of (s : session) : phase :=
  match deviceIMEI s with
  | None => AwaitingIdentity
  | Some _ => Authenticated
  end.

(** [socket.write(bytes)] and [socket.end()] *)
Inductive effect : Type :=
  | Write (bytes : list byte)
  | End.

(** Where the ['data'] handler can be suspended: at
    [await router.validateDevice(deviceIMEI)] or at
    [await router.routeData(clientConfig, avlData.records)], whose arguments
    are evaluated before the handler yields. *)
Inductive await : Type :=
  | AwaitValidate (imei : string)
  | AwaitRoute (cfg : option DataRouter.ClientConfig) (avlData : AVLData).

Definition set_buffer (b : list byte) (s : session) : session :=
  {| deviceIMEI := deviceIMEI s; clientConfig := clientConfig s; dataBuffer := b |}.

(** The [catch] block of the handler. *)
Definition on_error (s : session) : session * list effect * option await :=
  (set_buffer alloc0 s, [Write (createACK 0)], None).

(** The handler from its entry to its first [await] or [return]. *)
Definition on_data (chunk : list byte) (s : session)
    : outcome (session * list effect * option await) :=
  let s := set_buffer (concat (dataBuffer s) chunk) s in
  match deviceIMEI s with
  | None =>
      if (Z.of_nat (length (dataBuffer s)) <? 17) then Ret (s, [], None)
      else
        match parseIMEI (dataBuffer s) with
        | Ret None =>
            Ret (s, [Write [x00]; End], None)
        | Ret (Some imei) =>
            let s := {| deviceIMEI := Some imei; clientConfig := clientConfig s;
                        dataBuffer := dataBuffer s |} in
            Ret (s, [], Some (AwaitValidate imei))
        | Throw _ => Ret (on_error s)
        | Timeout => Timeout
        end
  | Some _ =>
      if (Z.of_nat (length (dataBuffer s)) <? 12) then Ret (s, [], None)
      else
        match parseAVLData enough_fuel (dataBuffer s) with
        | Ret None => Ret (set_buffer alloc0 s, [Write (createACK 0)], None)
        | Ret (Some avlData) =>
            if (length (records avlData) =? 0)%nat
            then Ret (set_buffer alloc0 s, [Write (createACK 0)], None)
            else Ret (s, [], Some (AwaitRoute (clientConfig s) avlData))
        | Throw _ => Ret (on_error s)
        | Timeout => Timeout
        end
  end.

(** The handler after [clientConfig = await router.validateDevice(..)]. *)
Definition after_validate (r : option DataRouter.ClientConfig) (s : session)
    : session * list effect :=
  let s := {| deviceIMEI := deviceIMEI s; clientConfig := r; dataBuffer := dataBuffer s |} in
  match r with
  | None => (s, [Write [x00]; End])
  | Some _ => (set_buffer alloc0 s, [Write [x01]])
  end.

(** The handler after [success = await router.routeData(..)]. *)
Definition after_route (avlData : AVLData) (success : bool) (s : session)
    : session * list effect :=
  let recordsToAck := if success then numberOfRecords avlData else 0 in
  (set_buffer alloc0 s, [Write (createACK recordsToAck)]).

(** The process around one connection: the router, the session, the handlers
    that are suspended at an [await], and what was done to the socket so far. *)
Record world := {
  router : DataRouter.state;
  sess : session;
  pending : list await;
  output : list effect
}.

Definition fresh (t : Z) : world :=
  {| router := DataRouter.new t; sess := accept; pending := []; output := [] |}.

(** What the event loop can dispatch. The socket emits ['data'] whenever bytes
    have arrived; the emitter does not wait for the promise that an [async]
    listener returns, so a chunk is dispatched whether or not an earlier
    handler is suspended. [RegistryReply k] and [SinkReply k] complete the
    [k]-th outstanding request. *)
Inductive event : Type :=
  | Data (chunk : list byte)
  | RegistryReply (k : nat) (resp : DataRouter.response)
  | SinkReply (k : nat) (ok : bool)
  | Tick (dt : N).

Definition finish (w : world) (rt : DataRouter.state) (p : list await)
    (r : session * list effect) : world :=
  {| router := rt; sess := fst r; pending := p; output := output w ++ snd r |}.

(** A new chunk. A lookup that the cache answers and a [routeData] that
    throws on a [null] configuration settle without any input or output, so
    the handler goes on before the event loop dispatches anything else. *)
Definition dispatch_data (chunk : list byte) (w : world) : option world :=
  match on_data chunk (sess w) with
  | Ret (s, out, None) => Some (finish w (router w) (pending w) (s, out))
  | Ret (s, out, Some (AwaitValidate imei)) =>
      match DataRouter.validateDevice_start imei (router w) with
      | DataRouter.Cached c =>
          let '(s', out') := after_validate (Some c) s in
          Some (finish w (router w) (pending w) (s', out ++ out'))
      | DataRouter.QueryRegistry _ =>
          Some (finish w (router w) (pending w ++ [AwaitValidate imei]) (s, out))
      end
  | Ret (s, out, Some (AwaitRoute None avlData)) =>
      let '(s', out') := after_route avlData false s in
      Some (finish w (router w) (pending w) (s', out ++ out'))
  | Ret (s, out, Some (AwaitRoute (Some cfg) avlData)) =>
      Some (finish w (router w) (pending w ++ [AwaitRoute (Some cfg) avlData]) (s, out))
  | _ => None
  end.

Definition step (e : event) (w : world) : option world :=
  match e with
  | Data chunk => dispatch_data chunk w
  | RegistryReply k resp =>
      match pending w !! k with
      | Some (AwaitValidate imei) =>
          let '(r, rt) := DataRouter.validateDevice_resume imei resp (router w) in
          Some (finish w rt (delete k (pending w)) (after_validate r (sess w)))
      | _ => None
      end
  | SinkReply k ok =>
      match pending w !! k with
      | Some (AwaitRoute _ avlData) =>
          Some (finish w (router w) (delete k (pending w)) (after_route avlData ok (sess w)))
      | _ => None
      end
  | Tick dt =>
      Some {| router := DataRouter.tick dt (router w); sess := sess w;
              pending := pending w; output := output w |}
  end.

Fixpoint run (evs : list event) (w : world) : option world :=
  match evs with
  | [] => Some w
  | e :: evs' =>
      match step e w with
      | Some w' => run evs' w'
      | None => None
      end
  end.



(** The session as a sequential machine: a chunk is handled to the end, the
    registry and the sink answering at once. *)
Definition validateDevice (registry : string → DataRouter.response) (imei : string)
    (rt : DataRouter.state) : option DataRouter.ClientConfig * DataRouter.state :=
  match DataRouter.validateDevice_start imei rt with
  | DataRouter.Cached c => (Some c, rt)
  | DataRouter.QueryRegistry _ => DataRouter.validateDevice_resume imei (registry imei) rt
  end.

Definition routeData (sink : DataRouter.ClientConfig → list AVLRecord → bool)
    (cfg : option DataRouter.ClientConfig) (recs : list AVLRecord) : bool :=
  match cfg with
  | Some c => sink c recs
  | None => false
  end.

Definition handle_chunk (registry : string → DataRouter.response)
    (sink : DataRouter.ClientConfig → list AVLRecord → bool)
    (chunk : list byte) (w : world) : option world :=
  match on_data chunk (sess w) with
  | Ret (s, out, None) => Some (finish w (router w) (pending w) (s, out))
  | Ret (s, out, Some (AwaitValidate imei)) =>
      let '(r, rt) := validateDevice registry imei (router w) in
      let '(s', out') := after_validate r s in
      Some (finish w rt (pending w) (s', out ++ out'))
  | Ret (s, out, Some (AwaitRoute cfg avlData)) =>
      let '(s', out') := after_route avlData (routeData sink cfg (records avlData)) s in
      Some (finish w (router w) (pending w) (s', out ++ out'))
  | _ => None
  end.

Fixpoint handle_chunks (registry : string → DataRouter.response)
    (sink : DataRouter.ClientConfig → list AVLRecord → bool)
    (chunks : list (list byte)) (w : world) : option world :=
  match chunks with
  | [] => Some w
  | c :: cs =>
      match handle_chunk registry sink c w with
      | Some w' => handle_chunks registry sink cs w'
      | None => None
      end
  end.



(** What the handler may do to the socket: reject, accept, end, or
    acknowledge a count that fits one byte. *)
Definition valid_effect (e : effect) : Prop :=
  e = Write [x00] ∨ e = Write [x01] ∨ e = End ∨
  ∃ n, 0 ≤ n ≤ 255 ∧ e = Write (createACK n).

(** A handler suspended at [routeData] holds a packet whose declared count
    fits one byte. *)
Definition valid_await (a : await) : Prop :=
  match a with
  | AwaitRoute _ avlData => 0 ≤ numberOfRecords avlData ≤ 255
  | AwaitValidate _ => True
  end.

(** The number of buffered bytes under which the handler only waits. *)
Definition threshold (s : session) : nat :=
  match phase_of s with
  | AwaitingIdentity => 17%nat
  | Authenticated => 12%nat
  end.

End Server.

(** ** The device's side of the wire

    What a device sends is not part of the listener. These definitions follow
    the layout that the specification gives for the identity message and for
    the IO element section, with the width of ids and counts as a parameter:
    one byte for Codec 8, two bytes for Codec 8 Extended. *)

Module Wire.
Import Buffer JS TeltonikaParser.

(** The identity message: the length 15 on two bytes, then the digits. *)
Definition encode_identity (imei : string) : list byte :=
  [x00; x0f] ++ list_byte_of_string imei.

(** [v] on [n] bytes, most significant first. *)
Fixpoint encode_be (n : nat) (v : Z) : list byte :=
  match n with
  | O => []
  | Datatypes.S n' => byte_of_Z (v / 256 ^ Z.of_nat n') :: encode_be n' v
  end.

(** An IO element section: the event id, the informational total, and the
    [(id, value)] entries of the sub-groups of value width 1, 2, 4 and 8. *)
Record IOSection := {
  eventId : Z;
  totalElementCount : Z;
  group1 : list (Z * Z);
  group2 : list (Z * Z);
  group4 : list (Z * Z);
  group8 : list (Z * Z)
}.

Definition encode_entry (idw vw : nat) (e : Z * Z) : list byte :=
  encode_be idw (fst e) ++ encode_be vw (snd e).

Definition encode_group (idw vw : nat) (g : list (Z * Z)) : list byte :=
  encode_be idw (Z.of_nat (length g)) ++ flat_map (encode_entry idw vw) g.

Definition encode_io (idw : nat) (s : IOSection) : list byte :=
  encode_be idw (eventId s) ++ encode_be idw (totalElementCount s) ++
  encode_group idw 1 (group1 s) ++ encode_group idw 2 (group2 s) ++
  encode_group idw 4 (group4 s) ++ encode_group idw 8 (group8 s).

(** The records of a packet, each one its 24 leading bytes (timestamp,
    priority, GPS element) and its IO section. *)
Definition encode_records (idw : nat) (rs : list (list byte * IOSection)) : list byte :=
  flat_map (λ r, fst r ++ encode_io idw (snd r)) rs.

(** A data message: eight bytes of preamble and data length, the codec id,
    the record count, the records, and whatever trails them. *)
Definition encode_packet (pre : list byte) (codec : byte) (idw : nat)
    (rs : list (list byte * IOSection)) (suf : list byte) : list byte :=
  pre ++ [codec; byte_of_Z (Z.of_nat (length rs))] ++ encode_records idw rs ++ suf.

(** [v] is an unsigned number of [n] bytes. *)
Definition fits (n : nat) (v : Z) : Prop := 0 ≤ v < 256 ^ Z.of_nat n.

Definition group_fits (idw vw : nat) (g : list (Z * Z)) : Prop :=
  fits idw (Z.of_nat (length g)) ∧ Forall (λ e, fits idw (fst e) ∧ fits vw (snd e)) g.

(** The section can be written with ids and counts of [idw] bytes. *)
Definition section_fits (idw : nat) (s : IOSection) : Prop :=
  fits idw (eventId s) ∧ fits idw (totalElementCount s) ∧
  group_fits idw 1 (group1 s) ∧ group_fits idw 2 (group2 s) ∧
  group_fits idw 4 (group4 s) ∧ group_fits idw 8 (group8 s).

(** The width of ids and counts that goes with a codec id, and the width of
    the values of a sub-group, in bytes. *)
Definition idw_of (codec : Z) : nat := if codec =? 142 then 2%nat else 1%nat.

Definition vw_of (w : value_width) : nat := Z.to_nat (byteLength_of w).

(** The JS number that a value of a sub-group becomes. *)
Definition js_value (w : value_width) (v : Z) : Z :=
  match w with W8 => Number_of_BigInt v | _ => v end.

(** The mapping that a sub-group stands for; a later entry overwrites an
    earlier one with the same id. *)
Definition group_map (w : value_width) (g : list (Z * Z)) : gmap string Z :=
  foldl (λ m e, <[io_key (fst e) := js_value w (snd e)]> m) ∅ g.

Definition section_map (s : IOSection) : gmap string Z :=
  group_map W8 (group8 s) ∪ (group_map W4 (group4 s) ∪
    (group_map W2 (group2 s) ∪ (group_map W1 (group1 s) ∪ ∅))).

(** The record that 24 bytes of timestamp, priority and GPS element and an IO
    section stand for, when the timestamp is one that a [Date] can hold. *)
Definition record_of (head : list byte) (s : IOSection) : option AVLRecord :=
  match
    timestamp ← readBigUInt64BE head 0;
    recorded ← Date_toISOString (Number_of_BigInt timestamp);
    prio ← readUInt8 head 8;
    '(gps, _) ← parseGPSElement head 9;
    Ret {| recorded_at := recorded; priority := prio;
           longitude := gps_longitude gps; latitude := gps_latitude gps;
           altitude := gps_altitude gps; angle := gps_angle gps;
           satellites := gps_satellites gps; speed := gps_speed gps;
           io_elements := section_map s; event_id := eventId s |}
  with
  | Ret r => Some r
  | _ => None
  end.

(** What [k] turns of the record loop collect from the records [rs]: a record
    whose timestamp no [Date] can hold is tried again on every further turn. *)
Fixpoint collect (k : nat) (rs : list (list byte * IOSection)) (acc : list AVLRecord)
    : list AVLRecord :=
  match k, rs with
  | Datatypes.S k', r :: rest =>
      match record_of (fst r) (snd r) with
      | Some data => collect k' rest (acc ++ [data])
      | None => collect k' rs acc
      end
  | _, _ => acc
  end.

(** [bs] is what the buffer holds from [offset] on. *)
Definition has_at (buffer : list byte) (offset : Z) (bs : list byte) : Prop :=
  0 ≤ offset ∧ ∃ suf, drop (Z.to_nat offset) buffer = bs ++ suf.

(** [v] as a two's complement number of [n] bytes, most significant first. *)
Definition encode_signed (n : nat) (v : Z) : list byte :=
  encode_be n (v mod 256 ^ Z.of_nat n).

(** [v] is a signed number of [n] bytes. *)
Definition fits_signed (n : nat) (v : Z) : Prop :=
  - 2 ^ (8 * Z.of_nat n - 1) ≤ v < 2 ^ (8 * Z.of_nat n - 1).

(** The integers of a GPS element as the device holds them: longitude and
    latitude in units of 1e-7 degree. *)
Record GPSRaw := {
  raw_longitude : Z;
  raw_latitude : Z;
  raw_altitude : Z;
  raw_angle : Z;
  raw_satellites : Z;
  raw_speed : Z
}.

(** The 15 bytes of a GPS element. *)
Definition encode_gps (g : GPSRaw) : list byte :=
  encode_signed 4 (raw_longitude g) ++ encode_signed 4 (raw_latitude g) ++
  encode_signed 2 (raw_altitude g) ++ encode_be 2 (raw_angle g) ++
  encode_be 1 (raw_satellites g) ++ encode_be 2 (raw_speed g).

Definition gps_fits (g : GPSRaw) : Prop :=
  fits_signed 4 (raw_longitude g) ∧ fits_signed 4 (raw_latitude g) ∧
  fits_signed 2 (raw_altitude g) ∧ fits 2 (raw_angle g) ∧
  fits 1 (raw_satellites g) ∧ fits 2 (raw_speed g).

(** The GPS fields that those integers stand for. *)
Definition gps_of (g : GPSRaw) : GPSElement :=
  {| gps_longitude := Qmake (raw_longitude g) 10000000;
     gps_latitude := Qmake (raw_latitude g) 10000000;
     gps_altitude := raw_altitude g; gps_angle := raw_angle g;
     gps_satellites := raw_satellites g; gps_speed := raw_speed g |}.

(** The numbers that a decoded GPS element can hold. *)
Definition gps_in_range (gps : GPSElement) : Prop :=
  Qden (gps_longitude gps) = 10000000%positive ∧
  - 2 ^ 31 ≤ Qnum (gps_longitude gps) < 2 ^ 31 ∧
  Qden (gps_latitude gps) = 10000000%positive ∧
  - 2 ^ 31 ≤ Qnum (gps_latitude gps) < 2 ^ 31 ∧
  - 2 ^ 15 ≤ gps_altitude gps < 2 ^ 15 ∧
  0 ≤ gps_angle gps < 2 ^ 16 ∧
  0 ≤ gps_satellites gps < 2 ^ 8 ∧
  0 ≤ gps_speed gps < 2 ^ 16.

(** The records that [k] turns decode one after the other from [offset] on,
    each one starting where the one before it ended, up to the first one that
    fails to decode. *)
Fixpoint decoded_until_failure (fuel : nat) (buffer : list byte) (codec offset : Z)
    (k : nat) : list AVLRecord :=
  match k with
  | O => []
  | Datatypes.S k' =>
      match parseAVLRecord fuel buffer offset codec with
      | Ret (Some (data, newOffset)) =>
          data :: decoded_until_failure fuel buffer codec newOffset k'
      | _ => []
      end
  end.

(** The 24 leading bytes of a record: timestamp, priority, GPS element. *)
Definition encode_head (timestamp prio : Z) (g : GPSRaw) : list byte :=
  encode_be 8 timestamp ++ encode_be 1 prio ++ encode_gps g.

(** The value that the last entry of a sub-group with the id [ioID] carries. *)
Definition last_value (ioID : Z) (g : list (Z * Z)) : option Z :=
  snd <$> last (filter (λ e, fst e = ioID) g).

End Wire.

(** ** Sample messages *)

Module Samples.
Import Buffer TeltonikaParser.

(** The identity message of the device 123456789012345. *)
Definition identity : list byte :=
  [x00; x0f; x31; x32; x33; x34; x35; x36; x37; x38; x39; x30; x31; x32; x33; x34; x35].

(** The same message with the highest bit of the first digit set. *)
Definition high_bit_identity : list byte :=
  [x00; x0f; xb1; x32; x33; x34; x35; x36; x37; x38; x39; x30; x31; x32; x33; x34; x35].

(** Timestamp 2024-02-11T22:00:00Z, priority 0, longitude -99.133209,
    latitude 19.432608, altitude 2240, angle 180, 12 satellites, speed 60. *)
Definition record_head : list byte :=
  [x00; x00; x01; x8d; x9a; x2f; x2f; x00; x00;
   xc4; xe9; x79; x06; x0b; x95; x2e; x40; x08; xc0; x00; xb4; x0c; x00; x3c].

(** Event 0, one element in all: id 1 with the one-byte value 1. *)
Definition io_section : Wire.IOSection :=
  {| Wire.eventId := 0; Wire.totalElementCount := 1;
     Wire.group1 := [(1, 1)]; Wire.group2 := []; Wire.group4 := []; Wire.group8 := [] |}.

Definition io_codec8 : list byte := [x00; x01; x01; x01; x01; x00; x00; x00].

Definition io_codec8e : list byte :=
  [x00; x00; x00; x01; x00; x01; x00; x01; x01; x00; x00; x00; x00; x00; x00].

(** Event 0, one element in all: id 7 with the eight-byte value 2^53 + 1. *)
Definition io_big : list byte :=
  [x00; x01; x00; x00; x00; x01; x07; x00; x20; x00; x00; x00; x00; x00; x01].

Definition preamble : list byte := [x00; x00; x00; x00; x00; x00; x00; x00].

Definition header (codec count : byte) : list byte := preamble ++ [codec; count].

Definition packet : list byte := header x08 x01 ++ record_head ++ io_codec8.

Definition packet_8e : list byte := header x8e x01 ++ record_head ++ io_codec8e.

(** Two records declared; the second one breaks off after ten bytes. *)
Definition truncated_packet : list byte :=
  header x08 x02 ++ record_head ++ io_codec8 ++ take 10 record_head.

Definition big_packet : list byte := header x08 x01 ++ record_head ++ io_big.

Definition unknown_codec_packet : list byte := header x07 x01 ++ record_head ++ io_codec8.

Definition decoded_record : AVLRecord :=
  {| recorded_at := "2024-02-11T22:00:00.000Z"; priority := 0;
     longitude := Qmake (-991332090) 10000000; latitude := Qmake 194326080 10000000;
     altitude := 2240; angle := 180; satellites := 12; speed := 60;
     io_elements := {[ "io_1"%string := 1 ]}; event_id := 0 |}.

Definition big_record : AVLRecord :=
  {| recorded_at := "2024-02-11T22:00:00.000Z"; priority := 0;
     longitude := Qmake (-991332090) 10000000; latitude := Qmake 194326080 10000000;
     altitude := 2240; angle := 180; satellites := 12; speed := 60;
     io_elements := {[ "io_7"%string := 9007199254740992 ]}; event_id := 0 |}.

(** The registry knows one device, whose tenant is fully configured; the
    sink takes every write. *)
Definition device : string := "123456789012345".

Definition row : DataRouter.Row :=
  {| DataRouter.row_imei := device; DataRouter.row_unidad := "Unidad 7";
     DataRouter.row_cliente := "Cliente A";
     DataRouter.supabase_url_destino := Some "https://cliente-a.supabase.co"%string;
     DataRouter.supabase_service_key_destino := Some "service-key"%string |}.

Definition route : DataRouter.ClientConfig :=
  {| DataRouter.imei := device; DataRouter.unidad := "Unidad 7";
     DataRouter.cliente := "Cliente A";
     DataRouter.supabaseUrl := "https://cliente-a.supabase.co";
     DataRouter.supabaseKey := "service-key" |}.

Definition registry (imei : string) : DataRouter.response :=
  if String.eqb imei device then DataRouter.Reply (Some row) None
  else DataRouter.Reply None None.

Definition sink (c : DataRouter.ClientConfig) (recs : list AVLRecord) : bool := true.

(** A second chunk arrives while the registry is still being asked about the
    identity in the first one. *)
Definition overlap : list Server.event :=
  [Server.Data identity; Server.Data [x00];
   Server.RegistryReply 0 (DataRouter.Reply (Some row) None)].


(** The timestamp and the GPS element of [record_head], as numbers. *)
Definition timestamp : Z := 1707688800000.

Definition gps : Wire.GPSRaw :=
  {| Wire.raw_longitude := -991332090; Wire.raw_latitude := 194326080;
     Wire.raw_altitude := 2240; Wire.raw_angle := 180;
     Wire.raw_satellites := 12; Wire.raw_speed := 60 |}.

(** The same 24 bytes with a timestamp one millisecond after the last
    instant that a [Date] can hold. *)
Definition late_head : list byte :=
  [x00; x1e; xb2; x08; xc2; xdc; x00; x01; x00;
   xc4; xe9; x79; x06; x0b; x95; x2e; x40; x08; xc0; x00; xb4; x0c; x00; x3c].

(** A sub-group of one-byte values in which the id 1 occurs twice. *)
Definition repeated_group : list (Z * Z) := [(1, 7); (2, 5); (1, 9)].

End Samples.

(** * Properties *)

(** ** Loops *)

Section CountingLoop.
Context {S : Type} (idx : S → Z) (n : Z) (body : S → outcome S).
Hypothesis body_counts : ∀ s s', body s = Ret s' → idx s' = idx s + 1.

Lemma iterate_idx k s s' :
  iterate k body s = Ret s' → idx s' = idx s + Z.of_nat k.
Proof.
  revert s. induction k as [|k IH]; intros s; simpl.
  - intros [= <-]. lia.
  - destruct (body s) as [s1| |] eqn:Hb; simpl; try done.
    intros H. apply IH in H. apply body_counts in Hb. lia.
Qed.

Lemma while_loop_iterate fuel s :
  (Z.to_nat (n - idx s) ≤ fuel)%nat →
  while_loop fuel (λ s, idx s <? n) body s = iterate (Z.to_nat (n - idx s)) body s.
Proof.
  revert s. induction fuel as [|fuel IH]; intros s Hfuel.
  - assert (n - idx s ≤ 0) as Hle by lia.
    replace (Z.to_nat (n - idx s)) with 0%nat by lia. simpl.
    by rewrite (proj2 (Z.ltb_ge _ _)) by lia.
  - simpl. destruct (idx s <? n) eqn:Hc.
    + apply Z.ltb_lt in Hc.
      replace (Z.to_nat (n - idx s)) with (Datatypes.S (Z.to_nat (n - idx s) - 1)) by lia.
      simpl. destruct (body s) as [s1| |] eqn:Hb; simpl; try done.
      pose proof (body_counts _ _ Hb) as Hi.
      rewrite IH by lia. f_equal. lia.
    + apply Z.ltb_ge in Hc. by replace (Z.to_nat (n - idx s)) with 0%nat by lia.
Qed.

Lemma iterate_not_Timeout k s :
  (∀ s, body s ≠ Timeout) → iterate k body s ≠ Timeout.
Proof.
  intros Hb. revert s. induction k as [|k IH]; intros s; simpl; [done|].
  specialize (Hb s). destruct (body s); simpl; [apply IH|done..].
Qed.

Lemma iterate_Ret k s :
  (∀ s, ∃ s', body s = Ret s') → ∃ s', iterate k body s = Ret s'.
Proof.
  intros Hb. revert s. induction k as [|k IH]; intros s; simpl; [eauto|].
  destruct (Hb s) as [s1 ->]. simpl. apply IH.
Qed.

End CountingLoop.

Section LoopInvariant.
Context {S : Type} (cond : S → bool) (body : S → outcome S) (P : S → Prop).
Hypothesis body_keeps : ∀ s s', cond s = true → P s → body s = Ret s' → P s'.

Lemma while_loop_invariant fuel s s' :
  P s → while_loop fuel cond body s = Ret s' → P s' ∧ cond s' = false.
Proof.
  revert s. induction fuel as [|fuel IH]; intros s HP; simpl.
  - destruct (cond s) eqn:Hc; [done|]. by intros [= <-].
  - destruct (cond s) eqn:Hc; [|by intros [= <-]].
    destruct (body s) as [s1| |] eqn:Hb; simpl; try done.
    apply IH. eauto.
Qed.

End LoopInvariant.

(** ** Reading from a buffer *)

Module BufferFacts.
Import Buffer.

Lemma u8_range (b : byte) : 0 ≤ u8 b < 256.
Proof. unfold u8. pose proof (Byte.to_N_bounded b). lia. Qed.

Lemma be_value_bounds (bs : list byte) acc :
  0 ≤ acc → acc * 256 ^ Z.of_nat (length bs) ≤ be_value acc bs < (acc + 1) * 256 ^ Z.of_nat (length bs).
Proof.
  revert acc. induction bs as [|b bs IH]; intros acc Hacc.
  - simpl. lia.
  - cbn [be_value length]. pose proof (u8_range b).
    specialize (IH (acc * 256 + u8 b) ltac:(lia)).
    rewrite Nat2Z.inj_succ, Z.pow_succ_r by lia.
    nia.
Qed.

Lemma readUIntBE_Ret n buffer offset v :
  readUIntBE n buffer offset = Ret v →
  0 ≤ offset ∧ offset + Z.of_nat n ≤ Z.of_nat (length buffer) ∧
  v = be_value 0 (take n (drop (Z.to_nat offset) buffer)) ∧ 0 ≤ v < 256 ^ Z.of_nat n.
Proof.
  unfold readUIntBE. destruct (_ && _) eqn:E; [|done]. intros [= <-].
  apply andb_true_iff in E as [H1%Z.leb_le H2%Z.leb_le].
  split_and!; try done.
  - pose proof (be_value_bounds (take n (drop (Z.to_nat offset) buffer)) 0 ltac:(lia)). lia.
  - pose proof (be_value_bounds (take n (drop (Z.to_nat offset) buffer)) 0 ltac:(lia)) as Hb.
    rewrite length_take, length_drop in Hb.
    replace (n `min` (length buffer - Z.to_nat offset))%nat with n in Hb by lia. lia.
Qed.

Lemma readUIntBE_in_range n buffer offset :
  0 ≤ offset → offset + Z.of_nat n ≤ Z.of_nat (length buffer) →
  readUIntBE n buffer offset = Ret (be_value 0 (take n (drop (Z.to_nat offset) buffer))).
Proof.
  intros H1 H2. unfold readUIntBE.
  rewrite (proj2 (Z.leb_le _ _) H1), (proj2 (Z.leb_le _ _) H2). done.
Qed.

Lemma readUIntBE_out_of_range n buffer offset :
  Z.of_nat (length buffer) < offset + Z.of_nat n →
  readUIntBE n buffer offset = Throw RangeError.
Proof.
  intros H. unfold readUIntBE.
  rewrite (proj2 (Z.leb_gt _ _) H), andb_false_r. done.
Qed.

Lemma readUIntBE_not_Timeout n buffer offset : readUIntBE n buffer offset ≠ Timeout.
Proof. unfold readUIntBE. by destruct (_ && _). Qed.

Lemma readUInt8_lookup (buffer : list byte) (k : nat) (b : byte) :
  buffer !! k = Some b → readUInt8 buffer (Z.of_nat k) = Ret (u8 b).
Proof.
  intros H. pose proof (lookup_lt_Some _ _ _ H) as Hlt.
  unfold readUInt8. rewrite readUIntBE_in_range by lia.
  rewrite Nat2Z.id. f_equal.
  rewrite <- (take_drop_middle _ _ _ H).
  rewrite drop_app_length'; [|rewrite length_take; lia].
  simpl. done.
Qed.

End BufferFacts.

(** ** [parseIMEI] *)

Module IdentityFacts.
Import Buffer JS TeltonikaParser Wire BufferFacts.

Lemma is_digit_spec c : is_digit c = true ↔ decimal_digit c.
Proof.
  unfold is_digit, decimal_digit. rewrite andb_true_iff, !N.leb_le. done.
Qed.

Lemma length_string_of_list_ascii l :
  String.length (string_of_list_ascii l) = length l.
Proof. induction l; simpl; congruence. Qed.

Lemma test_15_digits_spec s :
  test_15_digits s = true ↔
  String.length s = 15%nat ∧ Forall decimal_digit (list_ascii_of_string s).
Proof.
  unfold test_15_digits. rewrite andb_true_iff, Nat.eqb_eq, forallb_forall, Forall_forall.
  split; intros [H1 H2]; split; try done; intros c Hc.
  - apply is_digit_spec, H2. by apply list_elem_of_In.
  - apply is_digit_spec, H2. by apply list_elem_of_In.
Qed.

(** What [parseIMEI] accepts, byte by byte. *)
Lemma parseIMEI_Some buffer imei :
  parseIMEI buffer = Ret (Some imei) ↔
  readUInt16BE buffer 0 = Ret 15 ∧
  imei = toString_ascii (slice buffer 2 17) ∧
  length (slice buffer 2 17) = 15%nat ∧
  Forall (λ b, decimal_digit (ascii_char b)) (slice buffer 2 17).
Proof.
  unfold parseIMEI.
  destruct (readUInt16BE buffer 0) as [len| |] eqn:Hlen; simpl; [|split; [done|intros [? _]; done]..].
  destruct (len =? 15) eqn:Hl; simpl.
  - apply Z.eqb_eq in Hl as ->. change (2 + 15) with 17.
    destruct (test_15_digits _) eqn:Ht; simpl.
    + apply test_15_digits_spec in Ht as [H1 H2].
      unfold toString_ascii in *. rewrite length_string_of_list_ascii, length_map in H1.
      rewrite list_ascii_of_string_of_list_ascii in H2. rewrite List.Forall_map in H2.
      split; [intros [= <-]; done|]. intros (_ & -> & _); done.
    + split; [done|]. intros (_ & -> & H1 & H2). exfalso.
      assert (test_15_digits (toString_ascii (slice buffer 2 17)) = true) as Hc; [|congruence].
      apply test_15_digits_spec. unfold toString_ascii.
      rewrite length_string_of_list_ascii, length_map, list_ascii_of_string_of_list_ascii.
      split; [done|]. by rewrite List.Forall_map.
  - apply Z.eqb_neq in Hl. split; [done|]. intros ([= ->] & _). done.
Qed.

Lemma parseIMEI_Ret buffer : ∃ r, parseIMEI buffer = Ret r.
Proof.
  unfold parseIMEI. unfold readUInt16BE, readUIntBE.
  destruct (_ && _); simpl; [|eauto].
  destruct (_ =? 15); simpl; [|eauto].
  destruct (test_15_digits _); simpl; eauto.
Qed.

(** C9: for every input buffer, the empty one and those shorter than 17
    bytes included, [parseIMEI] returns to its caller without throwing, and
    what it returns is either [null] or a string of exactly 15 decimal
    digits. *)
Theorem parseIMEI_total (buffer : list byte) :
  ∃ r, parseIMEI buffer = Ret r ∧
    (r = None ∨
     ∃ imei, r = Some imei ∧ String.length imei = 15%nat ∧
             Forall decimal_digit (list_ascii_of_string imei)).
Proof.
  destruct (parseIMEI_Ret buffer) as [[imei|] Hr]; [|eauto].
  exists (Some imei). split; [done|]. right. exists imei. split; [done|].
  apply parseIMEI_Some in Hr as (_ & -> & H1 & H2).
  unfold toString_ascii.
  rewrite length_string_of_list_ascii, length_map, list_ascii_of_string_of_list_ascii.
  split; [done|]. by rewrite List.Forall_map.
Qed.

Lemma ascii_char_digit (c : ascii) :
  decimal_digit c → ascii_char (byte_of_ascii c) = c.
Proof.
  unfold decimal_digit.
  destruct c as [[] [] [] [] [] [] [] []]; vm_compute; intros [H1 H2]; try done;
    exfalso; (by apply H1) || (by apply H2).
Qed.

(** Round trip: a 15-digit identity decodes to itself, whatever follows it. *)
Lemma parseIMEI_encode (imei : string) (rest : list byte) :
  String.length imei = 15%nat → Forall decimal_digit (list_ascii_of_string imei) →
  parseIMEI (encode_identity imei ++ rest) = Ret (Some imei).
Proof.
  intros Hlen Hdig. apply parseIMEI_Some.
  assert (length (list_byte_of_string imei) = 15%nat) as Hl.
  { unfold list_byte_of_string. rewrite length_map.
    rewrite <- Hlen. clear. induction imei; simpl; congruence. }
  assert (slice (encode_identity imei ++ rest) 2 17 = list_byte_of_string imei) as ->.
  { unfold slice, encode_identity. change (Z.to_nat (17 - 2)) with 15%nat.
    change (Z.to_nat 2) with 2%nat. simpl drop.
    rewrite drop_0, take_app_length'; done. }
  split_and!; try done.
  - unfold readUInt16BE. rewrite readUIntBE_in_range; [done|lia|].
    unfold encode_identity. rewrite !length_app. simpl. lia.
  - unfold toString_ascii, list_byte_of_string. rewrite List.map_map.
    rewrite <- (string_of_list_ascii_of_string imei) at 1. f_equal.
    clear Hlen Hl. induction Hdig as [|c l Hc _ IH]; simpl; [done|].
    rewrite ascii_char_digit by done. by f_equal.
  - unfold list_byte_of_string. rewrite List.Forall_map.
    eapply Forall_impl; [exact Hdig|]. intros c Hc. simpl.
    by rewrite ascii_char_digit.
Qed.

(** A length prefix other than 15 is rejected. *)
Lemma parseIMEI_bad_length buffer :
  readUInt16BE buffer 0 ≠ Ret 15 → parseIMEI buffer = Ret None.
Proof.
  intros H. destruct (parseIMEI_Ret buffer) as [[imei|] Hr]; [|done].
  apply parseIMEI_Some in Hr as [? _]. done.
Qed.

(** C4: the identity message whose first payload byte is 0xB1, which is not
    the code of a decimal digit, is accepted and decoded to the identity
    123456789012345: the digits are checked on the decoded string, after the
    'ascii' decoding has cleared the highest bit of every byte. *)
Theorem parseIMEI_high_bit_digit :
  parseIMEI Samples.high_bit_identity = Ret (Some "123456789012345"%string) ∧
  xb1 ∈ slice Samples.high_bit_identity 2 17 ∧
  ¬ (48 ≤ u8 xb1 ≤ 57).
Proof.
  split_and!.
  - vm_compute. reflexivity.
  - vm_compute. apply list_elem_of_here.
  - change (u8 xb1) with 177. lia.
Qed.

End IdentityFacts.

(** ** The loops of the parser end *)

Module ParserFacts.
Import Buffer JS TeltonikaParser BufferFacts.

Lemma read_id_not_Timeout buffer offset codec : read_id buffer offset codec ≠ Timeout.
Proof. unfold read_id. destruct (_ =? _); apply readUIntBE_not_Timeout. Qed.

Lemma read_id_range buffer offset codec v :
  read_id buffer offset codec = Ret v → 0 ≤ v < 65536.
Proof.
  unfold read_id. destruct (_ =? _); intros H; apply readUIntBE_Ret in H as (_ & _ & _ & H);
    simpl in H; lia.
Qed.

Lemma parseIOElements_body_not_Timeout buffer w codec s :
  parseIOElements_body buffer w codec s ≠ Timeout.
Proof.
  unfold parseIOElements_body.
  pose proof (read_id_not_Timeout buffer (io_offset s) codec).
  destruct (read_id _ _ _) as [id| |]; simpl; try done.
  unfold readUInt8, readUInt16BE, readUInt32BE, readBigUInt64BE.
  destruct w; simpl;
    match goal with |- context [readUIntBE ?n ?b ?o] =>
      pose proof (readUIntBE_not_Timeout n b o); destruct (readUIntBE n b o) end;
    done.
Qed.

Lemma parseIOElements_body_counts buffer w codec s s' :
  parseIOElements_body buffer w codec s = Ret s' → io_i s' = io_i s + 1.
Proof.
  unfold parseIOElements_body.
  destruct (read_id _ _ _) as [id| |]; simpl; try done.
  destruct (match w with W1 => _ | _ => _ end) as [v| |]; simpl; try done.
  by intros [= <-].
Qed.

(** With the budget [enough_fuel] no loop of the parser runs out of fuel. *)
Lemma parseIOElements_not_Timeout fuel buffer offset w codec :
  (enough_fuel ≤ fuel)%nat → parseIOElements fuel buffer offset w codec ≠ Timeout.
Proof.
  intros Hfuel. unfold enough_fuel in Hfuel. unfold parseIOElements.
  pose proof (read_id_not_Timeout buffer offset codec).
  destruct (read_id _ _ _) as [count| |] eqn:Hc; simpl; try done.
  apply read_id_range in Hc.
  rewrite (while_loop_iterate io_i count _ (parseIOElements_body_counts buffer w codec));
    [|simpl; lia].
  match goal with |- context [iterate ?k ?b ?s] =>
    pose proof (iterate_not_Timeout b k s (parseIOElements_body_not_Timeout buffer w codec));
    destruct (iterate k b s) end; done.
Qed.

Lemma parseIOElement_not_Timeout fuel buffer offset codec :
  (enough_fuel ≤ fuel)%nat → parseIOElement fuel buffer offset codec ≠ Timeout.
Proof.
  intros Hfuel. unfold parseIOElement.
  repeat match goal with
  | |- context [read_id ?b ?o ?c] =>
      pose proof (read_id_not_Timeout b o c); destruct (read_id b o c); simpl; try done
  | |- context [parseIOElements fuel ?b ?o ?w ?c] =>
      pose proof (parseIOElements_not_Timeout fuel b o w c Hfuel);
      destruct (parseIOElements fuel b o w c) as [[? ?]| |]; simpl; try done
  end.
Qed.

Lemma parseGPSElement_not_Timeout buffer offset : parseGPSElement buffer offset ≠ Timeout.
Proof.
  unfold parseGPSElement, readInt32BE, readInt16BE, readUInt16BE, readUInt8.
  repeat match goal with
  | |- context [readUIntBE ?n ?b ?o] =>
      pose proof (readUIntBE_not_Timeout n b o); destruct (readUIntBE n b o); simpl; try done
  end.
Qed.

Lemma Date_toISOString_not_Timeout tv : Date_toISOString tv ≠ Timeout.
Proof.
  unfold Date_toISOString. destruct (Z.abs tv <=? max_time_value); [|done].
  by destruct (civil_from_days _) as [[y m] d].
Qed.

(** [parseAVLRecord] catches whatever its reads throw: it always returns. *)
Lemma parseAVLRecord_Ret fuel buffer offset codec :
  (enough_fuel ≤ fuel)%nat → ∃ r, parseAVLRecord fuel buffer offset codec = Ret r.
Proof.
  intros Hfuel. unfold parseAVLRecord, readBigUInt64BE, readUInt8.
  pose proof (readUIntBE_not_Timeout 8 buffer offset).
  destruct (readUIntBE 8 _ _) as [ts| |]; simpl; try done; [|eauto].
  pose proof (Date_toISOString_not_Timeout (Number_of_BigInt ts)).
  destruct (Date_toISOString _) as [iso| |]; simpl; try done; [|eauto].
  pose proof (readUIntBE_not_Timeout 1 buffer (offset + 8)).
  destruct (readUIntBE 1 _ _) as [p| |]; simpl; try done; [|eauto].
  pose proof (parseGPSElement_not_Timeout buffer (offset + 8 + 1)).
  destruct (parseGPSElement _ _) as [[gps off]| |]; simpl; try done; [|eauto].
  pose proof (parseIOElement_not_Timeout fuel buffer off codec Hfuel).
  destruct (parseIOElement _ _ _ _) as [io| |]; simpl; try done; eauto.
Qed.

Lemma parseAVLData_body_counts fuel buffer codec s s' :
  parseAVLData_body fuel buffer codec s = Ret s' → avl_i s' = avl_i s + 1.
Proof.
  unfold parseAVLData_body.
  destruct (parseAVLRecord _ _ _ _) as [[[d o]|]| |]; simpl; try done; by intros [= <-].
Qed.

Lemma parseAVLData_body_Ret fuel buffer codec s :
  (enough_fuel ≤ fuel)%nat → ∃ s', parseAVLData_body fuel buffer codec s = Ret s'.
Proof.
  intros Hfuel. unfold parseAVLData_body.
  destruct (parseAVLRecord_Ret fuel buffer (avl_offset s) codec Hfuel) as [[[d o]|] ->];
    simpl; eauto.
Qed.

(** A record that does not parse costs one turn of the loop and nothing else. *)
Lemma parseAVLData_body_skip fuel buffer codec s :
  parseAVLRecord fuel buffer (avl_offset s) codec = Ret None →
  parseAVLData_body fuel buffer codec s =
    Ret {| avl_i := avl_i s + 1; avl_offset := avl_offset s; avl_records := avl_records s |}.
Proof. unfold parseAVLData_body. by intros ->. Qed.

Lemma parseAVLData_loop_iterate fuel buffer codec count offset :
  (enough_fuel ≤ fuel)%nat → 0 ≤ count < 256 →
  parseAVLData_loop fuel buffer codec count offset =
    iterate (Z.to_nat count) (parseAVLData_body fuel buffer codec)
      {| avl_i := 0; avl_offset := offset; avl_records := [] |}.
Proof.
  intros Hfuel Hc. unfold enough_fuel in Hfuel. unfold parseAVLData_loop.
  rewrite (while_loop_iterate avl_i count _ (parseAVLData_body_counts fuel buffer codec));
    simpl; [|lia].
  by rewrite Z.sub_0_r.
Qed.

(** [parseAVLData] with its offsets added up. *)
Lemma parseAVLData_eq fuel buffer :
  parseAVLData fuel buffer =
    try_catch
      (dataLength ← readUInt32BE buffer 4;
       codec ← readUInt8 buffer 8;
       if negb (codec =? 8) && negb (codec =? 142) then Ret None
       else
         numberOfData ← readUInt8 buffer 9;
         s ← parseAVLData_loop fuel buffer codec numberOfData 10;
         Ret (Some {| codecID := codec; numberOfRecords := numberOfData;
                      records := avl_records s |}))
      (λ _, Ret None).
Proof. reflexivity. Qed.

(** The header of a packet, case by case. *)
Lemma parseAVLData_short fuel (buffer : list byte) :
  (length buffer < 10)%nat → parseAVLData fuel buffer = Ret None.
Proof.
  intros Hlen. rewrite parseAVLData_eq. unfold readUInt32BE, readUInt8.
  destruct (readUIntBE 4 buffer 4) as [dl| |] eqn:H4; simpl;
    [|done|by apply readUIntBE_not_Timeout in H4].
  destruct (readUIntBE 1 buffer 8) as [c| |] eqn:H8; simpl;
    [|done|by apply readUIntBE_not_Timeout in H8].
  destruct (negb (c =? 8) && negb (c =? 142)); simpl; [done|].
  rewrite readUIntBE_out_of_range; [done|]. simpl. lia.
Qed.

Lemma parseAVLData_unsupported fuel (buffer : list byte) (c : byte) :
  buffer !! 8%nat = Some c → u8 c ≠ 8 → u8 c ≠ 142 →
  parseAVLData fuel buffer = Ret None.
Proof.
  intros Hc H8 H142. pose proof (lookup_lt_Some _ _ _ Hc) as Hlen.
  rewrite parseAVLData_eq. unfold readUInt32BE.
  rewrite readUIntBE_in_range by lia. simpl.
  pose proof (readUInt8_lookup buffer 8 c Hc) as Hr.
  change (Z.of_nat 8) with 8 in Hr. rewrite Hr. simpl.
  apply Z.eqb_neq in H8, H142. by rewrite H8, H142.
Qed.

Lemma parseAVLData_codec fuel (buffer : list byte) (c : byte) :
  buffer !! 8%nat = Some c →
  parseAVLData fuel buffer =
    if negb (u8 c =? 8) && negb (u8 c =? 142) then Ret None
    else
      try_catch
        (numberOfData ← readUInt8 buffer 9;
         s ← parseAVLData_loop fuel buffer (u8 c) numberOfData 10;
         Ret (Some {| codecID := u8 c; numberOfRecords := numberOfData;
                      records := avl_records s |}))
        (λ _, Ret None).
Proof.
  intros Hc. pose proof (lookup_lt_Some _ _ _ Hc) as Hlen.
  rewrite parseAVLData_eq. unfold readUInt32BE.
  rewrite readUIntBE_in_range by lia. simpl.
  pose proof (readUInt8_lookup buffer 8 c Hc) as H8.
  change (Z.of_nat 8) with 8 in H8. rewrite H8. simpl.
  by destruct (negb (u8 c =? 8) && negb (u8 c =? 142)).
Qed.

End ParserFacts.

(** ** [parseAVLData] *)

Module PacketFacts.
Import Buffer JS TeltonikaParser BufferFacts ParserFacts.

(** C5: a packet whose codec id byte (the ninth byte) is neither 0x08 nor
    0x8E makes [parseAVLData] return [null], whatever the rest of the packet
    holds. *)
Theorem parseAVLData_unknown_codec (fuel : nat) (buffer : list byte) (codec : byte) :
  buffer !! 8%nat = Some codec → u8 codec ≠ 8 → u8 codec ≠ 142 →
  parseAVLData fuel buffer = Ret None.
Proof. apply parseAVLData_unsupported. Qed.

Lemma parseAVLData_unknown_codec_witness :
  Samples.unknown_codec_packet !! 8%nat = Some x07 ∧ u8 x07 ≠ 8 ∧ u8 x07 ≠ 142 ∧
  parseAVLData enough_fuel Samples.unknown_codec_packet = Ret None.
Proof.
  assert (u8 x07 ≠ 8) as H8 by (vm_compute; discriminate).
  assert (u8 x07 ≠ 142) as H142 by (vm_compute; discriminate).
  split_and!; [reflexivity|exact H8|exact H142|].
  exact (parseAVLData_unknown_codec enough_fuel Samples.unknown_codec_packet x07
           eq_refl H8 H142).
Defined.

Lemma parseAVLData_loop_bound fuel buffer codec count offset final :
  0 ≤ count →
  parseAVLData_loop fuel buffer codec count offset = Ret final →
  Z.of_nat (length (avl_records final)) ≤ count.
Proof.
  intros Hc Hloop. unfold parseAVLData_loop in Hloop.
  apply (while_loop_invariant _ _
           (λ s, Z.of_nat (length (avl_records s)) ≤ avl_i s ≤ count)) in Hloop.
  - lia.
  - intros s s' Hcond%Z.ltb_lt [H1 H2]. unfold parseAVLData_body.
    destruct (parseAVLRecord _ _ _ _) as [[[d o]|]| |]; simpl; try done;
      intros [= <-]; simpl; rewrite ?length_app; simpl; lia.
  - simpl. lia.
Qed.

Lemma parseAVLData_shape (fuel : nat) (buffer : list byte) :
  (enough_fuel ≤ fuel)%nat →
  match parseAVLData fuel buffer with
  | Ret (Some r) =>
      ∃ codec count : byte,
        buffer !! 8%nat = Some codec ∧ buffer !! 9%nat = Some count ∧
        (u8 codec = 8 ∨ u8 codec = 142) ∧
        codecID r = u8 codec ∧ numberOfRecords r = u8 count ∧
        Z.of_nat (length (records r)) ≤ numberOfRecords r
  | Ret None =>
      (length buffer < 10)%nat ∨
      ∃ codec : byte, buffer !! 8%nat = Some codec ∧ u8 codec ≠ 8 ∧ u8 codec ≠ 142
  | Throw _ | Timeout => False
  end.
Proof.
  intros Hfuel.
  destruct (decide (length buffer < 10)%nat) as [Hshort|Hlong].
  { rewrite parseAVLData_short by done. by left. }
  destruct (lookup_lt_is_Some_2 buffer 8 ltac:(lia)) as [codec Hc].
  destruct (lookup_lt_is_Some_2 buffer 9 ltac:(lia)) as [count Hn].
  rewrite (parseAVLData_codec _ _ _ Hc).
  destruct (u8 codec =? 8) eqn:H8; destruct (u8 codec =? 142) eqn:H142; simpl;
    rewrite ?Z.eqb_eq, ?Z.eqb_neq in *;
    try (right; exists codec; by split_and!).
  all: pose proof (readUInt8_lookup buffer 9 count Hn) as H9;
    change (Z.of_nat 9) with 9 in H9; rewrite H9; simpl.
  all: pose proof (u8_range count) as Hr.
  all: rewrite parseAVLData_loop_iterate by (done || lia).
  all: destruct (iterate_Ret (parseAVLData_body fuel buffer (u8 codec))
                   (Z.to_nat (u8 count))
                   {| avl_i := 0; avl_offset := 10; avl_records := [] |}
                   (λ s, parseAVLData_body_Ret _ _ _ s Hfuel)) as [final Hf].
  all: rewrite Hf; simpl.
  all: exists codec, count; split_and!; try done; try tauto.
  all: apply (parseAVLData_loop_bound fuel buffer (u8 codec) (u8 count) 10); [lia|].
  all: by rewrite parseAVLData_loop_iterate by (done || lia).
Qed.

Lemma parseAVLData_body_stuck fuel buffer codec (s : avl_loop) k :
  parseAVLRecord fuel buffer (avl_offset s) codec = Ret None →
  ∃ final, iterate k (parseAVLData_body fuel buffer codec) s = Ret final ∧
           avl_records final = avl_records s.
Proof.
  revert s. induction k as [|k IH]; intros s Hfail.
  - simpl. eauto.
  - cbn [iterate]. rewrite (parseAVLData_body_skip fuel buffer codec s Hfail). simpl.
    destruct (IH {| avl_i := avl_i s + 1; avl_offset := avl_offset s;
                    avl_records := avl_records s |} Hfail) as (final & -> & Hrec).
    eauto.
Qed.

(** The record loop collects the records up to the first one that fails. *)
Lemma iterate_decoded_until_failure fuel buffer codec k :
  (enough_fuel ≤ fuel)%nat →
  ∀ s, ∃ final,
    iterate k (parseAVLData_body fuel buffer codec) s = Ret final ∧
    avl_records final =
      avl_records s ++ Wire.decoded_until_failure fuel buffer codec (avl_offset s) k.
Proof.
  intros Hfuel. induction k as [|k IH]; intros s.
  - simpl. exists s. by rewrite app_nil_r.
  - destruct (parseAVLRecord_Ret fuel buffer (avl_offset s) codec Hfuel) as [[[d o]|] Hrec].
    + assert (parseAVLData_body fuel buffer codec s =
                Ret {| avl_i := avl_i s + 1; avl_offset := o;
                       avl_records := avl_records s ++ [d] |}) as Hbody.
      { unfold parseAVLData_body. by rewrite Hrec. }
      cbn [iterate Wire.decoded_until_failure]. rewrite Hbody, Hrec. simpl.
      destruct (IH {| avl_i := avl_i s + 1; avl_offset := o;
                      avl_records := avl_records s ++ [d] |}) as (final & -> & Hf).
      exists final. split; [done|]. rewrite Hf. simpl. by rewrite <- app_assoc.
    + destruct (parseAVLData_body_stuck fuel buffer codec s (Datatypes.S k) Hrec)
        as (final & Hit & Hf).
      exists final. split; [done|]. cbn [Wire.decoded_until_failure]. rewrite Hrec.
      by rewrite app_nil_r.
Qed.

Lemma parseAVLData_decoded (fuel : nat) (buffer : list byte) :
  (enough_fuel ≤ fuel)%nat →
  match parseAVLData fuel buffer with
  | Ret (Some r) =>
      ∃ codec count : byte,
        buffer !! 8%nat = Some codec ∧ buffer !! 9%nat = Some count ∧
        (u8 codec = 8 ∨ u8 codec = 142) ∧
        codecID r = u8 codec ∧ numberOfRecords r = u8 count ∧
        records r =
          Wire.decoded_until_failure fuel buffer (u8 codec) 10 (Z.to_nat (u8 count)) ∧
        Z.of_nat (length (records r)) ≤ numberOfRecords r
  | Ret None =>
      (length buffer < 10)%nat ∨
      ∃ codec : byte, buffer !! 8%nat = Some codec ∧ u8 codec ≠ 8 ∧ u8 codec ≠ 142
  | Throw _ | Timeout => False
  end.
Proof.
  intros Hfuel. pose proof (parseAVLData_shape fuel buffer Hfuel) as Hshape.
  destruct (parseAVLData fuel buffer) as [[r|]| |] eqn:Hparse; try done.
  destruct Hshape as (codec & count & Hc & Hn & Hcodec & Hid & Hnum & Hlen).
  exists codec, count. split_and!; try done.
  rewrite (parseAVLData_codec _ _ _ Hc) in Hparse.
  assert (negb (u8 codec =? 8) && negb (u8 codec =? 142) = false) as Hsup.
  { destruct Hcodec as [-> | ->]; reflexivity. }
  rewrite Hsup in Hparse.
  pose proof (readUInt8_lookup buffer 9 count Hn) as H9.
  change (Z.of_nat 9) with 9 in H9. rewrite H9 in Hparse. simpl in Hparse.
  pose proof (u8_range count) as Hr.
  rewrite parseAVLData_loop_iterate in Hparse by (done || lia).
  destruct (iterate_decoded_until_failure fuel buffer (u8 codec) (Z.to_nat (u8 count)) Hfuel
              {| avl_i := 0; avl_offset := 10; avl_records := [] |}) as (final & Hit & Hf).
  rewrite Hit in Hparse. simpl in Hparse. injection Hparse as <-. exact Hf.
Qed.

(** C1: [parseAVLData] returns [null] only for a buffer too short to hold the
    10-byte header or with an unsupported codec id. A record that fails to
    decode does not fail the packet: every other buffer decodes,
    [numberOfRecords] is the declared count, and [records] holds exactly the
    records decoded one after the other from offset 10 on, up to the first
    one that fails to decode and none after it, at most the declared count
    of them. *)
Theorem parseAVLData_decodes_until_failure (buffer : list byte) :
  match parseAVLData enough_fuel buffer with
  | Ret (Some r) =>
      ∃ codec count : byte,
        buffer !! 8%nat = Some codec ∧ buffer !! 9%nat = Some count ∧
        (u8 codec = 8 ∨ u8 codec = 142) ∧
        codecID r = u8 codec ∧ numberOfRecords r = u8 count ∧
        records r =
          Wire.decoded_until_failure enough_fuel buffer (u8 codec) 10
            (Z.to_nat (u8 count)) ∧
        Z.of_nat (length (records r)) ≤ numberOfRecords r
  | Ret None =>
      (length buffer < 10)%nat ∨
      ∃ codec : byte, buffer !! 8%nat = Some codec ∧ u8 codec ≠ 8 ∧ u8 codec ≠ 142
  | Throw _ | Timeout => False
  end.
Proof. exact (parseAVLData_decoded enough_fuel buffer (Nat.le_refl enough_fuel)). Qed.

(** Two records are declared and the second one is cut short: the packet
    still decodes, to the first record alone. *)
Lemma parseAVLData_partial_packet :
  parseAVLRecord enough_fuel Samples.truncated_packet 42 8 = Ret None ∧
  ∃ r, parseAVLData enough_fuel Samples.truncated_packet = Ret (Some r) ∧
       numberOfRecords r = 2 ∧ records r = [Samples.decoded_record] ∧
       Z.of_nat (length (records r)) ≠ numberOfRecords r.
Proof.
  split; [vm_compute; reflexivity|].
  exists {| codecID := 8; numberOfRecords := 2; records := [Samples.decoded_record] |}.
  split_and!; [vm_compute; reflexivity|done|done|simpl; lia].
Qed.

(** C10: given fuel for 65536 turns, [parseAVLData] returns on every buffer.
    The record loop makes exactly as many turns as the count byte says, at
    most 255: after [k] turns the index is [k], and the loop ends after
    [count] turns. A turn whose record fails to decode leaves the offset and
    the records as they were and still advances the index. *)
Theorem parseAVLData_terminates (fuel : nat) (buffer : list byte) :
  (enough_fuel ≤ fuel)%nat →
  (∃ r, parseAVLData fuel buffer = Ret r) ∧
  (∀ codec count : byte,
     buffer !! 8%nat = Some codec → buffer !! 9%nat = Some count →
     u8 codec = 8 ∨ u8 codec = 142 →
     let body := parseAVLData_body fuel buffer (u8 codec) in
     let init := {| avl_i := 0; avl_offset := 10; avl_records := [] |} in
     u8 count ≤ 255 ∧
     (∀ k, (k ≤ Z.to_nat (u8 count))%nat →
        ∃ s, iterate k body init = Ret s ∧ avl_i s = Z.of_nat k) ∧
     ∃ final,
       parseAVLData_loop fuel buffer (u8 codec) (u8 count) 10 = Ret final ∧
       iterate (Z.to_nat (u8 count)) body init = Ret final ∧
       avl_i final = u8 count ∧
       parseAVLData fuel buffer =
         Ret (Some {| codecID := u8 codec; numberOfRecords := u8 count;
                      records := avl_records final |})) ∧
  (∀ codec s,
     parseAVLRecord fuel buffer (avl_offset s) codec = Ret None →
     parseAVLData_body fuel buffer codec s =
       Ret {| avl_i := avl_i s + 1; avl_offset := avl_offset s;
              avl_records := avl_records s |}).
Proof.
  intros Hfuel.
  assert (∀ codec count : byte,
     buffer !! 8%nat = Some codec → buffer !! 9%nat = Some count →
     u8 codec = 8 ∨ u8 codec = 142 →
     let body := parseAVLData_body fuel buffer (u8 codec) in
     let init := {| avl_i := 0; avl_offset := 10; avl_records := [] |} in
     u8 count ≤ 255 ∧
     (∀ k, (k ≤ Z.to_nat (u8 count))%nat →
        ∃ s, iterate k body init = Ret s ∧ avl_i s = Z.of_nat k) ∧
     ∃ final,
       parseAVLData_loop fuel buffer (u8 codec) (u8 count) 10 = Ret final ∧
       iterate (Z.to_nat (u8 count)) body init = Ret final ∧
       avl_i final = u8 count ∧
       parseAVLData fuel buffer =
         Ret (Some {| codecID := u8 codec; numberOfRecords := u8 count;
                      records := avl_records final |})) as Hloop.
  { intros codec count Hc Hn Hsup body init.
    pose proof (u8_range count) as Hr.
    assert (∀ k, ∃ s, iterate k body init = Ret s ∧ avl_i s = Z.of_nat k) as Hk.
    { intros k.
      destruct (iterate_Ret body k init
                  (λ s, parseAVLData_body_Ret _ _ _ s Hfuel)) as [s Hs].
      exists s. split; [done|].
      by rewrite (iterate_idx avl_i body (parseAVLData_body_counts fuel buffer (u8 codec))
                    _ _ _ Hs). }
    split; [lia|]. split; [intros k _; apply Hk|].
    destruct (Hk (Z.to_nat (u8 count))) as (final & Hf & Hi).
    exists final. rewrite parseAVLData_loop_iterate by (done || lia).
    split_and!; try done; [lia|].
    rewrite (parseAVLData_codec _ _ _ Hc).
    replace (negb (u8 codec =? 8) && negb (u8 codec =? 142)) with false.
    2:{ destruct Hsup as [-> | ->]; reflexivity. }
    pose proof (readUInt8_lookup buffer 9 count Hn) as H9.
    change (Z.of_nat 9) with 9 in H9. rewrite H9. simpl.
    rewrite parseAVLData_loop_iterate by (done || lia).
    fold body init. by rewrite Hf. }
  split_and!; [|exact Hloop|intros codec s; apply parseAVLData_body_skip].
  destruct (decide (length buffer < 10)%nat) as [Hshort|Hlong].
  { rewrite parseAVLData_short by done. eauto. }
  destruct (lookup_lt_is_Some_2 buffer 8 ltac:(lia)) as [codec Hc].
  destruct (lookup_lt_is_Some_2 buffer 9 ltac:(lia)) as [count Hn].
  destruct (decide (u8 codec = 8 ∨ u8 codec = 142)) as [Hsup|Hno].
  - destruct (Hloop codec count Hc Hn Hsup) as (_ & _ & final & _ & _ & _ & ->). eauto.
  - rewrite (parseAVLData_unsupported fuel buffer codec Hc); [eauto|tauto..].
Qed.

Lemma parseAVLData_terminates_witness :
  (enough_fuel ≤ enough_fuel)%nat ∧
  ∃ r, parseAVLData enough_fuel Samples.truncated_packet = Ret r.
Proof.
  split; [exact (Nat.le_refl enough_fuel)|].
  exact (proj1 (parseAVLData_terminates enough_fuel Samples.truncated_packet
                  (Nat.le_refl enough_fuel))).
Defined.

End PacketFacts.

(** ** 8-byte IO values *)

Module NumberFacts.
Import Buffer JS TeltonikaParser BufferFacts ParserFacts.

Lemma Number_of_BigInt_exact v : v ≤ 2 ^ 53 → Number_of_BigInt v = v.
Proof.
  intros Hv. destruct (decide (v = 2 ^ 53)) as [->|Hne]; [by vm_compute|].
  unfold Number_of_BigInt. by rewrite (proj2 (Z.ltb_lt _ _)) by lia.
Qed.

Lemma Number_of_BigInt_near v :
  0 ≤ v < 2 ^ 64 → Z.abs (Number_of_BigInt v - v) ≤ 1024.
Proof.
  intros Hv. unfold Number_of_BigInt.
  destruct (v <? 2 ^ 53) eqn:Hsmall; [lia|]. apply Z.ltb_ge in Hsmall.
  assert (53 ≤ Z.log2 v) as Hlo by (apply Z.log2_le_pow2; lia).
  assert (Z.log2 v < 64) as Hhi by (apply Z.log2_lt_pow2; lia).
  set (e := Z.log2 v - 52). assert (1 ≤ e ≤ 11) as He by (unfold e; lia).
  assert (2 ^ e = 2 * 2 ^ (e - 1)) as Hp.
  { rewrite <- Z.pow_succ_r by lia. f_equal. lia. }
  assert (0 < 2 ^ (e - 1) ≤ 1024) as Hhalf.
  { split; [apply Z.pow_pos_nonneg; lia|].
    change 1024 with (2 ^ 10). apply Z.pow_le_mono_r; lia. }
  set (half := 2 ^ (e - 1)) in *.
  pose proof (Z.div_mod v (2 ^ e) ltac:(lia)) as Hdm.
  pose proof (Z.mod_pos_bound v (2 ^ e) ltac:(lia)) as Hr.
  set (q := v `div` 2 ^ e) in *. set (r := v `mod` 2 ^ e) in *.
  destruct ((half <? r) || ((r =? half) && Z.odd q)) eqn:Hup.
  - assert (half ≤ r) as Hge.
    { apply orb_true_iff in Hup as [H%Z.ltb_lt|H]; [lia|].
      apply andb_true_iff in H as [H%Z.eqb_eq _]. lia. }
    nia.
  - apply orb_false_iff in Hup as [H%Z.ltb_ge _]. nia.
Qed.

Example Number_of_BigInt_rounds :
  Number_of_BigInt (2 ^ 53 + 1) = 2 ^ 53 ∧ Number_of_BigInt (2 ^ 53 + 3) = 2 ^ 53 + 4 ∧
  Number_of_BigInt (2 ^ 64 - 1) = 2 ^ 64.
Proof. by vm_compute. Qed.

Lemma parseIOElements_body_W8 buffer codec s s' :
  parseIOElements_body buffer W8 codec s = Ret s' →
  ∃ ioID wire,
    read_id buffer (io_offset s) codec = Ret ioID ∧
    readBigUInt64BE buffer (io_offset s + id_width codec) = Ret wire ∧
    io_offset s' = io_offset s + id_width codec + 8 ∧
    io_data s' = <[io_key ioID := Number_of_BigInt wire]> (io_data s).
Proof.
  unfold parseIOElements_body.
  destruct (read_id _ _ _) as [ioID| |]; simpl; try done.
  destruct (readBigUInt64BE _ _) as [wire| |]; simpl; try done.
  intros [= <-]. exists ioID, wire. by split_and!.
Qed.

Lemma id_width_pos codec : 1 ≤ id_width codec ≤ 2.
Proof. unfold id_width. destruct (_ =? _); lia. Qed.

(** Every value that [parseIOElements] stores for the 8-byte sub-group is
    [Number] of the integer of some entry with that key. *)
Lemma parseIOElements_W8_values (fuel : nat) (buffer : list byte) (offset codec : Z)
    (data : gmap string Z) (newOffset : Z) :
  parseIOElements fuel buffer offset W8 codec = Ret (data, newOffset) →
  ∀ key value, data !! key = Some value →
    ∃ pos ioID wire,
      offset + id_width codec ≤ pos ∧ pos + id_width codec + 8 ≤ newOffset ∧
      read_id buffer pos codec = Ret ioID ∧ key = io_key ioID ∧
      readBigUInt64BE buffer (pos + id_width codec) = Ret wire ∧
      value = Number_of_BigInt wire ∧
      (wire ≤ 2 ^ 53 → value = wire) ∧
      Z.abs (value - wire) ≤ 1024.
Proof.
  unfold parseIOElements.
  destruct (read_id buffer offset codec) as [count| |]; simpl; try done.
  destruct (while_loop _ _ _ _) as [final| |] eqn:Hloop; simpl; try done.
  intros [= <- <-].
  apply (while_loop_invariant _ _
    (λ s, offset + id_width codec ≤ io_offset s ∧
          ∀ key value, io_data s !! key = Some value →
            ∃ pos ioID wire,
              offset + id_width codec ≤ pos ∧ pos + id_width codec + 8 ≤ io_offset s ∧
              read_id buffer pos codec = Ret ioID ∧ key = io_key ioID ∧
              readBigUInt64BE buffer (pos + id_width codec) = Ret wire ∧
              value = Number_of_BigInt wire ∧
              (wire ≤ 2 ^ 53 → value = wire) ∧
              Z.abs (value - wire) ≤ 1024)) in Hloop.
  - by destruct Hloop as [[_ H] _].
  - intros s s' _ [Hoff Hinv] Hbody.
    apply parseIOElements_body_W8 in Hbody as (ioID & wire & Hid & Hw & Ho & Hd).
    pose proof (id_width_pos codec).
    split; [lia|]. intros key value. rewrite Hd, lookup_insert.
    case_decide as Hk.
    + intros [= <-]. exists (io_offset s), ioID, wire.
      split_and!; try done; try lia.
      * apply Number_of_BigInt_exact.
      * apply Number_of_BigInt_near.
        apply readUIntBE_Ret in Hw as (_ & _ & _ & Hr). simpl in Hr. lia.
    + intros Hl. destruct (Hinv key value Hl) as (pos & i & w & ? & ? & ?).
      exists pos, i, w. split_and!; try tauto; lia.
  - simpl. split; [lia|]. intros key value. by rewrite lookup_empty.
Qed.

Lemma parseIOElement_inv fuel buffer offset codec io :
  parseIOElement fuel buffer offset codec = Ret io →
  ∃ off8 data8 earlier,
    parseIOElements fuel buffer off8 W8 codec = Ret (data8, io_result_newOffset io) ∧
    io_result_data io = data8 ∪ earlier.
Proof.
  unfold parseIOElement.
  destruct (read_id buffer offset codec) as [ev| |]; simpl; try done.
  destruct (read_id buffer _ codec) as [tot| |]; simpl; try done.
  destruct (parseIOElements fuel buffer _ W1 codec) as [[d1 o1]| |]; simpl; try done.
  destruct (parseIOElements fuel buffer o1 W2 codec) as [[d2 o2]| |]; simpl; try done.
  destruct (parseIOElements fuel buffer o2 W4 codec) as [[d4 o4]| |]; simpl; try done.
  destruct (parseIOElements fuel buffer o4 W8 codec) as [[d8 o8]| |] eqn:H8; simpl; try done.
  intros [= <-]. simpl. exists o4, d8. eexists. split; [exact H8|reflexivity].
Qed.

Lemma parseAVLRecord_inv fuel buffer offset codec rec newOffset :
  parseAVLRecord fuel buffer offset codec = Ret (Some (rec, newOffset)) →
  ∃ off io,
    parseIOElement fuel buffer off codec = Ret io ∧
    io_elements rec = io_result_data io ∧ newOffset = io_result_newOffset io.
Proof.
  unfold parseAVLRecord.
  destruct (readBigUInt64BE buffer offset) as [ts| |]; simpl; try done.
  destruct (Date_toISOString _) as [iso| |]; simpl; try done.
  destruct (readUInt8 buffer _) as [p| |]; simpl; try done.
  destruct (parseGPSElement buffer _) as [[gps off]| |]; simpl; try done.
  destruct (parseIOElement fuel buffer off codec) as [io| |] eqn:Hio; simpl; try done.
  intros [= <- <-]. exists off, io. done.
Qed.

(** C2: for every 8-byte IO element of a decoded record, the value stored in
    the record's [io_elements] is [Number] of the unsigned 64-bit big-endian
    integer of an entry of the 8-byte sub-group with that key: the integer
    itself when it is at most 2^53, and otherwise the nearest double, which
    is off by at most 1024. *)
Theorem record_u64_values (fuel : nat) (buffer : list byte) (offset codec : Z)
    (rec : AVLRecord) (newOffset : Z) :
  parseAVLRecord fuel buffer offset codec = Ret (Some (rec, newOffset)) →
  ∃ off8 data8,
    parseIOElements fuel buffer off8 W8 codec = Ret (data8, newOffset) ∧
    ∀ key value, data8 !! key = Some value →
      io_elements rec !! key = Some value ∧
      ∃ pos ioID wire,
        off8 + id_width codec ≤ pos ∧ pos + id_width codec + 8 ≤ newOffset ∧
        read_id buffer pos codec = Ret ioID ∧ key = io_key ioID ∧
        readBigUInt64BE buffer (pos + id_width codec) = Ret wire ∧
        value = Number_of_BigInt wire ∧
        (wire ≤ 2 ^ 53 → value = wire) ∧
        Z.abs (value - wire) ≤ 1024.
Proof.
  intros (off & io & Hio & Hdata & ->)%parseAVLRecord_inv.
  apply parseIOElement_inv in Hio as (off8 & data8 & earlier & H8 & Hunion).
  exists off8, data8. split; [done|]. intros key value Hkey. split.
  - rewrite Hdata, Hunion. by apply lookup_union_Some_l.
  - by apply (parseIOElements_W8_values fuel buffer off8 codec data8 _ H8).
Qed.

Lemma record_u64_values_witness :
  parseAVLRecord enough_fuel Samples.big_packet 10 8 = Ret (Some (Samples.big_record, 49)) ∧
  ∃ off8 data8,
    parseIOElements enough_fuel Samples.big_packet off8 W8 8 = Ret (data8, 49) ∧
    ∀ key value, data8 !! key = Some value →
      io_elements Samples.big_record !! key = Some value ∧
      ∃ pos ioID wire,
        off8 + id_width 8 ≤ pos ∧ pos + id_width 8 + 8 ≤ 49 ∧
        read_id Samples.big_packet pos 8 = Ret ioID ∧ key = io_key ioID ∧
        readBigUInt64BE Samples.big_packet (pos + id_width 8) = Ret wire ∧
        value = Number_of_BigInt wire ∧
        (wire ≤ 2 ^ 53 → value = wire) ∧
        Z.abs (value - wire) ≤ 1024.
Proof.
  assert (parseAVLRecord enough_fuel Samples.big_packet 10 8 =
            Ret (Some (Samples.big_record, 49))) as H by (vm_compute; reflexivity).
  split; [exact H|].
  exact (record_u64_values enough_fuel Samples.big_packet 10 8 Samples.big_record 49 H).
Defined.

(** The value 2^53 + 1 of an 8-byte element comes out as 2^53. *)
Lemma parseAVLData_rounds_u64 :
  parseAVLData enough_fuel Samples.big_packet =
    Ret (Some {| codecID := 8; numberOfRecords := 1; records := [Samples.big_record] |}) ∧
  readBigUInt64BE Samples.big_packet 41 = Ret 9007199254740993 ∧
  io_elements Samples.big_record !! "io_7"%string = Some 9007199254740992 ∧
  io_elements Samples.big_record !! "io_7"%string ≠ Some 9007199254740993.
Proof.
  split_and!.
  - vm_compute. reflexivity.
  - vm_compute. reflexivity.
  - vm_compute. reflexivity.
  - vm_compute. discriminate.
Qed.

End NumberFacts.

(** ** Decoding what a device encodes *)

Module WireFacts.
Import Buffer JS TeltonikaParser BufferFacts ParserFacts Wire.

Lemma has_at_middle (pre bs suf : list byte) :
  has_at (pre ++ bs ++ suf) (Z.of_nat (length pre)) bs.
Proof.
  split; [lia|]. exists suf. by rewrite Nat2Z.id, drop_app_length.
Qed.

Lemma has_at_split buffer offset (pre bs suf : list byte) :
  buffer = pre ++ bs ++ suf → offset = Z.of_nat (length pre) → has_at buffer offset bs.
Proof. intros -> ->. apply has_at_middle. Qed.

Lemma has_at_app_l buffer offset a b :
  has_at buffer offset (a ++ b) → has_at buffer offset a.
Proof. intros [H0 [suf H]]. split; [done|]. exists (b ++ suf). by rewrite H, <- app_assoc. Qed.

Lemma has_at_app_r buffer offset a b :
  has_at buffer offset (a ++ b) → has_at buffer (offset + Z.of_nat (length a)) b.
Proof.
  intros [H0 [suf H]]. split; [lia|]. exists suf.
  rewrite Z2Nat.inj_add, Nat2Z.id by lia.
  rewrite <- drop_drop, H, <- app_assoc. apply drop_app_length.
Qed.

Lemma readUIntBE_has_at n buffer offset bs :
  has_at buffer offset bs → length bs = Datatypes.S n →
  readUIntBE (Datatypes.S n) buffer offset = Ret (be_value 0 bs).
Proof.
  intros [H0 [suf H]] Hlen.
  assert (length (drop (Z.to_nat offset) buffer) = length (bs ++ suf)) as Hl by by rewrite H.
  rewrite length_drop, length_app in Hl.
  rewrite readUIntBE_in_range by lia.
  by rewrite H, take_app_length'.
Qed.

Lemma readUIntBE_within n buffer offset bs k :
  has_at buffer offset bs → 0 ≤ k → k + Z.of_nat (Datatypes.S n) ≤ Z.of_nat (length bs) →
  readUIntBE (Datatypes.S n) buffer (offset + k) = readUIntBE (Datatypes.S n) bs k.
Proof.
  intros Hat Hk Hle.
  set (mid := take (Datatypes.S n) (drop (Z.to_nat k) bs)).
  assert (length mid = Datatypes.S n) as Hmid.
  { unfold mid. rewrite length_take, length_drop. lia. }
  assert (bs = take (Z.to_nat k) bs ++ mid ++ drop (Datatypes.S n) (drop (Z.to_nat k) bs)) as Hbs.
  { unfold mid. by rewrite take_drop, take_drop. }
  assert (length (take (Z.to_nat k) bs) = Z.to_nat k) as Hpre.
  { rewrite length_take. lia. }
  rewrite (readUIntBE_has_at n buffer (offset + k) mid); [|..|done].
  - symmetry. apply readUIntBE_has_at; [|done].
    eapply has_at_split; [exact Hbs|lia].
  - rewrite Hbs in Hat. apply has_at_app_r in Hat. rewrite Hpre, Z2Nat.id in Hat by lia.
    by apply has_at_app_l in Hat.
Qed.

Lemma u8_byte_of_Z v : u8 (byte_of_Z v) = v `mod` 256.
Proof.
  unfold u8, byte_of_Z.
  pose proof (Z.mod_pos_bound v 256 ltac:(lia)) as Hb.
  destruct (Byte.of_N (Z.to_N (v `mod` 256))) as [b|] eqn:Hof.
  - simpl. apply Byte.to_of_N in Hof. rewrite Hof. lia.
  - apply Byte.of_N_None_iff in Hof. lia.
Qed.

Lemma length_encode_be n v : length (encode_be n v) = n.
Proof. induction n; simpl; congruence. Qed.

Lemma be_value_encode_be n v acc :
  be_value acc (encode_be n v) = acc * 256 ^ Z.of_nat n + v `mod` 256 ^ Z.of_nat n.
Proof.
  revert acc. induction n as [|n IH]; intros acc.
  - simpl. rewrite Z.mod_1_r. lia.
  - cbn [encode_be be_value]. rewrite IH, u8_byte_of_Z.
    rewrite Nat2Z.inj_succ, Z.pow_succ_r by lia.
    assert (0 < 256 ^ Z.of_nat n) as Hp by (apply Z.pow_pos_nonneg; lia).
    rewrite (Z.mul_comm 256 (256 ^ Z.of_nat n)).
    rewrite (Z.rem_mul_r v (256 ^ Z.of_nat n) 256) by lia.
    lia.
Qed.

(** A number that fits is read back from its encoding. *)
Lemma be_value_encode n v : fits n v → be_value 0 (encode_be n v) = v.
Proof.
  intros Hv. rewrite be_value_encode_be. unfold fits in Hv.
  rewrite Z.mod_small by lia. lia.
Qed.

Lemma readUIntBE_encoded n buffer offset v :
  has_at buffer offset (encode_be (Datatypes.S n) v) → fits (Datatypes.S n) v →
  readUIntBE (Datatypes.S n) buffer offset = Ret v.
Proof.
  intros Hat Hv. rewrite (readUIntBE_has_at n buffer offset _ Hat (length_encode_be _ _)).
  by rewrite be_value_encode.
Qed.

Lemma id_width_idw codec : id_width codec = Z.of_nat (idw_of codec).
Proof. unfold id_width, idw_of. by destruct (_ =? _). Qed.

Lemma read_id_encoded buffer offset codec v :
  has_at buffer offset (encode_be (idw_of codec) v) → fits (idw_of codec) v →
  read_id buffer offset codec = Ret v.
Proof.
  unfold read_id, idw_of, readUInt16BE, readUInt8.
  destruct (_ =? _); apply readUIntBE_encoded.
Qed.

Lemma parseIOElements_body_encoded buffer w codec s e :
  has_at buffer (io_offset s) (encode_entry (idw_of codec) (vw_of w) e) →
  fits (idw_of codec) (fst e) → fits (vw_of w) (snd e) →
  parseIOElements_body buffer w codec s =
    Ret {| io_i := io_i s + 1;
           io_offset := io_offset s + Z.of_nat (length (encode_entry (idw_of codec) (vw_of w) e));
           io_data := <[io_key (fst e) := js_value w (snd e)]> (io_data s) |}.
Proof.
  intros Hat Hid Hv. unfold parseIOElements_body, encode_entry in *.
  rewrite (read_id_encoded buffer (io_offset s) codec (fst e)); [|by eapply has_at_app_l|done].
  simpl. apply has_at_app_r in Hat. rewrite length_encode_be, <- id_width_idw in Hat.
  rewrite length_app, !length_encode_be, Nat2Z.inj_add, <- id_width_idw.
  unfold readUInt8, readUInt16BE, readUInt32BE, readBigUInt64BE.
  destruct w; simpl in *;
    rewrite (readUIntBE_encoded _ buffer _ (snd e) Hat Hv); simpl.
  all: do 2 f_equal; cbv [vw_of byteLength_of]; lia.
Qed.

Lemma parseIOElements_loop_encoded buffer w codec (g : list (Z * Z)) :
  Forall (λ e, fits (idw_of codec) (fst e) ∧ fits (vw_of w) (snd e)) g →
  ∀ fuel s,
    (length g ≤ fuel)%nat →
    has_at buffer (io_offset s) (flat_map (encode_entry (idw_of codec) (vw_of w)) g) →
    while_loop fuel (λ s', io_i s' <? io_i s + Z.of_nat (length g))
      (parseIOElements_body buffer w codec) s =
    Ret {| io_i := io_i s + Z.of_nat (length g);
           io_offset := io_offset s +
             Z.of_nat (length (flat_map (encode_entry (idw_of codec) (vw_of w)) g));
           io_data := foldl (λ m e, <[io_key (fst e) := js_value w (snd e)]> m) (io_data s) g |}.
Proof.
  induction 1 as [|e g [Hid Hv] _ IH]; intros fuel s Hfuel Hat.
  - simpl. destruct fuel; simpl; rewrite !Z.add_0_r, Z.ltb_irrefl; by destruct s.
  - destruct fuel as [|fuel]; [simpl in Hfuel; lia|].
    cbn [while_loop]. rewrite (proj2 (Z.ltb_lt _ _)) by (simpl; lia).
    cbn [flat_map] in Hat.
    rewrite (parseIOElements_body_encoded buffer w codec s e); [|by eapply has_at_app_l|done..].
    simpl mbind. apply has_at_app_r in Hat.
    set (s1 := {| io_i := io_i s + 1; io_offset := _; io_data := _ |}) in *.
    specialize (IH fuel s1 ltac:(simpl in Hfuel; lia) Hat).
    replace (io_i s + Z.of_nat (length (e :: g))) with (io_i s1 + Z.of_nat (length g))
      by (simpl; lia).
    replace (io_i s + Z.of_nat (Datatypes.S (length g))) with (io_i s1 + Z.of_nat (length g))
      by (simpl; lia).
    rewrite IH. simpl. f_equal. f_equal.
    rewrite length_app. lia.
Qed.

Lemma parseIOElements_encoded fuel buffer offset w codec g :
  (enough_fuel ≤ fuel)%nat →
  has_at buffer offset (encode_group (idw_of codec) (vw_of w) g) →
  group_fits (idw_of codec) (vw_of w) g →
  parseIOElements fuel buffer offset w codec =
    Ret (group_map w g,
         offset + Z.of_nat (length (encode_group (idw_of codec) (vw_of w) g))).
Proof.
  intros Hfuel Hat [Hn Hg]. unfold parseIOElements, encode_group in *.
  rewrite (read_id_encoded buffer offset codec (Z.of_nat (length g)));
    [|by eapply has_at_app_l|done].
  simpl mbind. apply has_at_app_r in Hat. rewrite length_encode_be, <- id_width_idw in Hat.
  pose proof (parseIOElements_loop_encoded buffer w codec g Hg fuel
    {| io_i := 0; io_offset := offset + id_width codec; io_data := ∅ |}) as Hloop.
  cbn [io_i io_offset io_data] in Hloop. rewrite !Z.add_0_l in Hloop.
  rewrite Hloop; [|..|done].
  - simpl. unfold group_map. do 2 f_equal.
    rewrite length_app, length_encode_be, Nat2Z.inj_add, <- id_width_idw. lia.
  - unfold enough_fuel in Hfuel. unfold fits in Hn.
    assert (256 ^ Z.of_nat (idw_of codec) ≤ 65536); [|lia].
    unfold idw_of. destruct (_ =? _); simpl; lia.
Qed.

Lemma parseIOElement_encoded fuel buffer offset codec s :
  (enough_fuel ≤ fuel)%nat →
  has_at buffer offset (encode_io (idw_of codec) s) →
  section_fits (idw_of codec) s →
  parseIOElement fuel buffer offset codec =
    Ret {| io_result_data := section_map s; io_result_eventID := eventId s;
           io_result_newOffset :=
             offset + Z.of_nat (length (encode_io (idw_of codec) s)) |}.
Proof.
  intros Hfuel Hat (Hev & Htot & H1 & H2 & H4 & H8).
  unfold parseIOElement, encode_io in *.
  rewrite (read_id_encoded buffer offset codec (eventId s)); [|by eapply has_at_app_l|done].
  simpl mbind. apply has_at_app_r in Hat. rewrite length_encode_be, <- id_width_idw in Hat.
  rewrite (read_id_encoded buffer _ codec (totalElementCount s));
    [|by eapply has_at_app_l|done].
  simpl mbind. apply has_at_app_r in Hat. rewrite length_encode_be, <- id_width_idw in Hat.
  rewrite (parseIOElements_encoded fuel buffer _ W1 codec (group1 s) Hfuel);
    [|by eapply has_at_app_l|done].
  simpl mbind. apply has_at_app_r in Hat.
  rewrite (parseIOElements_encoded fuel buffer _ W2 codec (group2 s) Hfuel);
    [|by eapply has_at_app_l|done].
  simpl mbind. apply has_at_app_r in Hat.
  rewrite (parseIOElements_encoded fuel buffer _ W4 codec (group4 s) Hfuel);
    [|by eapply has_at_app_l|done].
  simpl mbind. apply has_at_app_r in Hat.
  rewrite (parseIOElements_encoded fuel buffer _ W8 codec (group8 s) Hfuel);
    [|eapply has_at_app_l; by rewrite app_nil_r|done].
  simpl mbind. unfold section_map, Object_assign. do 2 f_equal.
  rewrite !length_app, !length_encode_be, !Nat2Z.inj_add, <- id_width_idw.
  change (vw_of W1) with 1%nat. change (vw_of W2) with 2%nat.
  change (vw_of W4) with 4%nat. change (vw_of W8) with 8%nat. lia.
Qed.

End WireFacts.

(** ** Codec 8 and Codec 8 Extended *)

Module CodecFacts.
Import Buffer JS TeltonikaParser BufferFacts ParserFacts Wire WireFacts.

Lemma parseGPSElement_head (head : list byte) :
  length head = 24%nat → ∃ gps, parseGPSElement head 9 = Ret (gps, 24).
Proof.
  intros Hlen. unfold parseGPSElement, readInt32BE, readInt16BE, readUInt16BE, readUInt8.
  rewrite !readUIntBE_in_range by lia. simpl. eauto.
Qed.

Lemma parseGPSElement_within buffer offset head gps :
  has_at buffer offset head → length head = 24%nat →
  parseGPSElement head 9 = Ret (gps, 24) →
  parseGPSElement buffer (offset + 8 + 1) = Ret (gps, offset + 24).
Proof.
  intros Hat Hlen. unfold parseGPSElement, readInt32BE, readInt16BE, readUInt16BE, readUInt8.
  replace (offset + 8 + 1) with (offset + 9) by lia.
  replace (offset + 9 + 4) with (offset + (9 + 4)) by lia.
  replace (offset + (9 + 4) + 4) with (offset + (9 + 4 + 4)) by lia.
  replace (offset + (9 + 4 + 4) + 2) with (offset + (9 + 4 + 4 + 2)) by lia.
  replace (offset + (9 + 4 + 4 + 2) + 2) with (offset + (9 + 4 + 4 + 2 + 2)) by lia.
  replace (offset + (9 + 4 + 4 + 2 + 2) + 1) with (offset + (9 + 4 + 4 + 2 + 2 + 1)) by lia.
  rewrite !(readUIntBE_within _ buffer offset head) by (done || lia).
  rewrite !readUIntBE_in_range by lia. simpl.
  intros [= <-]. do 2 f_equal. lia.
Qed.

Lemma parseAVLRecord_encoded fuel buffer offset codec head s :
  (enough_fuel ≤ fuel)%nat →
  has_at buffer offset (head ++ encode_io (idw_of codec) s) →
  length head = 24%nat → section_fits (idw_of codec) s →
  parseAVLRecord fuel buffer offset codec =
    Ret ((λ data, (data, offset + 24 + Z.of_nat (length (encode_io (idw_of codec) s))))
           <$> record_of head s).
Proof.
  intros Hfuel Hat Hlen Hfits.
  pose proof (has_at_app_l _ _ _ _ Hat) as Hhead.
  apply has_at_app_r in Hat. rewrite Hlen in Hat. change (Z.of_nat 24) with 24 in Hat.
  destruct (parseGPSElement_head head Hlen) as [gps Hgps].
  unfold parseAVLRecord, record_of, readBigUInt64BE, readUInt8.
  rewrite <- (Z.add_0_r offset) at 1.
  rewrite !(readUIntBE_within _ buffer offset head) by (done || lia).
  rewrite (parseGPSElement_within buffer offset head gps Hhead Hlen Hgps), Hgps.
  rewrite !readUIntBE_in_range by lia. simpl.
  destruct (Date_toISOString _) as [iso| |] eqn:Hiso; simpl; try done.
  - by rewrite (parseIOElement_encoded fuel buffer (offset + 24) codec s Hfuel Hat Hfits).
  - by apply Date_toISOString_not_Timeout in Hiso.
Qed.

Lemma section_fits_wider s : section_fits 1 s → section_fits 2 s.
Proof.
  assert (∀ v, fits 1 v → fits 2 v) as Hw.
  { unfold fits. simpl. lia. }
  assert (∀ vw g, group_fits 1 vw g → group_fits 2 vw g) as Hg.
  { intros vw g [H1 H2]. split; [by apply Hw|].
    eapply Forall_impl; [exact H2|]. intros e [? ?]. split; [by apply Hw|done]. }
  intros (? & ? & ? & ? & ? & ?). unfold section_fits. split_and!; auto.
Qed.

Lemma iterate_encoded fuel buffer codec (k : nat) :
  (enough_fuel ≤ fuel)%nat →
  ∀ rs s,
    (k ≤ length rs)%nat →
    Forall (λ r, length (fst r) = 24%nat ∧ section_fits (idw_of codec) (snd r)) rs →
    has_at buffer (avl_offset s) (encode_records (idw_of codec) rs) →
    ∃ final,
      iterate k (parseAVLData_body fuel buffer codec) s = Ret final ∧
      avl_records final = collect k rs (avl_records s).
Proof.
  intros Hfuel. induction k as [|k IH]; intros rs s Hk Hrs Hat.
  - exists s. by destruct rs.
  - destruct rs as [|[head sec] rest]; [simpl in Hk; lia|].
    inversion Hrs as [|? ? [Hlen Hfits] Hrest]; subst. simpl in Hlen, Hfits.
    cbn [encode_records flat_map fst snd] in Hat.
    assert (parseAVLData_body fuel buffer codec s =
      match record_of head sec with
      | Some data =>
          Ret {| avl_i := avl_i s + 1;
                 avl_offset := avl_offset s + 24 +
                               Z.of_nat (length (encode_io (idw_of codec) sec));
                 avl_records := avl_records s ++ [data] |}
      | None =>
          Ret {| avl_i := avl_i s + 1; avl_offset := avl_offset s;
                 avl_records := avl_records s |}
      end) as Hbody.
    { unfold parseAVLData_body.
      rewrite (parseAVLRecord_encoded fuel buffer (avl_offset s) codec head sec Hfuel);
        [|by eapply has_at_app_l|done..].
      by destruct (record_of head sec). }
    cbn [iterate collect fst snd]. rewrite Hbody.
    destruct (record_of head sec) as [data|]; simpl.
    + apply has_at_app_r in Hat.
      apply (IH rest {| avl_i := avl_i s + 1;
                        avl_offset := avl_offset s + 24 +
                                      Z.of_nat (length (encode_io (idw_of codec) sec));
                        avl_records := avl_records s ++ [data] |});
        simpl; [simpl in Hk; lia|done|].
      rewrite length_app in Hat. rewrite Hlen in Hat.
      replace (avl_offset s + 24 + Z.of_nat (length (encode_io (idw_of codec) sec)))
        with (avl_offset s + Z.of_nat (24 + length (encode_io (idw_of codec) sec))) by lia.
      done.
    + apply (IH ((head, sec) :: rest)
                {| avl_i := avl_i s + 1; avl_offset := avl_offset s;
                   avl_records := avl_records s |});
        simpl; [simpl in Hk; lia|done|done].
Qed.

Lemma parseAVLData_encoded fuel pre (c : byte) rs suf :
  (enough_fuel ≤ fuel)%nat → length pre = 8%nat → u8 c = 8 ∨ u8 c = 142 →
  (length rs < 256)%nat →
  Forall (λ r, length (fst r) = 24%nat ∧ section_fits (idw_of (u8 c)) (snd r)) rs →
  parseAVLData fuel (encode_packet pre c (idw_of (u8 c)) rs suf) =
    Ret (Some {| codecID := u8 c; numberOfRecords := Z.of_nat (length rs);
                 records := collect (length rs) rs [] |}).
Proof.
  intros Hfuel Hpre Hc Hn Hrs.
  set (buffer := encode_packet pre c (idw_of (u8 c)) rs suf).
  assert (buffer !! 8%nat = Some c) as H8.
  { unfold buffer, encode_packet. rewrite lookup_app_r by lia. by rewrite Hpre. }
  assert (buffer !! 9%nat = Some (byte_of_Z (Z.of_nat (length rs)))) as H9.
  { unfold buffer, encode_packet. rewrite lookup_app_r by lia. by rewrite Hpre. }
  assert (u8 (byte_of_Z (Z.of_nat (length rs))) = Z.of_nat (length rs)) as Hcount.
  { rewrite u8_byte_of_Z. apply Z.mod_small. lia. }
  rewrite (parseAVLData_codec fuel buffer c H8).
  replace (negb (u8 c =? 8) && negb (u8 c =? 142)) with false
    by (destruct Hc as [-> | ->]; reflexivity).
  pose proof (readUInt8_lookup buffer 9 _ H9) as Hr9.
  change (Z.of_nat 9) with 9 in Hr9. rewrite Hr9, Hcount. simpl.
  rewrite parseAVLData_loop_iterate by (done || lia). rewrite Nat2Z.id.
  destruct (iterate_encoded fuel buffer (u8 c) (length rs) Hfuel rs
              {| avl_i := 0; avl_offset := 10; avl_records := [] |}) as (final & -> & Hf);
    [done|done| |by simpl; rewrite Hf].
  simpl. apply (has_at_split buffer 10 (pre ++ [c; byte_of_Z (Z.of_nat (length rs))]) _ suf).
  - unfold buffer, encode_packet. by rewrite <- !app_assoc.
  - rewrite length_app, Hpre. done.
Qed.

(** C8: a packet of records whose IO sections fit one-byte ids and counts
    decodes to the same records, field by field, whether it is written as
    Codec 8 with one-byte ids and counts or as Codec 8 Extended with two-byte
    ones; the two results differ in [codecID] alone. *)
Theorem codec8_extended_same_fields (fuel : nat)
    (rs : list (list byte * IOSection)) (pre8 suf8 pre8e suf8e : list byte) :
  (enough_fuel ≤ fuel)%nat → length pre8 = 8%nat → length pre8e = 8%nat →
  (length rs < 256)%nat →
  Forall (λ r, length (fst r) = 24%nat ∧ section_fits 1 (snd r)) rs →
  ∃ fields : list AVLRecord,
    parseAVLData fuel (encode_packet pre8 x08 1 rs suf8) =
      Ret (Some {| codecID := 8; numberOfRecords := Z.of_nat (length rs);
                   records := fields |}) ∧
    parseAVLData fuel (encode_packet pre8e x8e 2 rs suf8e) =
      Ret (Some {| codecID := 142; numberOfRecords := Z.of_nat (length rs);
                   records := fields |}).
Proof.
  intros Hfuel Hp8 Hp8e Hn Hrs. exists (collect (length rs) rs []). split.
  - apply (parseAVLData_encoded fuel pre8 x08 rs suf8); try done. by left.
  - apply (parseAVLData_encoded fuel pre8e x8e rs suf8e); try done; [by right|].
    eapply Forall_impl; [exact Hrs|]. intros r [? ?]. split; [done|].
    by apply section_fits_wider.
Qed.

Lemma codec8_extended_same_fields_witness :
  (enough_fuel ≤ enough_fuel)%nat ∧ length Samples.preamble = 8%nat ∧
  (length [(Samples.record_head, Samples.io_section)] < 256)%nat ∧
  Forall (λ r, length (fst r) = 24%nat ∧ section_fits 1 (snd r))
    [(Samples.record_head, Samples.io_section)] ∧
  ∃ fields : list AVLRecord,
    parseAVLData enough_fuel
      (encode_packet Samples.preamble x08 1 [(Samples.record_head, Samples.io_section)] []) =
      Ret (Some {| codecID := 8; numberOfRecords := 1; records := fields |}) ∧
    parseAVLData enough_fuel
      (encode_packet Samples.preamble x8e 2 [(Samples.record_head, Samples.io_section)] []) =
      Ret (Some {| codecID := 142; numberOfRecords := 1; records := fields |}).
Proof.
  assert (Forall (λ r, length (fst r) = 24%nat ∧ section_fits 1 (snd r))
            [(Samples.record_head, Samples.io_section)]) as Hrs.
  { apply Forall_singleton. split; [reflexivity|].
    unfold section_fits, group_fits, fits. simpl.
    split_and!; try lia; try done.
    apply Forall_singleton. simpl. lia. }
  split_and!; [exact (Nat.le_refl enough_fuel)|reflexivity|simpl; lia|exact Hrs|].
  exact (codec8_extended_same_fields enough_fuel
           [(Samples.record_head, Samples.io_section)] Samples.preamble [] Samples.preamble []
           (Nat.le_refl enough_fuel) eq_refl eq_refl ltac:(simpl; lia) Hrs).
Defined.

Example sample_packets_encoded :
  encode_packet Samples.preamble x08 1 [(Samples.record_head, Samples.io_section)] [] =
    Samples.packet ∧
  encode_packet Samples.preamble x8e 2 [(Samples.record_head, Samples.io_section)] [] =
    Samples.packet_8e.
Proof. split; vm_compute; reflexivity. Qed.

Example sample_packets_decoded :
  parseAVLData enough_fuel Samples.packet =
    Ret (Some {| codecID := 8; numberOfRecords := 1; records := [Samples.decoded_record] |}) ∧
  parseAVLData enough_fuel Samples.packet_8e =
    Ret (Some {| codecID := 142; numberOfRecords := 1; records := [Samples.decoded_record] |}).
Proof. split; vm_compute; reflexivity. Qed.

End CodecFacts.


(** ** The session *)

Module SessionFacts.
Import Buffer TeltonikaParser Server.

Lemma on_data_awaiting (s : session) (chunk : list byte) :
  deviceIMEI s = None →
  on_data chunk s =
    let s1 := set_buffer (dataBuffer s ++ chunk) s in
    if Z.of_nat (length (dataBuffer s ++ chunk)) <? 17 then Ret (s1, [], None)
    else
      match parseIMEI (dataBuffer s ++ chunk) with
      | Ret None => Ret (s1, [Write [x00]; End], None)
      | Ret (Some imei) =>
          Ret ({| deviceIMEI := Some imei; clientConfig := clientConfig s;
                  dataBuffer := dataBuffer s ++ chunk |}, [], Some (AwaitValidate imei))
      | Throw _ => Ret (on_error s1)
      | Timeout => Timeout
      end.
Proof. intros H. unfold on_data, set_buffer, concat. simpl. by rewrite H. Qed.

(** In the phase AwaitingIdentity, on the arrival of a chunk: when the
    buffer with the chunk appended holds fewer than 17 bytes, nothing is
    written and the session only keeps the bytes; when it holds at least 17
    bytes and [parseIMEI] returns [null], the single byte 0x00 is written and
    the socket is ended; when [parseIMEI] returns an identity and the
    resolver returns a route, the single byte 0x01 is written, the identity
    and the route are stored, the buffer is emptied and the session is
    Authenticated. *)
Lemma awaiting_identity_transition (registry : string → DataRouter.response)
    (sink : DataRouter.ClientConfig → list AVLRecord → bool)
    (w : world) (chunk : list byte) :
  phase_of (sess w) = AwaitingIdentity →
  let inbox := dataBuffer (sess w) ++ chunk in
  let waiting := set_buffer inbox (sess w) in
  ((length inbox < 17)%nat →
     handle_chunk registry sink chunk w =
       Some {| router := router w; sess := waiting; pending := pending w;
               output := output w |}) ∧
  ((17 ≤ length inbox)%nat → parseIMEI inbox = Ret None →
     handle_chunk registry sink chunk w =
       Some {| router := router w; sess := waiting; pending := pending w;
               output := output w ++ [Write [x00]; End] |}) ∧
  (∀ imei route rt,
     (17 ≤ length inbox)%nat → parseIMEI inbox = Ret (Some imei) →
     validateDevice registry imei (router w) = (Some route, rt) →
     ∃ w',
       handle_chunk registry sink chunk w = Some w' ∧
       router w' = rt ∧ pending w' = pending w ∧
       output w' = output w ++ [Write [x01]] ∧
       sess w' = {| deviceIMEI := Some imei; clientConfig := Some route;
                    dataBuffer := [] |} ∧
       phase_of (sess w') = Authenticated).
Proof.
  intros Hphase inbox waiting.
  assert (deviceIMEI (sess w) = None) as Hnone.
  { unfold phase_of in Hphase. by destruct (deviceIMEI (sess w)). }
  unfold handle_chunk. rewrite (on_data_awaiting _ _ Hnone). fold inbox. cbn zeta. fold waiting.
  split_and!.
  - intros Hlen. rewrite (proj2 (Z.ltb_lt _ _)) by lia.
    unfold finish. simpl. by rewrite app_nil_r.
  - intros Hlen Hbad. rewrite (proj2 (Z.ltb_ge _ _)) by lia. by rewrite Hbad.
  - intros imei route rt Hlen Hok Hroute.
    rewrite (proj2 (Z.ltb_ge _ _)) by lia. rewrite Hok, Hroute. simpl.
    eexists. split; [reflexivity|]. by split_and!.
Qed.

(** An identity message whose 15 payload bytes are digits once their highest
    bit is cleared decodes to those digits. *)
Lemma parseIMEI_payload (payload : list byte) :
  length payload = 15%nat → Forall (λ b, JS.decimal_digit (ascii_char b)) payload →
  parseIMEI ([x00; x0f] ++ payload) = Ret (Some (toString_ascii payload)).
Proof.
  intros Hlen Hdig. apply IdentityFacts.parseIMEI_Some.
  assert (slice ([x00; x0f] ++ payload) 2 17 = payload) as ->.
  { unfold slice. change (Z.to_nat (17 - 2)) with 15%nat. change (Z.to_nat 2) with 2%nat.
    simpl drop. rewrite <- Hlen. apply firstn_all. }
  split_and!; try done.
  unfold readUInt16BE. rewrite BufferFacts.readUIntBE_in_range; [done|lia|].
  rewrite length_app, Hlen. simpl. lia.
Qed.

(** C6: in the phase AwaitingIdentity an invalid identity is not always
    rejected. A 17-byte identity message whose payload holds a byte that is
    not an ASCII digit, but whose bytes all are digits once their highest
    bit is cleared, is answered with the single byte 0x01 when the resolver
    returns a route for the digits: the digits are stored as the identity,
    the route is stored, the buffer is emptied and the session is
    Authenticated. No 0x00 is written and the socket is not ended. *)
Theorem invalid_identity_accepted (registry : string → DataRouter.response)
    (sink : DataRouter.ClientConfig → list AVLRecord → bool)
    (w : world) (payload : list byte) (route : DataRouter.ClientConfig)
    (rt : DataRouter.state) :
  phase_of (sess w) = AwaitingIdentity → dataBuffer (sess w) = [] →
  length payload = 15%nat →
  Exists (λ b, ¬ (48 ≤ u8 b ≤ 57)) payload →
  Forall (λ b, JS.decimal_digit (ascii_char b)) payload →
  validateDevice registry (toString_ascii payload) (router w) = (Some route, rt) →
  handle_chunk registry sink ([x00; x0f] ++ payload) w =
    Some {| router := rt;
            sess := {| deviceIMEI := Some (toString_ascii payload);
                       clientConfig := Some route; dataBuffer := [] |};
            pending := pending w; output := output w ++ [Write [x01]] |} ∧
  phase_of {| deviceIMEI := Some (toString_ascii payload);
              clientConfig := Some route; dataBuffer := [] |} = Authenticated.
Proof.
  intros Hphase Hbuf Hlen _ Hdig Hroute. split; [|done].
  destruct (proj2 (proj2 (awaiting_identity_transition registry sink w
                            ([x00; x0f] ++ payload) Hphase))
              (toString_ascii payload) route rt)
    as (w' & Hw' & Hr & Hp & Ho & Hs & _).
  - rewrite Hbuf, app_nil_l, length_app, Hlen. simpl. lia.
  - rewrite Hbuf, app_nil_l. by apply parseIMEI_payload.
  - done.
  - rewrite Hw'. destruct w' as [r s p o]. simpl in *. by subst.
Qed.

Lemma invalid_identity_accepted_witness :
  handle_chunk Samples.registry Samples.sink Samples.high_bit_identity (fresh 0) =
    Some {| router := {| DataRouter.clientCache := {[ Samples.device := Samples.route ]};
                         DataRouter.timers := [(300000, Samples.device)];
                         DataRouter.clock := 0 |};
            sess := {| deviceIMEI := Some Samples.device;
                       clientConfig := Some Samples.route; dataBuffer := [] |};
            pending := []; output := [Write [x01]] |} ∧
  phase_of {| deviceIMEI := Some Samples.device;
              clientConfig := Some Samples.route; dataBuffer := [] |} = Authenticated.
Proof.
  assert (Exists (λ b, ¬ (48 ≤ u8 b ≤ 57)) (drop 2 Samples.high_bit_identity)) as Hbad.
  { apply Exists_cons_hd. change (u8 xb1) with 177. lia. }
  assert (Forall (λ b, JS.decimal_digit (ascii_char b)) (drop 2 Samples.high_bit_identity))
    as Hdig.
  { repeat (apply List.Forall_cons; [split; vm_compute; discriminate|]).
    apply List.Forall_nil. }
  assert (validateDevice Samples.registry
            (toString_ascii (drop 2 Samples.high_bit_identity)) (router (fresh 0)) =
          (Some Samples.route,
           {| DataRouter.clientCache := {[ Samples.device := Samples.route ]};
              DataRouter.timers := [(300000, Samples.device)];
              DataRouter.clock := 0 |})) as Hroute by (vm_compute; reflexivity).
  exact (invalid_identity_accepted Samples.registry Samples.sink (fresh 0)
           (drop 2 Samples.high_bit_identity) Samples.route _
           eq_refl eq_refl eq_refl Hbad Hdig Hroute).
Defined.









Example serial_session_output :
  output <$> handle_chunks Samples.registry Samples.sink
               [Samples.identity; Samples.packet] (fresh 0) =
    Some [Write [x01]; Write [x00; x00; x00; x01]].
Proof. vm_compute. reflexivity. Qed.


End SessionFacts.


(** ** The tenant cache *)

Module RouterFacts.
Import DataRouter.

Lemma lookup_fired (k : string) (l : list (Z * string)) (m : gmap string ClientConfig) :
  foldr (λ tm c, delete (snd tm) c) m l !! k =
    if decide (k ∈ (snd <$> l)) then None else m !! k.
Proof.
  induction l as [|[d i] l IH].
  - done.
  - cbn [foldr snd]. rewrite lookup_delete, IH, fmap_cons. cbn [snd].
    destruct (decide (i = k)) as [->|Hne].
    + rewrite decide_True by apply list_elem_of_here. done.
    + destruct (decide (k ∈ snd <$> l)) as [Hin|Hout].
      * rewrite decide_True by by apply list_elem_of_further. done.
      * rewrite decide_False; [done|].
        intros [?|?]%elem_of_cons; [by apply Hne|by apply Hout].
Qed.

Lemma clock_tick dt st : clock (tick dt st) = clock st + Z.of_N dt.
Proof. done. Qed.

Lemma tick_lookup_None dt st k :
  clientCache st !! k = None → clientCache (tick dt st) !! k = None.
Proof. intros H. unfold tick. simpl. rewrite lookup_fired. by case_decide. Qed.

Lemma tick_lookup_fired dt st d k :
  (d, k) ∈ timers st → d ≤ clock st + Z.of_N dt → clientCache (tick dt st) !! k = None.
Proof.
  intros Hin Hd. unfold tick. simpl. rewrite lookup_fired.
  rewrite decide_True; [done|]. apply list_elem_of_fmap. exists (d, k). split; [done|].
  apply list_elem_of_filter. split; [|done]. unfold due. simpl. by apply Is_true_true, Z.leb_le.
Qed.



Lemma run_cons e evs st : run (e :: evs) st = run evs (step e st).
Proof. done. Qed.

Lemma clock_resume imei resp st : clock (snd (validateDevice_resume imei resp st)) = clock st.
Proof.
  unfold validateDevice_resume.
  destruct resp as [[data|] [err|]|]; simpl; try done.
  by destruct (_ || _).
Qed.

Lemma clock_run evs st : clock (run evs st) = clock st + elapsed evs.
Proof.
  revert st. induction evs as [|e evs IH]; intros st; [simpl; lia|].
  rewrite run_cons, IH. destruct e as [dt|i|i r]; simpl.
  - lia.
  - done.
  - by rewrite clock_resume.
Qed.

(** What an answer of the registry does to the entry and the timers of [k]. *)
Lemma resume_cases imei resp st :
  (snd (validateDevice_resume imei resp st) = st) ∨
  (∃ c, snd (validateDevice_resume imei resp st) =
          {| clientCache := <[imei := c]> (clientCache st);
             timers := timers st ++ [(clock st + cache_ttl, imei)];
             clock := clock st |}).
Proof.
  unfold validateDevice_resume.
  destruct resp as [[data|] [err|]|]; simpl; auto.
  destruct (_ || _); simpl; eauto.
Qed.

Section Window.
Variable k : string.
Variable deadline : Z.


(** As long as the registry does not answer for [k] again, its entry is on
    its way out. *)
Lemma entry_expires evs : ∀ st,
  quiet k evs → expiring k deadline st →
  expiring k deadline (run evs st).
Proof.
  induction evs as [|e evs IH]; intros st Hq Hex; [done|].
  rewrite run_cons. inversion Hq as [|? ? He Hq']; subst. apply IH; [done|].
  destruct e as [dt|i|i resp]; simpl.
  - destruct Hex as [Hnone|(Hck & d & Hin & Hd)].
    + left. by apply tick_lookup_None.
    + destruct (decide (d ≤ clock st + Z.of_N dt)) as [Hdue|Hnot].
      * left. by apply (tick_lookup_fired dt st d).
      * right. rewrite clock_tick. split; [lia|]. exists d. split; [|done].
        simpl. apply list_elem_of_filter. split; [|done].
        unfold due. simpl. apply Is_true_true, negb_true_iff, Z.leb_gt. lia.
  - done.
  - destruct (resume_cases i resp st) as [->|[c0 ->]]; [done|].
    destruct Hex as [Hnone|(Hck & d & Hin & Hd)].
    + left. simpl. by rewrite lookup_insert_ne.
    + right. simpl. split; [done|]. exists d. split; [|done].
      apply elem_of_app. by left.
Qed.

End Window.






Example cache_hit_then_miss :
  validateDevice_start Samples.device
    (run [Answer Samples.device (Reply (Some Samples.row) None); Tick 299999;
          Lookup Samples.device] (new 0)) = Cached Samples.route ∧
  validateDevice_start Samples.device
    (run [Answer Samples.device (Reply (Some Samples.row) None); Tick 299999;
          Lookup Samples.device; Tick 2] (new 0)) = QueryRegistry Samples.device.
Proof. split; vm_compute; reflexivity. Qed.

End RouterFacts.

(** * Further properties of the parser, the router and the session *)

Module SampleFacts.
Import Buffer JS TeltonikaParser Wire.

Lemma sample_section_fits : section_fits 1 Samples.io_section.
Proof.
  unfold section_fits, group_fits, fits. simpl.
  split_and!; try lia; try done.
  apply Forall_singleton. simpl. lia.
Qed.

Lemma sample_records_fit (heads : list (list byte)) :
  Forall (λ h, length h = 24%nat) heads →
  Forall (λ r, length (fst r) = 24%nat ∧ section_fits 1 (snd r))
    ((λ h, (h, Samples.io_section)) <$> heads).
Proof.
  intros H. apply Forall_fmap. eapply Forall_impl; [exact H|].
  intros h Hh. split; [exact Hh|apply sample_section_fits].
Qed.

Lemma sample_record_decodes :
  record_of Samples.record_head Samples.io_section = Some Samples.decoded_record.
Proof. vm_compute. reflexivity. Qed.

Lemma late_record_fails : record_of Samples.late_head Samples.io_section = None.
Proof. vm_compute. reflexivity. Qed.

Lemma sample_gps_fits : gps_fits Samples.gps.
Proof. unfold gps_fits, fits_signed, fits. split_and!; vm_compute; done. Qed.

Example sample_heads_encoded :
  encode_head Samples.timestamp 0 Samples.gps = Samples.record_head ∧
  encode_head (max_time_value + 1) 0 Samples.gps = Samples.late_head.
Proof. split; vm_compute; reflexivity. Qed.

End SampleFacts.

Module IdentityMore.
Import Buffer JS TeltonikaParser Wire BufferFacts IdentityFacts.

Lemma length_slice_2_17 (buffer : list byte) :
  length (slice buffer 2 17) = 15%nat ↔ (17 ≤ length buffer)%nat.
Proof.
  unfold slice. change (Z.to_nat (17 - 2)) with 15%nat. change (Z.to_nat 2) with 2%nat.
  rewrite length_take, length_drop. lia.
Qed.

(** X1: [parseIMEI] returns an identity exactly when the buffer starts with
    the length 15 on two bytes, holds at least 17 bytes, and each of the 15
    payload bytes, its highest bit cleared, is a decimal digit; the identity
    is the payload decoded that way. What follows the 17 bytes is not
    looked at. *)
Theorem parseIMEI_accepts (buffer : list byte) (imei : string) :
  parseIMEI buffer = Ret (Some imei) ↔
  readUInt16BE buffer 0 = Ret 15 ∧ (17 ≤ length buffer)%nat ∧
  Forall (λ b, decimal_digit (ascii_char b)) (slice buffer 2 17) ∧
  imei = toString_ascii (slice buffer 2 17).
Proof.
  rewrite parseIMEI_Some, length_slice_2_17. tauto.
Qed.

(** X2: every identity of 15 decimal digits, written as the length 15 on two
    bytes followed by its digits, decodes to itself, whatever bytes follow. *)
Theorem parseIMEI_round_trip (imei : string) (rest : list byte) :
  String.length imei = 15%nat → Forall decimal_digit (list_ascii_of_string imei) →
  parseIMEI (encode_identity imei ++ rest) = Ret (Some imei).
Proof. apply parseIMEI_encode. Qed.

Lemma parseIMEI_round_trip_witness :
  String.length Samples.device = 15%nat ∧
  Forall decimal_digit (list_ascii_of_string Samples.device) ∧
  parseIMEI (encode_identity Samples.device ++ [x00; xff]) = Ret (Some Samples.device).
Proof.
  assert (Forall decimal_digit (list_ascii_of_string Samples.device)) as Hd.
  { repeat (apply List.Forall_cons; [split; vm_compute; discriminate|]).
    apply List.Forall_nil. }
  split_and!; [reflexivity|exact Hd|].
  exact (parseIMEI_round_trip Samples.device [x00; xff] eq_refl Hd).
Defined.

(** X3: a buffer of fewer than 17 bytes, the empty one included, and a buffer
    whose first two bytes are not the length 15 give [null]. *)
Theorem parseIMEI_short_or_bad_length (buffer : list byte) :
  (length buffer < 17)%nat ∨ readUInt16BE buffer 0 ≠ Ret 15 →
  parseIMEI buffer = Ret None.
Proof.
  intros Hbad. destruct (parseIMEI_Ret buffer) as [[imei|] Hr]; [|done].
  apply parseIMEI_Some in Hr as (H15 & _ & Hlen & _).
  apply length_slice_2_17 in Hlen. destruct Hbad; [lia|done].
Qed.

Lemma parseIMEI_short_or_bad_length_witness :
  ((length (@nil byte) < 17)%nat ∨ readUInt16BE [] 0 ≠ Ret 15) ∧
  parseIMEI [] = Ret None.
Proof.
  assert ((length (@nil byte) < 17)%nat ∨ readUInt16BE [] 0 ≠ Ret 15) as H
    by (left; simpl; lia).
  split; [exact H|]. exact (parseIMEI_short_or_bad_length [] H).
Defined.

End IdentityMore.

Module BufferMore.
Import Buffer JS TeltonikaParser Wire BufferFacts WireFacts.

Lemma readUIntBE_cases n buffer offset :
  (0 ≤ offset ∧ offset + Z.of_nat n ≤ Z.of_nat (length buffer) ∧
   ∃ v, readUIntBE n buffer offset = Ret v ∧ 0 ≤ v < 256 ^ Z.of_nat n) ∨
  ((offset < 0 ∨ Z.of_nat (length buffer) < offset + Z.of_nat n) ∧
   readUIntBE n buffer offset = Throw RangeError).
Proof.
  destruct (readUIntBE n buffer offset) as [v| |] eqn:Hr.
  - left. apply readUIntBE_Ret in Hr as (? & ? & ? & ?). eauto.
  - right. unfold readUIntBE in Hr. destruct (_ && _) eqn:Hc; [done|].
    injection Hr as <-. split; [|done].
    apply andb_false_iff in Hc as [Hc%Z.leb_gt|Hc%Z.leb_gt]; lia.
  - by apply readUIntBE_not_Timeout in Hr.
Qed.

Lemma to_signed_range bits v :
  0 < bits → 0 ≤ v < 2 ^ bits → - 2 ^ (bits - 1) ≤ to_signed bits v < 2 ^ (bits - 1).
Proof.
  intros Hb Hv. unfold to_signed.
  assert (2 ^ bits = 2 * 2 ^ (bits - 1)) as Hp.
  { rewrite <- Z.pow_succ_r by lia. f_equal. lia. }
  destruct (v <? 2 ^ (bits - 1)) eqn:Hlt; [apply Z.ltb_lt in Hlt|apply Z.ltb_ge in Hlt]; lia.
Qed.

Lemma to_signed_mod bits v :
  0 < bits → - 2 ^ (bits - 1) ≤ v < 2 ^ (bits - 1) → to_signed bits (v `mod` 2 ^ bits) = v.
Proof.
  intros Hb Hv. unfold to_signed.
  assert (2 ^ bits = 2 * 2 ^ (bits - 1)) as Hp.
  { rewrite <- Z.pow_succ_r by lia. f_equal. lia. }
  assert (0 < 2 ^ (bits - 1)) by (apply Z.pow_pos_nonneg; lia).
  destruct (decide (0 ≤ v)) as [Hpos|Hneg].
  - rewrite Z.mod_small by lia. by rewrite (proj2 (Z.ltb_lt _ _)) by lia.
  - replace (v `mod` 2 ^ bits) with (v + 2 ^ bits).
    + rewrite (proj2 (Z.ltb_ge _ _)) by lia. lia.
    + symmetry. rewrite <- (Z.mod_add v 1 (2 ^ bits)) by lia.
      rewrite Z.mul_1_l. apply Z.mod_small. lia.
Qed.

End BufferMore.


Module GPSFacts.
Import Buffer JS TeltonikaParser Wire BufferFacts WireFacts BufferMore.

Lemma parseGPSElement_eq buffer offset :
  parseGPSElement buffer offset =
    lon ← readInt32BE buffer offset;
    lat ← readInt32BE buffer (offset + 4);
    alt ← readInt16BE buffer (offset + 8);
    ang ← readUInt16BE buffer (offset + 10);
    sat ← readUInt8 buffer (offset + 12);
    spd ← readUInt16BE buffer (offset + 13);
    Ret ({| gps_longitude := Qmake lon 10000000; gps_latitude := Qmake lat 10000000;
            gps_altitude := alt; gps_angle := ang; gps_satellites := sat;
            gps_speed := spd |}, offset + 15).
Proof.
  unfold parseGPSElement.
  replace (offset + 4 + 4) with (offset + 8) by lia.
  replace (offset + 8 + 2) with (offset + 10) by lia.
  replace (offset + 10 + 2) with (offset + 12) by lia.
  replace (offset + 12 + 1) with (offset + 13) by lia.
  replace (offset + 13 + 2) with (offset + 15) by lia.
  done.
Qed.

(** X4: [parseGPSElement] reads exactly the 15 bytes from [offset] on. When
    they lie inside the buffer it returns the element with the new offset
    [offset + 15], longitude and latitude being a signed 32-bit integer over
    10^7, the altitude a signed 16-bit integer, and angle, satellites and
    speed unsigned numbers of 16, 8 and 16 bits. Otherwise it throws a
    [RangeError]. *)
Theorem parseGPSElement_bounds (buffer : list byte) (offset : Z) :
  if (0 <=? offset) && (offset + 15 <=? Z.of_nat (length buffer))
  then ∃ gps, parseGPSElement buffer offset = Ret (gps, offset + 15) ∧ gps_in_range gps
  else parseGPSElement buffer offset = Throw RangeError.
Proof.
  rewrite parseGPSElement_eq.
  unfold readInt32BE, readInt16BE, readUInt16BE, readUInt8.
  destruct ((0 <=? offset) && (offset + 15 <=? Z.of_nat (length buffer))) eqn:Hin.
  - apply andb_true_iff in Hin as [H0%Z.leb_le Hlen%Z.leb_le].
    destruct (readUIntBE_cases 4 buffer offset) as [(_ & _ & lon & -> & Hlon)|[? _]]; [|lia].
    destruct (readUIntBE_cases 4 buffer (offset + 4)) as [(_ & _ & lat & -> & Hlat)|[? _]];
      [|lia].
    destruct (readUIntBE_cases 2 buffer (offset + 8)) as [(_ & _ & alt & -> & Halt)|[? _]];
      [|lia].
    destruct (readUIntBE_cases 2 buffer (offset + 10)) as [(_ & _ & ang & -> & Hang)|[? _]];
      [|lia].
    destruct (readUIntBE_cases 1 buffer (offset + 12)) as [(_ & _ & sat & -> & Hsat)|[? _]];
      [|lia].
    destruct (readUIntBE_cases 2 buffer (offset + 13)) as [(_ & _ & spd & -> & Hspd)|[? _]];
      [|lia].
    simpl. eexists. split; [reflexivity|]. unfold gps_in_range. simpl.
    pose proof (to_signed_range 32 lon ltac:(lia) Hlon).
    pose proof (to_signed_range 32 lat ltac:(lia) Hlat).
    pose proof (to_signed_range 16 alt ltac:(lia) Halt).
    simpl in *. split_and!; try done; lia.
  - assert (offset < 0 ∨ Z.of_nat (length buffer) < offset + 15) as Hout.
    { apply andb_false_iff in Hin as [H%Z.leb_gt|H%Z.leb_gt]; lia. }
    destruct (readUIntBE_cases 4 buffer offset) as [(H0 & _ & lon & -> & _)|[_ ->]]; [|done].
    destruct (readUIntBE_cases 4 buffer (offset + 4)) as [(_ & _ & lat & -> & _)|[_ ->]];
      [|done].
    destruct (readUIntBE_cases 2 buffer (offset + 8)) as [(_ & _ & alt & -> & _)|[_ ->]];
      [|done].
    destruct (readUIntBE_cases 2 buffer (offset + 10)) as [(_ & _ & ang & -> & _)|[_ ->]];
      [|done].
    destruct (readUIntBE_cases 1 buffer (offset + 12)) as [(_ & _ & sat & -> & _)|[_ ->]];
      [|done].
    destruct (readUIntBE_cases 2 buffer (offset + 13)) as [(? & ? & _)|[_ ->]]; [lia|done].
Qed.

Lemma length_encode_signed n v : length (encode_signed n v) = n.
Proof. apply length_encode_be. Qed.

Lemma read_signed_encoded (n : nat) buffer offset v :
  has_at buffer offset (encode_signed (Datatypes.S n) v) → fits_signed (Datatypes.S n) v →
  to_signed (8 * Z.of_nat (Datatypes.S n)) <$> readUIntBE (Datatypes.S n) buffer offset = Ret v.
Proof.
  intros Hat Hv. unfold encode_signed in Hat.
  assert (256 ^ Z.of_nat (Datatypes.S n) = 2 ^ (8 * Z.of_nat (Datatypes.S n))) as Hp.
  { change 256 with (2 ^ 8). rewrite <- Z.pow_mul_r by lia. done. }
  rewrite (readUIntBE_encoded n buffer offset _ Hat).
  - simpl fmap. unfold fmap, outcome_fmap. f_equal. rewrite Hp.
    apply to_signed_mod; [lia|]. exact Hv.
  - unfold fits. apply Z.mod_pos_bound. apply Z.pow_pos_nonneg; lia.
Qed.

Lemma parseGPSElement_encoded buffer offset g :
  has_at buffer offset (encode_gps g) → gps_fits g →
  parseGPSElement buffer offset = Ret (gps_of g, offset + 15).
Proof.
  intros Hat (Hlon & Hlat & Halt & Hang & Hsat & Hspd).
  rewrite parseGPSElement_eq. unfold encode_gps in Hat.
  unfold readInt32BE, readInt16BE, readUInt16BE, readUInt8.
  pose proof (read_signed_encoded 3 buffer offset _ (has_at_app_l _ _ _ _ Hat) Hlon) as R1.
  apply has_at_app_r in Hat. rewrite length_encode_signed in Hat.
  pose proof (read_signed_encoded 3 buffer _ _ (has_at_app_l _ _ _ _ Hat) Hlat) as R2.
  apply has_at_app_r in Hat. rewrite length_encode_signed in Hat.
  pose proof (read_signed_encoded 1 buffer _ _ (has_at_app_l _ _ _ _ Hat) Halt) as R3.
  apply has_at_app_r in Hat. rewrite length_encode_signed in Hat.
  pose proof (readUIntBE_encoded 1 buffer _ _ (has_at_app_l _ _ _ _ Hat) Hang) as R4.
  apply has_at_app_r in Hat. rewrite length_encode_be in Hat.
  pose proof (readUIntBE_encoded 0 buffer _ _ (has_at_app_l _ _ _ _ Hat) Hsat) as R5.
  apply has_at_app_r in Hat. rewrite length_encode_be in Hat.
  rewrite <- (app_nil_r (encode_be 2 _)) in Hat.
  pose proof (readUIntBE_encoded 1 buffer _ _ (has_at_app_l _ _ _ _ Hat) Hspd) as R6.
  change (8 * Z.of_nat 4) with 32 in *. change (8 * Z.of_nat 2) with 16 in *.
  replace (offset + Z.of_nat 4) with (offset + 4) in * by lia.
  replace (offset + 4 + Z.of_nat 4) with (offset + 8) in * by lia.
  replace (offset + 8 + Z.of_nat 2) with (offset + 10) in * by lia.
  replace (offset + 10 + Z.of_nat 2) with (offset + 12) in * by lia.
  replace (offset + 12 + Z.of_nat 1) with (offset + 13) in * by lia.
  destruct (readUIntBE 4 buffer offset) as [lon| |]; try done. injection R1 as R1.
  destruct (readUIntBE 4 buffer (offset + 4)) as [lat| |]; try done. injection R2 as R2.
  destruct (readUIntBE 2 buffer (offset + 8)) as [alt| |]; try done. injection R3 as R3.
  rewrite R4, R5, R6. simpl. rewrite R1, R2, R3. done.
Qed.

(** X5: the GPS element that a device writes (longitude, latitude and
    altitude in two's complement, the other fields unsigned, big-endian) is
    read back as written: longitude and latitude as the integer over 10^7,
    negative values included. *)
Theorem parseGPSElement_round_trip (g : GPSRaw) (pre suf : list byte) :
  gps_fits g →
  parseGPSElement (pre ++ encode_gps g ++ suf) (Z.of_nat (length pre)) =
    Ret (gps_of g, Z.of_nat (length pre) + 15).
Proof.
  intros Hfits. apply parseGPSElement_encoded; [|done]. apply has_at_middle.
Qed.

Lemma parseGPSElement_round_trip_witness :
  gps_fits Samples.gps ∧
  parseGPSElement (take 9 Samples.record_head ++ encode_gps Samples.gps ++ Samples.io_codec8)
    (Z.of_nat (length (take 9 Samples.record_head))) =
    Ret (gps_of Samples.gps, Z.of_nat (length (take 9 Samples.record_head)) + 15).
Proof.
  split; [exact SampleFacts.sample_gps_fits|].
  exact (parseGPSElement_round_trip Samples.gps (take 9 Samples.record_head)
           Samples.io_codec8 SampleFacts.sample_gps_fits).
Defined.

End GPSFacts.


Module IOFacts.
Import Buffer JS TeltonikaParser Wire BufferFacts ParserFacts WireFacts BufferMore.

Lemma read_id_Ret buffer offset codec v :
  read_id buffer offset codec = Ret v →
  0 ≤ offset ∧ offset + id_width codec ≤ Z.of_nat (length buffer) ∧ 0 ≤ v.
Proof.
  unfold read_id, id_width, readUInt16BE, readUInt8.
  destruct (codec =? 142); intros (? & ? & _ & ?)%readUIntBE_Ret; lia.
Qed.

Lemma parseIOElements_body_step buffer w codec s s' :
  parseIOElements_body buffer w codec s = Ret s' →
  io_i s' = io_i s + 1 ∧
  io_offset s' = io_offset s + id_width codec + byteLength_of w ∧
  io_offset s' ≤ Z.of_nat (length buffer) ∧
  (size (io_data s') ≤ Datatypes.S (size (io_data s)))%nat.
Proof.
  unfold parseIOElements_body.
  destruct (read_id buffer (io_offset s) codec) as [ioID| |] eqn:Hid; simpl; try done.
  apply read_id_Ret in Hid as (Hoff & _ & _).
  destruct w; unfold readUInt8, readUInt16BE, readUInt32BE, readBigUInt64BE; simpl;
    match goal with |- context [readUIntBE ?n ?b ?o] =>
      destruct (readUIntBE n b o) as [v| |] eqn:Hv end; simpl; try done;
    apply readUIntBE_Ret in Hv as (_ & Hlen & _);
    intros [= <-]; simpl; (split_and!; [done|done|lia|]);
    rewrite map_size_insert; destruct (io_data s !! _); simpl; lia.
Qed.

Lemma parseIOElements_shape fuel buffer offset w codec data newOffset :
  parseIOElements fuel buffer offset w codec = Ret (data, newOffset) →
  ∃ count,
    read_id buffer offset codec = Ret count ∧ 0 ≤ offset ∧ 0 ≤ count ∧
    newOffset = offset + id_width codec + count * (id_width codec + byteLength_of w) ∧
    newOffset ≤ Z.of_nat (length buffer) ∧
    Z.of_nat (size data) ≤ count.
Proof.
  unfold parseIOElements.
  destruct (read_id buffer offset codec) as [count| |] eqn:Hc; simpl; try done.
  destruct (while_loop _ _ _ _) as [final| |] eqn:Hloop; simpl; try done.
  intros [= <- <-]. exists count. apply read_id_Ret in Hc as (H0 & Hlen & Hcount).
  apply (while_loop_invariant _ _
    (λ s, 0 ≤ io_i s ≤ count ∧
          io_offset s = offset + id_width codec + io_i s * (id_width codec + byteLength_of w) ∧
          io_offset s ≤ Z.of_nat (length buffer) ∧
          Z.of_nat (size (io_data s)) ≤ io_i s)) in Hloop.
  - destruct Hloop as [(Hi & Ho & Hl & Hs) Hcond%Z.ltb_ge].
    assert (io_i final = count) as Heq by lia. rewrite Heq in *.
    split_and!; try done.
  - intros s s' Hcond%Z.ltb_lt (Hi & Ho & Hl & Hs) Hbody.
    apply parseIOElements_body_step in Hbody as (Hi' & Ho' & Hl' & Hs').
    split_and!; try lia.
  - simpl. rewrite map_size_empty. split_and!; lia.
Qed.

(** X6: when [parseIOElements] returns, it has read the count and then
    exactly [count] entries of an id and a value each: the new offset is
    [offset + w + count * (w + byteLength)] for ids and counts of [w] bytes,
    it lies inside the buffer, and the mapping holds at most [count] keys. *)
Theorem parseIOElements_consumes (fuel : nat) (buffer : list byte) (offset : Z)
    (w : value_width) (codec : Z) (data : gmap string Z) (newOffset : Z) :
  parseIOElements fuel buffer offset w codec = Ret (data, newOffset) →
  ∃ count,
    read_id buffer offset codec = Ret count ∧ 0 ≤ offset ∧ 0 ≤ count ∧
    newOffset = offset + id_width codec + count * (id_width codec + byteLength_of w) ∧
    newOffset ≤ Z.of_nat (length buffer) ∧
    Z.of_nat (size data) ≤ count.
Proof. apply parseIOElements_shape. Qed.

Lemma parseIOElements_consumes_witness :
  parseIOElements enough_fuel Samples.packet 36 W1 8 = Ret ({[ "io_1"%string := 1 ]}, 39) ∧
  ∃ count,
    read_id Samples.packet 36 8 = Ret count ∧ 0 ≤ 36 ∧ 0 ≤ count ∧
    39 = 36 + id_width 8 + count * (id_width 8 + byteLength_of W1) ∧
    39 ≤ Z.of_nat (length Samples.packet) ∧
    Z.of_nat (size ({[ "io_1"%string := 1 ]} : gmap string Z)) ≤ count.
Proof.
  assert (parseIOElements enough_fuel Samples.packet 36 W1 8 =
            Ret ({[ "io_1"%string := 1 ]}, 39)) as H by (vm_compute; reflexivity).
  split; [exact H|].
  exact (parseIOElements_consumes enough_fuel Samples.packet 36 W1 8 _ 39 H).
Defined.

Lemma io_key_inj a b : io_key a = io_key b → a = b.
Proof.
  unfold io_key. intros H. simpl in H. injection H as H.
  change (pretty a = pretty b) in H. by apply (inj pretty) in H.
Qed.

Lemma group_map_snoc w g e :
  group_map w (g ++ [e]) = <[io_key (fst e) := js_value w (snd e)]> (group_map w g).
Proof. unfold group_map. by rewrite foldl_app. Qed.

Lemma group_map_lookup w g ioID :
  group_map w g !! io_key ioID = js_value w <$> last_value ioID g.
Proof.
  unfold last_value. induction g as [|e g IH] using rev_ind; [done|].
  rewrite group_map_snoc, filter_app, last_app.
  destruct (decide (fst e = ioID)) as [He|He].
  - rewrite filter_cons_True by done. simpl. by rewrite <- He, lookup_insert_eq.
  - rewrite filter_cons_False by done. simpl.
    rewrite lookup_insert_ne; [done|]. intros Hk. by apply io_key_inj in Hk.
Qed.

(** X7: in a sub-group, a later entry overwrites an earlier one with the
    same id. Decoding a sub-group as a device writes it gives, for every id,
    the value of the last entry with that id (as a JS number for 8-byte
    values), and no key for an id that no entry has. *)
Theorem parseIOElements_last_wins (fuel : nat) (w : value_width) (codec : Z)
    (g : list (Z * Z)) (pre suf : list byte) :
  (enough_fuel ≤ fuel)%nat → group_fits (idw_of codec) (vw_of w) g →
  ∃ data newOffset,
    parseIOElements fuel (pre ++ encode_group (idw_of codec) (vw_of w) g ++ suf)
      (Z.of_nat (length pre)) w codec = Ret (data, newOffset) ∧
    ∀ ioID, data !! io_key ioID = js_value w <$> last_value ioID g.
Proof.
  intros Hfuel Hfits. eexists _, _. split.
  - apply parseIOElements_encoded; [done| |done]. apply has_at_middle.
  - apply group_map_lookup.
Qed.

Lemma parseIOElements_last_wins_witness :
  (enough_fuel ≤ enough_fuel)%nat ∧
  group_fits (idw_of 8) (vw_of W1) Samples.repeated_group ∧
  ∃ data newOffset,
    parseIOElements enough_fuel
      ([x00; x03] ++ encode_group (idw_of 8) (vw_of W1) Samples.repeated_group ++ [x00])
      (Z.of_nat (length [x00; x03])) W1 8 = Ret (data, newOffset) ∧
    ∀ ioID, data !! io_key ioID = js_value W1 <$> last_value ioID Samples.repeated_group.
Proof.
  assert (group_fits (idw_of 8) (vw_of W1) Samples.repeated_group) as Hfits.
  { split; [vm_compute; split; [discriminate|reflexivity]|].
    repeat (apply List.Forall_cons; [vm_compute; repeat split; discriminate|]).
    apply List.Forall_nil. }
  split; [exact (Nat.le_refl enough_fuel)|]. split; [exact Hfits|].
  exact (parseIOElements_last_wins enough_fuel W1 8 Samples.repeated_group [x00; x03] [x00]
           (Nat.le_refl enough_fuel) Hfits).
Defined.

(** X8: an IO element section as a device writes it decodes to its event
    id, the mappings of its four sub-groups merged so that a sub-group of
    wider values overwrites one of narrower values, and the offset just
    after the section. The total element count in the section takes no part
    in the result: it is not compared with the sub-group counts. *)
Theorem parseIOElement_round_trip (fuel : nat) (codec : Z) (s : IOSection)
    (pre suf : list byte) :
  (enough_fuel ≤ fuel)%nat → section_fits (idw_of codec) s →
  parseIOElement fuel (pre ++ encode_io (idw_of codec) s ++ suf) (Z.of_nat (length pre)) codec =
    Ret {| io_result_data :=
             group_map W8 (group8 s) ∪ (group_map W4 (group4 s) ∪
               (group_map W2 (group2 s) ∪ group_map W1 (group1 s)));
           io_result_eventID := eventId s;
           io_result_newOffset :=
             Z.of_nat (length pre) + Z.of_nat (length (encode_io (idw_of codec) s)) |}.
Proof.
  intros Hfuel Hfits.
  rewrite (parseIOElement_encoded fuel _ _ codec s Hfuel); [|apply has_at_middle|done].
  unfold section_map. by rewrite (right_id_L ∅ (∪)).
Qed.

Lemma parseIOElement_round_trip_witness :
  (enough_fuel ≤ enough_fuel)%nat ∧ section_fits (idw_of 8) Samples.io_section ∧
  parseIOElement enough_fuel
    (Samples.record_head ++ encode_io (idw_of 8) Samples.io_section ++ [])
    (Z.of_nat (length Samples.record_head)) 8 =
    Ret {| io_result_data :=
             group_map W8 (group8 Samples.io_section) ∪
               (group_map W4 (group4 Samples.io_section) ∪
                 (group_map W2 (group2 Samples.io_section) ∪
                    group_map W1 (group1 Samples.io_section)));
           io_result_eventID := eventId Samples.io_section;
           io_result_newOffset :=
             Z.of_nat (length Samples.record_head) +
             Z.of_nat (length (encode_io (idw_of 8) Samples.io_section)) |}.
Proof.
  split; [exact (Nat.le_refl enough_fuel)|].
  split; [exact SampleFacts.sample_section_fits|].
  exact (parseIOElement_round_trip enough_fuel 8 Samples.io_section Samples.record_head []
           (Nat.le_refl enough_fuel) SampleFacts.sample_section_fits).
Defined.

End IOFacts.


Module RecordFacts.
Import Buffer JS TeltonikaParser Wire BufferFacts ParserFacts NumberFacts WireFacts.
Import CodecFacts BufferMore GPSFacts IOFacts.

Lemma parseIOElement_shape fuel buffer offset codec io :
  parseIOElement fuel buffer offset codec = Ret io →
  0 ≤ offset ∧
  offset + 6 * id_width codec ≤ io_result_newOffset io ≤ Z.of_nat (length buffer).
Proof.
  unfold parseIOElement. pose proof (id_width_pos codec) as Hw.
  destruct (read_id buffer offset codec) as [ev| |] eqn:Hev; simpl; try done.
  apply read_id_Ret in Hev as (H0 & _ & _).
  destruct (read_id buffer _ codec) as [tot| |]; simpl; try done.
  destruct (parseIOElements fuel buffer _ W1 codec) as [[d1 o1]| |] eqn:H1; simpl; try done.
  destruct (parseIOElements fuel buffer o1 W2 codec) as [[d2 o2]| |] eqn:H2; simpl; try done.
  destruct (parseIOElements fuel buffer o2 W4 codec) as [[d4 o4]| |] eqn:H4; simpl; try done.
  destruct (parseIOElements fuel buffer o4 W8 codec) as [[d8 o8]| |] eqn:H8; simpl; try done.
  intros [= <-]. simpl.
  apply parseIOElements_shape in H1 as (c1 & _ & _ & Hc1 & -> & _ & _).
  apply parseIOElements_shape in H2 as (c2 & _ & _ & Hc2 & -> & _ & _).
  apply parseIOElements_shape in H4 as (c4 & _ & _ & Hc4 & -> & _ & _).
  apply parseIOElements_shape in H8 as (c8 & _ & _ & Hc8 & -> & Hlen & _).
  simpl in *. split; [done|]. split; [nia|lia].
Qed.

Lemma parseAVLRecord_shape fuel buffer offset codec rec newOffset :
  parseAVLRecord fuel buffer offset codec = Ret (Some (rec, newOffset)) →
  0 ≤ offset ∧
  offset + 24 + 6 * id_width codec ≤ newOffset ≤ Z.of_nat (length buffer).
Proof.
  unfold parseAVLRecord.
  destruct (readBigUInt64BE buffer offset) as [ts| |] eqn:Hts; simpl; try done.
  apply readUIntBE_Ret in Hts as (H0 & _).
  destruct (Date_toISOString _) as [iso| |]; simpl; try done.
  destruct (readUInt8 buffer (offset + 8)) as [p| |]; simpl; try done.
  rewrite parseGPSElement_eq.
  destruct (readInt32BE buffer (offset + 8 + 1)) as [lon| |]; simpl; try done.
  destruct (readInt32BE buffer (offset + 8 + 1 + 4)) as [lat| |]; simpl; try done.
  destruct (readInt16BE buffer (offset + 8 + 1 + 8)) as [alt| |]; simpl; try done.
  destruct (readUInt16BE buffer (offset + 8 + 1 + 10)) as [ang| |]; simpl; try done.
  destruct (readUInt8 buffer (offset + 8 + 1 + 12)) as [sat| |]; simpl; try done.
  destruct (readUInt16BE buffer (offset + 8 + 1 + 13)) as [spd| |]; simpl; try done.
  destruct (parseIOElement fuel buffer _ codec) as [io| |] eqn:Hio; simpl; try done.
  intros [= <- <-]. apply parseIOElement_shape in Hio as (_ & Hlo & Hhi).
  split; [done|]. lia.
Qed.

(** X9: a record that [parseAVLRecord] decodes lies inside the buffer and
    takes at least 24 bytes plus six ids or counts: the new offset is at
    least [offset + 30] for Codec 8 and [offset + 36] for Codec 8 Extended,
    and at most the length of the buffer. *)
Theorem parseAVLRecord_consumes (fuel : nat) (buffer : list byte) (offset codec : Z)
    (rec : AVLRecord) (newOffset : Z) :
  parseAVLRecord fuel buffer offset codec = Ret (Some (rec, newOffset)) →
  0 ≤ offset ∧
  offset + 24 + 6 * id_width codec ≤ newOffset ≤ Z.of_nat (length buffer).
Proof. apply parseAVLRecord_shape. Qed.

Lemma parseAVLRecord_consumes_witness :
  parseAVLRecord enough_fuel Samples.packet 10 8 = Ret (Some (Samples.decoded_record, 42)) ∧
  0 ≤ 10 ∧ 10 + 24 + 6 * id_width 8 ≤ 42 ≤ Z.of_nat (length Samples.packet).
Proof.
  assert (parseAVLRecord enough_fuel Samples.packet 10 8 =
            Ret (Some (Samples.decoded_record, 42))) as H by (vm_compute; reflexivity).
  split; [exact H|].
  exact (parseAVLRecord_consumes enough_fuel Samples.packet 10 8 _ 42 H).
Defined.

Lemma Date_toISOString_valid tv :
  0 ≤ tv ≤ max_time_value → ∃ iso, Date_toISOString tv = Ret iso.
Proof.
  intros Htv. unfold Date_toISOString.
  rewrite (proj2 (Z.leb_le _ _)) by lia.
  destruct (civil_from_days _) as [[y m] d]. eauto.
Qed.

Lemma Date_toISOString_invalid tv :
  max_time_value < tv → Date_toISOString tv = Throw RangeError.
Proof.
  intros Htv. unfold Date_toISOString. by rewrite (proj2 (Z.leb_gt _ _)) by lia.
Qed.

Lemma Number_of_BigInt_beyond ts :
  0 ≤ ts < 2 ^ 64 → max_time_value < ts → max_time_value < Number_of_BigInt ts.
Proof.
  intros Hts Hmax. unfold max_time_value in *.
  destruct (decide (ts ≤ 2 ^ 53)) as [Hsmall|Hbig].
  - by rewrite Number_of_BigInt_exact.
  - pose proof (Number_of_BigInt_near ts Hts). lia.
Qed.

Lemma record_of_encode_head ts prio g s :
  fits 8 ts → fits 1 prio → gps_fits g →
  record_of (encode_head ts prio g) s =
    match Date_toISOString ts with
    | Ret iso =>
        Some {| recorded_at := iso; priority := prio;
                longitude := Qmake (raw_longitude g) 10000000;
                latitude := Qmake (raw_latitude g) 10000000;
                altitude := raw_altitude g; angle := raw_angle g;
                satellites := raw_satellites g; speed := raw_speed g;
                io_elements := section_map s; event_id := eventId s |}
    | _ => None
    end.
Proof.
  intros Hts Hprio Hg. unfold record_of, readBigUInt64BE, readUInt8.
  set (head := encode_head ts prio g).
  assert (has_at head 0 (encode_be 8 ts ++ encode_be 1 prio ++ encode_gps g)) as Hat.
  { apply (has_at_split _ 0 [] _ []); [|done].
    unfold head, encode_head. by rewrite app_nil_r. }
  clearbody head.
  rewrite (readUIntBE_encoded 7 _ 0 ts (has_at_app_l _ _ _ _ Hat) Hts). simpl.
  apply has_at_app_r in Hat. rewrite length_encode_be in Hat.
  change (0 + Z.of_nat 8) with 8 in Hat.
  assert (Date_toISOString (Number_of_BigInt ts) = Date_toISOString ts) as ->.
  { destruct (decide (ts ≤ max_time_value)) as [Hok|Hbad].
    - rewrite Number_of_BigInt_exact; [done|]. unfold max_time_value in Hok. lia.
    - rewrite !Date_toISOString_invalid; [done|lia|].
      apply Number_of_BigInt_beyond; [|lia]. unfold fits in Hts. simpl in Hts. lia. }
  destruct (Date_toISOString ts) as [iso| |]; simpl; try done.
  rewrite (readUIntBE_encoded 0 _ _ prio (has_at_app_l _ _ _ _ Hat) Hprio). simpl.
  apply has_at_app_r in Hat. rewrite length_encode_be in Hat.
  change (8 + Z.of_nat 1) with 9 in Hat.
  rewrite <- (app_nil_r (encode_gps g)) in Hat.
  rewrite (parseGPSElement_encoded _ _ g (has_at_app_l _ _ _ _ Hat) Hg). done.
Qed.

Lemma length_encode_gps g : length (encode_gps g) = 15%nat.
Proof.
  unfold encode_gps. rewrite !length_app, !length_encode_signed, !length_encode_be. done.
Qed.

Lemma length_encode_head ts prio g : length (encode_head ts prio g) = 24%nat.
Proof.
  unfold encode_head. rewrite !length_app, !length_encode_be, length_encode_gps. done.
Qed.

(** X10: a record as a device writes it (timestamp, priority, GPS element,
    IO section) decodes to exactly those fields and to the offset just after
    it when the timestamp is at most 8 640 000 000 000 000 ms, the last
    instant a [Date] can hold; with a later timestamp the record decodes to
    [null]. *)
Theorem parseAVLRecord_round_trip (fuel : nat) (codec ts prio : Z) (g : GPSRaw)
    (s : IOSection) (pre suf : list byte) :
  (enough_fuel ≤ fuel)%nat → fits 8 ts → fits 1 prio → gps_fits g →
  section_fits (idw_of codec) s →
  let buffer := pre ++ (encode_head ts prio g ++ encode_io (idw_of codec) s) ++ suf in
  let offset := Z.of_nat (length pre) in
  (ts ≤ max_time_value →
   ∃ iso, Date_toISOString ts = Ret iso ∧
     parseAVLRecord fuel buffer offset codec =
       Ret (Some ({| recorded_at := iso; priority := prio;
                     longitude := Qmake (raw_longitude g) 10000000;
                     latitude := Qmake (raw_latitude g) 10000000;
                     altitude := raw_altitude g; angle := raw_angle g;
                     satellites := raw_satellites g; speed := raw_speed g;
                     io_elements := section_map s; event_id := eventId s |},
                  offset + 24 + Z.of_nat (length (encode_io (idw_of codec) s))))) ∧
  (max_time_value < ts → parseAVLRecord fuel buffer offset codec = Ret None).
Proof.
  intros Hfuel Hts Hprio Hg Hs buffer offset.
  assert (parseAVLRecord fuel buffer offset codec =
            Ret ((λ data, (data, offset + 24 +
                                 Z.of_nat (length (encode_io (idw_of codec) s))))
                   <$> record_of (encode_head ts prio g) s)) as Hparse.
  { apply parseAVLRecord_encoded; [done|apply has_at_middle|apply length_encode_head|done]. }
  rewrite Hparse, (record_of_encode_head ts prio g s Hts Hprio Hg). split.
  - intros Hok. destruct (Date_toISOString_valid ts) as [iso Hiso].
    { unfold fits in Hts. lia. }
    exists iso. by rewrite Hiso.
  - intros Hbad. by rewrite Date_toISOString_invalid.
Qed.

Lemma parseAVLRecord_round_trip_witness :
  fits 8 Samples.timestamp ∧ Samples.timestamp ≤ max_time_value ∧
  ∃ iso, Date_toISOString Samples.timestamp = Ret iso ∧
    parseAVLRecord enough_fuel
      (Samples.header x08 x01 ++
       (encode_head Samples.timestamp 0 Samples.gps ++ encode_io (idw_of 8) Samples.io_section)
       ++ [])
      (Z.of_nat (length (Samples.header x08 x01))) 8 =
      Ret (Some ({| recorded_at := iso; priority := 0;
                    longitude := Qmake (raw_longitude Samples.gps) 10000000;
                    latitude := Qmake (raw_latitude Samples.gps) 10000000;
                    altitude := raw_altitude Samples.gps; angle := raw_angle Samples.gps;
                    satellites := raw_satellites Samples.gps;
                    speed := raw_speed Samples.gps;
                    io_elements := section_map Samples.io_section;
                    event_id := eventId Samples.io_section |},
                 Z.of_nat (length (Samples.header x08 x01)) + 24 +
                 Z.of_nat (length (encode_io (idw_of 8) Samples.io_section)))).
Proof.
  assert (fits 8 Samples.timestamp) as Hts by (split; vm_compute; done).
  assert (fits 1 0) as Hprio by (split; vm_compute; done).
  assert (Samples.timestamp ≤ max_time_value) as Hok by (vm_compute; done).
  split; [exact Hts|]. split; [exact Hok|].
  exact (proj1 (parseAVLRecord_round_trip enough_fuel 8 Samples.timestamp 0 Samples.gps
                  Samples.io_section (Samples.header x08 x01) []
                  (Nat.le_refl enough_fuel) Hts Hprio SampleFacts.sample_gps_fits
                  SampleFacts.sample_section_fits) Hok).
Defined.

End RecordFacts.


Module PacketMore.
Import Buffer JS TeltonikaParser Wire BufferFacts ParserFacts PacketFacts WireFacts.
Import CodecFacts BufferMore RecordFacts.

(** X11: once a record of a packet fails to decode, every further turn of
    the record loop tries the same offset again and fails again: the loop
    only counts up, and no record that follows in the packet is decoded. *)
Theorem parseAVLData_stuck (fuel : nat) (buffer : list byte) (codec : Z) (s : avl_loop)
    (k : nat) :
  parseAVLRecord fuel buffer (avl_offset s) codec = Ret None →
  iterate k (parseAVLData_body fuel buffer codec) s =
    Ret {| avl_i := avl_i s + Z.of_nat k; avl_offset := avl_offset s;
           avl_records := avl_records s |}.
Proof.
  intros Hfail. revert s Hfail. induction k as [|k IH]; intros s Hfail.
  - simpl. rewrite Z.add_0_r. by destruct s.
  - cbn [iterate]. rewrite (parseAVLData_body_skip fuel buffer codec s Hfail). simpl.
    rewrite IH by done. simpl. do 2 f_equal. lia.
Qed.

Lemma parseAVLData_stuck_witness :
  parseAVLRecord enough_fuel Samples.truncated_packet 42 8 = Ret None ∧
  iterate 5 (parseAVLData_body enough_fuel Samples.truncated_packet 8)
    {| avl_i := 1; avl_offset := 42; avl_records := [Samples.decoded_record] |} =
    Ret {| avl_i := 1 + Z.of_nat 5; avl_offset := 42;
           avl_records := [Samples.decoded_record] |}.
Proof.
  assert (parseAVLRecord enough_fuel Samples.truncated_packet 42 8 = Ret None) as H
    by (vm_compute; reflexivity).
  split; [exact H|].
  exact (parseAVLData_stuck enough_fuel Samples.truncated_packet 8
           {| avl_i := 1; avl_offset := 42; avl_records := [Samples.decoded_record] |} 5 H).
Defined.

Lemma collect_all (rs : list (list byte * IOSection)) (recs : list AVLRecord) :
  Forall2 (λ r d, record_of (fst r) (snd r) = Some d) rs recs →
  ∀ k rest acc, (length rs ≤ k)%nat →
    collect k (rs ++ rest) acc = collect (k - length rs) rest (acc ++ recs).
Proof.
  induction 1 as [|r d rs recs Hr _ IH]; intros k rest acc Hk.
  - simpl. by rewrite Nat.sub_0_r, app_nil_r.
  - destruct k as [|k]; [simpl in Hk; lia|]. simpl. rewrite Hr.
    rewrite IH by (simpl in Hk; lia). by rewrite <- app_assoc.
Qed.

Lemma collect_stuck k r rest acc :
  record_of (fst r) (snd r) = None → collect k (r :: rest) acc = acc.
Proof. intros Hr. induction k as [|k IH]; simpl; [done|]. by rewrite Hr. Qed.

(** X12: a packet of up to 255 records as a device writes it, every
    timestamp one that a [Date] can hold, decodes to exactly its records, in
    order, with the declared count. The eight bytes of preamble and data
    length and the bytes after the last record (the CRC) are arbitrary: they
    are not checked. *)
Theorem parseAVLData_round_trip (fuel : nat) (c : byte)
    (rs : list (list byte * IOSection)) (recs : list AVLRecord) (pre suf : list byte) :
  (enough_fuel ≤ fuel)%nat → length pre = 8%nat → u8 c = 8 ∨ u8 c = 142 →
  (length rs < 256)%nat →
  Forall (λ r, length (fst r) = 24%nat ∧ section_fits (idw_of (u8 c)) (snd r)) rs →
  Forall2 (λ r d, record_of (fst r) (snd r) = Some d) rs recs →
  parseAVLData fuel (encode_packet pre c (idw_of (u8 c)) rs suf) =
    Ret (Some {| codecID := u8 c; numberOfRecords := Z.of_nat (length rs);
                 records := recs |}).
Proof.
  intros Hfuel Hpre Hc Hn Hrs Hrecs.
  rewrite (parseAVLData_encoded fuel pre c rs suf Hfuel Hpre Hc Hn Hrs).
  pose proof (collect_all rs recs Hrecs (length rs) [] [] (Nat.le_refl _)) as Hcol.
  rewrite app_nil_r in Hcol. rewrite Hcol, Nat.sub_diag. done.
Qed.

Lemma parseAVLData_round_trip_witness :
  parseAVLData enough_fuel
    (encode_packet Samples.preamble x08 (idw_of (u8 x08))
       [(Samples.record_head, Samples.io_section)] [x00; x00; xc7; xcf]) =
    Ret (Some {| codecID := u8 x08;
                 numberOfRecords :=
                   Z.of_nat (length [(Samples.record_head, Samples.io_section)]);
                 records := [Samples.decoded_record] |}).
Proof.
  apply (parseAVLData_round_trip enough_fuel x08 [(Samples.record_head, Samples.io_section)]
           [Samples.decoded_record] Samples.preamble [x00; x00; xc7; xcf]).
  - exact (Nat.le_refl enough_fuel).
  - reflexivity.
  - by left.
  - simpl. lia.
  - apply (SampleFacts.sample_records_fit [Samples.record_head]).
    by apply Forall_singleton.
  - constructor; [exact SampleFacts.sample_record_decodes|constructor].
Defined.

(** X13: in a packet as a device writes it, a record whose timestamp no
    [Date] can hold ends the decoding: the result holds the records before
    it and none after it, while [numberOfRecords] is still the declared
    count. *)
Theorem parseAVLData_records_before_failure (fuel : nat) (c : byte)
    (good : list (list byte * IOSection)) (bad : list byte * IOSection)
    (rest : list (list byte * IOSection)) (recs : list AVLRecord) (pre suf : list byte) :
  (enough_fuel ≤ fuel)%nat → length pre = 8%nat → u8 c = 8 ∨ u8 c = 142 →
  (length (good ++ bad :: rest) < 256)%nat →
  Forall (λ r, length (fst r) = 24%nat ∧ section_fits (idw_of (u8 c)) (snd r))
    (good ++ bad :: rest) →
  Forall2 (λ r d, record_of (fst r) (snd r) = Some d) good recs →
  record_of (fst bad) (snd bad) = None →
  parseAVLData fuel (encode_packet pre c (idw_of (u8 c)) (good ++ bad :: rest) suf) =
    Ret (Some {| codecID := u8 c;
                 numberOfRecords := Z.of_nat (length (good ++ bad :: rest));
                 records := recs |}).
Proof.
  intros Hfuel Hpre Hc Hn Hrs Hgood Hbad.
  rewrite (parseAVLData_encoded fuel pre c _ suf Hfuel Hpre Hc Hn Hrs).
  rewrite (collect_all good recs Hgood) by (rewrite length_app; lia).
  by rewrite (collect_stuck _ bad rest _ Hbad).
Qed.

Lemma parseAVLData_records_before_failure_witness :
  parseAVLData enough_fuel
    (encode_packet Samples.preamble x08 (idw_of (u8 x08))
       ([(Samples.record_head, Samples.io_section)] ++
        (Samples.late_head, Samples.io_section) ::
        [(Samples.record_head, Samples.io_section)]) []) =
    Ret (Some {| codecID := u8 x08;
                 numberOfRecords :=
                   Z.of_nat (length ([(Samples.record_head, Samples.io_section)] ++
                                     (Samples.late_head, Samples.io_section) ::
                                     [(Samples.record_head, Samples.io_section)]));
                 records := [Samples.decoded_record] |}).
Proof.
  apply (parseAVLData_records_before_failure enough_fuel x08
           [(Samples.record_head, Samples.io_section)]
           (Samples.late_head, Samples.io_section)
           [(Samples.record_head, Samples.io_section)]
           [Samples.decoded_record] Samples.preamble []).
  - exact (Nat.le_refl enough_fuel).
  - reflexivity.
  - by left.
  - simpl. lia.
  - apply (SampleFacts.sample_records_fit
             [Samples.record_head; Samples.late_head; Samples.record_head]).
    repeat (apply List.Forall_cons; [reflexivity|]). apply List.Forall_nil.
  - constructor; [exact SampleFacts.sample_record_decodes|constructor].
  - exact SampleFacts.late_record_fails.
Defined.

Lemma parseAVLData_loop_within fuel buffer codec count final :
  (10 ≤ length buffer)%nat →
  parseAVLData_loop fuel buffer codec count 10 = Ret final →
  10 + (24 + 6 * id_width codec) * Z.of_nat (length (avl_records final)) ≤
    Z.of_nat (length buffer).
Proof.
  intros Hlen Hloop. unfold parseAVLData_loop in Hloop.
  apply (while_loop_invariant _ _
    (λ s, 10 + (24 + 6 * id_width codec) * Z.of_nat (length (avl_records s)) ≤ avl_offset s
          ∧ avl_offset s ≤ Z.of_nat (length buffer))) in Hloop.
  - lia.
  - intros s s' _ [H1 H2]. unfold parseAVLData_body.
    destruct (parseAVLRecord fuel buffer (avl_offset s) codec) as [[[d o]|]| |] eqn:Hrec;
      simpl; try done; intros [= <-]; simpl; [|done].
    apply parseAVLRecord_shape in Hrec as (_ & Hlo & Hhi).
    rewrite length_app. simpl. split; [|done].
    rewrite Nat2Z.inj_add. simpl. lia.
  - simpl. lia.
Qed.

(** X14: a packet never yields more records than its bytes can hold,
    whatever count it declares: after the 10 bytes of the header every
    decoded record has taken at least 30 bytes (36 for Codec 8 Extended) of
    the buffer. *)
Theorem parseAVLData_records_fit (fuel : nat) (buffer : list byte) (r : AVLData) :
  parseAVLData fuel buffer = Ret (Some r) →
  10 + (24 + 6 * id_width (codecID r)) * Z.of_nat (length (records r)) ≤
    Z.of_nat (length buffer).
Proof.
  rewrite parseAVLData_eq. unfold readUInt32BE, readUInt8.
  destruct (readUIntBE 4 buffer 4) as [dl| |]; simpl; try done.
  destruct (readUIntBE 1 buffer 8) as [c| |]; simpl; try done.
  destruct (negb (c =? 8) && negb (c =? 142)); simpl; try done.
  destruct (readUIntBE 1 buffer 9) as [n| |] eqn:Hn; simpl; try done.
  apply readUIntBE_Ret in Hn as (_ & Hlen & _).
  destruct (parseAVLData_loop fuel buffer c n 10) as [final| |] eqn:Hloop; simpl; try done.
  intros [= <-]. simpl.
  apply (parseAVLData_loop_within fuel buffer c n final); [lia|done].
Qed.

Lemma parseAVLData_records_fit_witness :
  parseAVLData enough_fuel Samples.truncated_packet =
    Ret (Some {| codecID := 8; numberOfRecords := 2; records := [Samples.decoded_record] |}) ∧
  10 + (24 + 6 * id_width 8) * Z.of_nat (length [Samples.decoded_record]) ≤
    Z.of_nat (length Samples.truncated_packet).
Proof.
  assert (parseAVLData enough_fuel Samples.truncated_packet =
    Ret (Some {| codecID := 8; numberOfRecords := 2; records := [Samples.decoded_record] |}))
    as H by (vm_compute; reflexivity).
  split; [exact H|].
  exact (parseAVLData_records_fit enough_fuel Samples.truncated_packet _ H).
Defined.

(** X15: a buffer of fewer than 10 bytes, the empty one included, is no
    packet: [parseAVLData] returns [null], with any fuel. *)
Theorem parseAVLData_too_short (fuel : nat) (buffer : list byte) :
  (length buffer < 10)%nat → parseAVLData fuel buffer = Ret None.
Proof. apply parseAVLData_short. Qed.

Lemma parseAVLData_too_short_witness :
  (length (@nil byte) < 10)%nat ∧ parseAVLData enough_fuel [] = Ret None.
Proof.
  assert (length (@nil byte) < 10)%nat as H by (simpl; lia).
  split; [exact H|]. exact (parseAVLData_too_short enough_fuel [] H).
Defined.

Lemma writeUInt32BE_encode v : writeUInt32BE v = encode_be 4 v.
Proof.
  unfold writeUInt32BE. cbn [encode_be].
  change (256 ^ Z.of_nat 3) with 16777216. change (256 ^ Z.of_nat 2) with 65536.
  change (256 ^ Z.of_nat 1) with 256. change (256 ^ Z.of_nat 0) with 1.
  by rewrite Z.div_1_r.
Qed.

(** X16: for a count from 0 to 2^32 - 1, [createACK] gives exactly four
    bytes, and reading them as an unsigned 32-bit big-endian number gives
    the count back. *)
Theorem createACK_round_trip (n : Z) :
  0 ≤ n < 2 ^ 32 →
  length (createACK n) = 4%nat ∧ readUInt32BE (createACK n) 0 = Ret n.
Proof.
  intros Hn. unfold createACK. rewrite writeUInt32BE_encode, length_encode_be.
  split; [done|]. unfold readUInt32BE.
  apply (readUIntBE_encoded 3 _ 0 n); [|exact Hn].
  apply (has_at_split _ 0 [] _ []); [by rewrite app_nil_r|done].
Qed.

Lemma createACK_round_trip_witness :
  0 ≤ 255 < 2 ^ 32 ∧
  length (createACK 255) = 4%nat ∧ readUInt32BE (createACK 255) 0 = Ret 255.
Proof.
  assert (0 ≤ 255 < 2 ^ 32) as H by lia.
  split; [exact H|]. exact (createACK_round_trip 255 H).
Defined.

End PacketMore.


Module RouterMore.
Import DataRouter RouterFacts.

(** X17: [validateDevice] answers a cache hit with the cached route, without
    querying the registry, arming a timer or changing the router. On a miss
    it returns a route exactly when the registry answers without error with
    a row whose destination URL and key are both set, the route being built
    from that row; a rejected query, an error, a missing row and a row with
    an empty or missing URL or key give [null] and leave the cache and its
    timers as they were. A route returned on a miss is cached under the
    identity looked up and one timer is armed five minutes ahead. After a
    route is returned the next lookup of the identity is answered from the
    cache, and the lookups of other identities are not affected. *)
Theorem validateDevice_caches_successes (registry : string → response) (imei : string)
    (st : state) :
  match Server.validateDevice registry imei st with
  | (None, st') =>
      validateDevice_start imei st = QueryRegistry imei ∧
      ¬ configured (registry imei) ∧ st' = st
  | (Some route, st') =>
      validateDevice_start imei st' = Cached route ∧
      (∀ k, k ≠ imei → validateDevice_start k st' = validateDevice_start k st) ∧
      ((validateDevice_start imei st = Cached route ∧ st' = st) ∨
       (validateDevice_start imei st = QueryRegistry imei ∧
        (∃ data, registry imei = Reply (Some data) None ∧
           truthy (supabase_url_destino data) = true ∧
           truthy (supabase_service_key_destino data) = true ∧
           route = {| imei := row_imei data; unidad := row_unidad data;
                      cliente := row_cliente data;
                      supabaseUrl := default EmptyString (supabase_url_destino data);
                      supabaseKey :=
                        default EmptyString (supabase_service_key_destino data) |}) ∧
        clientCache st' = <[imei := route]> (clientCache st) ∧
        timers st' = timers st ++ [(clock st + cache_ttl, imei)] ∧
        clock st' = clock st))
  end.
Proof.
  unfold Server.validateDevice, validateDevice_start.
  destruct (clientCache st !! imei) as [c|] eqn:Hc.
  { rewrite Hc. split_and!; [done|done|by left]. }
  unfold validateDevice_resume, configured.
  destruct (registry imei) as [[data|] [err|]|]; simpl;
    try (split_and!; [done|intros (d & ? & _); done|done]).
  destruct (truthy (supabase_url_destino data)) eqn:Hurl;
    destruct (truthy (supabase_service_key_destino data)) eqn:Hkey; simpl;
    try (split_and!; [done|intros (d & [= <-] & ? & ?); congruence|done]).
  split_and!.
  - by rewrite lookup_insert_eq.
  - intros k Hk. by rewrite lookup_insert_ne.
  - right. split_and!; try done. by exists data.
Qed.

Lemma all_expiring_step e st : all_expiring st → all_expiring (step e st).
Proof.
  intros Hinv. destruct e as [dt|i|i resp]; simpl; [|done|].
  - intros k c Hk. unfold tick in Hk |- *. simpl in *.
    rewrite lookup_fired in Hk. case_decide as Hfired; [done|].
    destruct (Hinv k c Hk) as (d & Hin & Hd). exists d. split; [|lia].
    apply list_elem_of_filter. split; [|done].
    apply Is_true_true, negb_true_iff. apply not_true_is_false. intros Hdue.
    apply Hfired. apply list_elem_of_fmap. exists (d, k). split; [done|].
    apply list_elem_of_filter. split; [by apply Is_true_true|done].
  - destruct (resume_cases i resp st) as [->|[c0 ->]]; [done|].
    intros k c. simpl. rewrite lookup_insert. case_decide as Hk.
    + intros _. subst k. exists (clock st + cache_ttl). split; [|lia].
      apply elem_of_app. right. apply list_elem_of_here.
    + intros Hl. destruct (Hinv k c Hl) as (d & Hin & Hd). exists d. split; [|done].
      apply elem_of_app. by left.
Qed.

Lemma all_expiring_run evs st : all_expiring st → all_expiring (run evs st).
Proof.
  revert st. induction evs as [|e evs IH]; intros st Hinv; [done|].
  rewrite run_cons. apply IH. by apply all_expiring_step.
Qed.

Lemma silent_quiet k evs : silent evs → quiet k evs.
Proof.
  unfold silent, quiet. intros H. eapply Forall_impl; [exact H|]. by intros [dt|i|i r].
Qed.

(** X18: no entry of the cache outlives five minutes. From a new router on,
    whatever lookups, registry answers and timers have happened, once five
    minutes pass without a registry answer the cache is empty. *)
Theorem cache_drains (t : Z) (evs later : list event) :
  silent later → cache_ttl ≤ elapsed later →
  clientCache (run later (run evs (new t))) = ∅.
Proof.
  intros Hsilent Hlate. set (st := run evs (new t)).
  assert (all_expiring st) as Hinv.
  { apply all_expiring_run. intros k c Hk. simpl in Hk. by rewrite lookup_empty in Hk. }
  apply map_empty. intros k.
  assert (expiring k (clock st + cache_ttl) (run later st)) as Hex.
  { apply entry_expires; [by apply silent_quiet|].
    destruct (clientCache st !! k) as [c|] eqn:Hk; [|by left].
    right. split; [unfold cache_ttl; lia|]. by apply (Hinv k c). }
  destruct Hex as [Hnone|[Hclock _]]; [done|].
  rewrite clock_run in Hclock. lia.
Qed.

Lemma cache_drains_witness :
  silent [Lookup Samples.device; Tick 300000] ∧
  cache_ttl ≤ elapsed [Lookup Samples.device; Tick 300000] ∧
  clientCache (run [Lookup Samples.device; Tick 300000]
                 (run [Answer Samples.device (Reply (Some Samples.row) None)] (new 0))) = ∅.
Proof.
  assert (silent [Lookup Samples.device; Tick 300000]) as Hs.
  { repeat (apply List.Forall_cons; [exact I|]). apply List.Forall_nil. }
  assert (cache_ttl ≤ elapsed [Lookup Samples.device; Tick 300000]) as He
    by (vm_compute; discriminate).
  split_and!; [exact Hs|exact He|].
  exact (cache_drains 0 [Answer Samples.device (Reply (Some Samples.row) None)]
           [Lookup Samples.device; Tick 300000] Hs He).
Defined.

(** X19: an entry does not get a fresh five minutes when the registry
    answers for its identity again: the timer of the first answer still
    deletes it. After two successful answers for an identity, [dt]
    milliseconds apart with [dt] under five minutes, the entry is gone five minutes after the first one,
    when the second one is only [5 minutes - dt] old. *)
Theorem cache_entry_evicted_early (imei : string) (first second : Row) (dt : N)
    (st : state) :
  configured (Reply (Some first) None) → configured (Reply (Some second) None) →
  Z.of_N dt < cache_ttl →
  validateDevice_start imei
    (run [Answer imei (Reply (Some first) None); Tick dt;
          Answer imei (Reply (Some second) None);
          Tick (Z.to_N (cache_ttl - Z.of_N dt))] st) = QueryRegistry imei.
Proof.
  intros (d1 & [= <-] & Hu1 & Hk1) (d2 & [= <-] & Hu2 & Hk2) Hdt.
  unfold run. cbn [foldl step]. unfold validateDevice_start.
  rewrite (tick_lookup_fired _ _ (clock st + cache_ttl) imei); [done| |].
  - unfold validateDevice_resume. rewrite Hu1, Hk1, Hu2, Hk2. simpl.
    apply elem_of_app. left. apply list_elem_of_filter. split.
    + unfold due. simpl. apply Is_true_true, negb_true_iff, Z.leb_gt.
      lia.
    + apply elem_of_app. right. apply list_elem_of_here.
  - unfold validateDevice_resume. rewrite Hu1, Hk1, Hu2, Hk2. simpl. lia.
Qed.

Lemma cache_entry_evicted_early_witness :
  configured (Reply (Some Samples.row) None) ∧ Z.of_N 240000 < cache_ttl ∧
  validateDevice_start Samples.device
    (run [Answer Samples.device (Reply (Some Samples.row) None); Tick 240000;
          Answer Samples.device (Reply (Some Samples.row) None);
          Tick (Z.to_N (cache_ttl - Z.of_N 240000))] (new 0)) =
    QueryRegistry Samples.device.
Proof.
  assert (configured (Reply (Some Samples.row) None)) as Hc.
  { exists Samples.row. split_and!; reflexivity. }
  assert (Z.of_N 240000 < cache_ttl) as Hdt by reflexivity.
  split_and!; [exact Hc|exact Hdt|].
  exact (cache_entry_evicted_early Samples.device Samples.row Samples.row 240000 (new 0)
           Hc Hc Hdt).
Defined.

End RouterMore.


Module SessionMore.
Import Buffer TeltonikaParser Server Wire SessionFacts.

Lemma on_data_authenticated (s : session) (chunk : list byte) (imei : string) :
  deviceIMEI s = Some imei →
  on_data chunk s =
    let s1 := set_buffer (dataBuffer s ++ chunk) s in
    if Z.of_nat (length (dataBuffer s ++ chunk)) <? 12 then Ret (s1, [], None)
    else
      match parseAVLData enough_fuel (dataBuffer s ++ chunk) with
      | Ret None => Ret (set_buffer [] s, [Write (createACK 0)], None)
      | Ret (Some avlData) =>
          if (length (records avlData) =? 0)%nat
          then Ret (set_buffer [] s, [Write (createACK 0)], None)
          else Ret (s1, [], Some (AwaitRoute (clientConfig s) avlData))
      | Throw _ => Ret (set_buffer [] s, [Write (createACK 0)], None)
      | Timeout => Timeout
      end.
Proof.
  intros H. unfold on_data, on_error, set_buffer, concat, alloc0.
  cbn [deviceIMEI dataBuffer clientConfig]. by rewrite H.
Qed.

(** X20: in the phase Authenticated, on the arrival of a chunk handled to
    the end: when the buffer with the chunk appended holds fewer than 12
    bytes, nothing is written and the session only keeps the bytes; when it
    holds at least 12 bytes and is no packet, or a packet of which no record
    decodes, the acknowledgement 0 is written; otherwise the records go to
    [routeData] with the session's route, and the acknowledgement carries the
    packet's declared count when that succeeds and 0 when it does not. In the
    last three cases the buffer is emptied, trailing bytes included. The
    identity and the route stay as they are. *)
Theorem authenticated_transition (registry : string → DataRouter.response)
    (sink : DataRouter.ClientConfig → list AVLRecord → bool)
    (w : world) (chunk : list byte) :
  phase_of (sess w) = Authenticated →
  let inbox := dataBuffer (sess w) ++ chunk in
  let reply n :=
    Some {| router := router w; sess := set_buffer [] (sess w); pending := pending w;
            output := output w ++ [Write (createACK n)] |} in
  ((length inbox < 12)%nat →
     handle_chunk registry sink chunk w =
       Some {| router := router w; sess := set_buffer inbox (sess w);
               pending := pending w; output := output w |}) ∧
  ((12 ≤ length inbox)%nat → parseAVLData enough_fuel inbox = Ret None →
     handle_chunk registry sink chunk w = reply 0) ∧
  (∀ avlData,
     (12 ≤ length inbox)%nat → parseAVLData enough_fuel inbox = Ret (Some avlData) →
     handle_chunk registry sink chunk w =
       if (length (records avlData) =? 0)%nat then reply 0
       else if routeData sink (clientConfig (sess w)) (records avlData)
            then reply (numberOfRecords avlData)
            else reply 0).
Proof.
  intros Hphase inbox reply.
  assert (∃ imei, deviceIMEI (sess w) = Some imei) as [imei Himei].
  { unfold phase_of in Hphase. destruct (deviceIMEI (sess w)); [eauto|done]. }
  unfold handle_chunk. rewrite (on_data_authenticated _ _ _ Himei). fold inbox. cbn zeta.
  split_and!.
  - intros Hlen. rewrite (proj2 (Z.ltb_lt _ _)) by lia.
    unfold finish. simpl. by rewrite app_nil_r.
  - intros Hlen Hbad. rewrite (proj2 (Z.ltb_ge _ _)) by lia. by rewrite Hbad.
  - intros avlData Hlen Hok. rewrite (proj2 (Z.ltb_ge _ _)) by lia. rewrite Hok.
    destruct (length (records avlData) =? 0)%nat; [done|].
    unfold after_route, finish, reply. cbn [fst snd app].
    by destruct (routeData sink (clientConfig (sess w)) (records avlData)).
Qed.

Lemma authenticated_transition_witness :
  let w := {| router := DataRouter.new 0;
              sess := {| deviceIMEI := Some Samples.device;
                         clientConfig := Some Samples.route; dataBuffer := [] |};
              pending := []; output := [] |} in
  phase_of (sess w) = Authenticated ∧
  handle_chunk Samples.registry Samples.sink [x00] w =
    Some {| router := router w; sess := set_buffer [x00] (sess w);
            pending := pending w; output := output w |}.
Proof.
  intros w. assert (phase_of (sess w) = Authenticated) as H by reflexivity.
  split; [exact H|].
  apply (authenticated_transition Samples.registry Samples.sink w [x00] H).
  simpl. lia.
Defined.

Lemma on_data_identity chunk s imei r :
  deviceIMEI s = Some imei → on_data chunk s = Ret r →
  deviceIMEI (fst (fst r)) = Some imei ∧ clientConfig (fst (fst r)) = clientConfig s.
Proof.
  intros Hi. rewrite (on_data_authenticated _ _ _ Hi). cbn zeta.
  destruct (_ <? 12); [by intros [= <-]|].
  destruct (parseAVLData enough_fuel _) as [[avl|]| |]; try done; try by intros [= <-].
  destruct (_ =? _)%nat; by intros [= <-].
Qed.

Lemma step_identity e w w' imei :
  deviceIMEI (sess w) = Some imei → step e w = Some w' →
  deviceIMEI (sess w') = Some imei.
Proof.
  intros Hi. destruct e as [chunk|k resp|k ok|dt]; simpl.
  - unfold dispatch_data.
    destruct (on_data chunk (sess w)) as [[[s out] a]| |] eqn:Hd; try done.
    apply (on_data_identity _ _ _ _ Hi) in Hd as [Hs _]. simpl in Hs.
    destruct a as [[i|[cfg|] avl]|].
    + destruct (DataRouter.validateDevice_start i (router w)).
      * intros [= <-]. simpl. done.
      * intros [= <-]. done.
    + intros [= <-]. done.
    + intros [= <-]. done.
    + intros [= <-]. done.
  - destruct (pending w !! k) as [[i|cfg avl]|]; try done.
    destruct (DataRouter.validateDevice_resume i resp (router w)) as [r rt].
    intros [= <-]. simpl. by destruct r.
  - destruct (pending w !! k) as [[i|cfg avl]|]; try done.
    intros [= <-]. done.
  - intros [= <-]. done.
Qed.

(** X21: the identity of a session is set once. From the moment an identity
    is stored, whatever chunks, registry answers, sink answers and timers
    follow and in whatever order, the session keeps that identity: it stays
    Authenticated, a rejection by the registry included, and no later
    identity message replaces it. *)
Theorem identity_fixed (evs : list event) (w w' : world) (imei : string) :
  deviceIMEI (sess w) = Some imei → run evs w = Some w' →
  deviceIMEI (sess w') = Some imei.
Proof.
  revert w. induction evs as [|e evs IH]; intros w Hi; simpl.
  - by intros [= <-].
  - destruct (step e w) as [w1|] eqn:Hstep; [|done].
    apply IH. by apply (step_identity e w).
Qed.

Lemma identity_fixed_witness :
  let w := {| router := DataRouter.new 0;
              sess := {| deviceIMEI := Some Samples.device; clientConfig := None;
                         dataBuffer := Samples.identity |};
              pending := [AwaitValidate Samples.device]; output := [] |} in
  let w' := {| router := DataRouter.new 0;
               sess := {| deviceIMEI := Some Samples.device; clientConfig := None;
                          dataBuffer := [] |};
               pending := [];
               output := [Write [x00]; End; Write (createACK 0)] |} in
  deviceIMEI (sess w) = Some Samples.device ∧
  run [RegistryReply 0 (DataRouter.Reply None None); Data Samples.high_bit_identity] w =
    Some w' ∧
  deviceIMEI (sess w') = Some Samples.device.
Proof.
  intros w w'.
  assert (deviceIMEI (sess w) = Some Samples.device) as H1 by reflexivity.
  assert (run [RegistryReply 0 (DataRouter.Reply None None);
               Data Samples.high_bit_identity] w = Some w') as H2
    by (vm_compute; reflexivity).
  split; [exact H1|]. split; [exact H2|].
  exact (identity_fixed _ w w' Samples.device H1 H2).
Defined.

(** X22: the handler reassembles fragments while it waits. When a chunk
    leaves the buffer under the threshold of the phase (17 bytes before the
    identity, 12 bytes after it), handling it writes nothing, and handling
    the next chunk after it is the same as handling the two chunks as one. *)
Theorem fragments_reassembled (registry : string → DataRouter.response)
    (sink : DataRouter.ClientConfig → list AVLRecord → bool)
    (w : world) (c1 c2 : list byte) :
  (length (dataBuffer (sess w) ++ c1) < threshold (sess w))%nat →
  ∃ w1,
    handle_chunk registry sink c1 w = Some w1 ∧ output w1 = output w ∧
    handle_chunk registry sink c2 w1 = handle_chunk registry sink (c1 ++ c2) w.
Proof.
  unfold threshold, phase_of. intros Hlen.
  destruct (deviceIMEI (sess w)) as [imei|] eqn:Hi.
  - eexists. unfold handle_chunk at 1. rewrite (on_data_authenticated _ _ _ Hi). cbn zeta.
    rewrite (proj2 (Z.ltb_lt _ _)) by lia. split; [reflexivity|].
    split; [apply app_nil_r|].
    unfold handle_chunk, finish. cbn [sess router pending output fst snd].
    rewrite (on_data_authenticated _ _ imei) by done.
    rewrite (on_data_authenticated _ _ _ Hi).
    unfold set_buffer. cbn [dataBuffer deviceIMEI clientConfig].
    by rewrite !app_nil_r, <- !app_assoc.
  - eexists. unfold handle_chunk at 1. rewrite (on_data_awaiting _ _ Hi). cbn zeta.
    rewrite (proj2 (Z.ltb_lt _ _)) by lia. split; [reflexivity|].
    split; [apply app_nil_r|].
    unfold handle_chunk, finish. cbn [sess router pending output fst snd].
    rewrite (on_data_awaiting _ c2) by done.
    rewrite (on_data_awaiting _ _ Hi).
    unfold set_buffer. cbn [dataBuffer deviceIMEI clientConfig].
    by rewrite !app_nil_r, <- !app_assoc.
Qed.

Lemma fragments_reassembled_witness :
  (length (dataBuffer (sess (fresh 0)) ++ take 5 Samples.identity) <
     threshold (sess (fresh 0)))%nat ∧
  ∃ w1,
    handle_chunk Samples.registry Samples.sink (take 5 Samples.identity) (fresh 0) = Some w1 ∧
    output w1 = output (fresh 0) ∧
    handle_chunk Samples.registry Samples.sink (drop 5 Samples.identity) w1 =
      handle_chunk Samples.registry Samples.sink
        (take 5 Samples.identity ++ drop 5 Samples.identity) (fresh 0).
Proof.
  assert (length (dataBuffer (sess (fresh 0)) ++ take 5 Samples.identity) <
            threshold (sess (fresh 0)))%nat as H by (vm_compute; lia).
  split; [exact H|].
  exact (fragments_reassembled Samples.registry Samples.sink (fresh 0)
           (take 5 Samples.identity) (drop 5 Samples.identity) H).
Defined.

Lemma valid_ack_0 : valid_effect (Write (createACK 0)).
Proof. right. right. right. exists 0. split; [lia|done]. Qed.

Ltac effects :=
  repeat first [apply List.Forall_nil | apply List.Forall_cons | apply Forall_app_2];
  try assumption.

Lemma on_data_valid chunk s s' out a :
  on_data chunk s = Ret (s', out, a) →
  Forall valid_effect out ∧ from_option valid_await True a.
Proof.
  pose proof valid_ack_0 as Hack.
  assert (valid_effect (Write [x00])) as H00 by by left.
  assert (valid_effect End) as Hend by (right; right; by left).
  destruct (deviceIMEI s) as [imei|] eqn:Hi.
  - rewrite (on_data_authenticated _ _ _ Hi). cbn zeta.
    destruct (_ <? 12); [intros [= <- <- <-]; by split|].
    pose proof (PacketFacts.parseAVLData_shape enough_fuel (dataBuffer s ++ chunk)
                  (Nat.le_refl enough_fuel)) as Hshape.
    destruct (parseAVLData enough_fuel _) as [[avl|]| |]; try done.
    + destruct (_ =? _)%nat; intros [= <- <- <-].
      * split; [effects|done].
      * split; [done|]. simpl.
        destruct Hshape as (codec & count & _ & _ & _ & _ & -> & _).
        pose proof (BufferFacts.u8_range count). lia.
    + intros [= <- <- <-]. split; [effects|done].
  - rewrite (on_data_awaiting _ _ Hi). cbn zeta.
    destruct (_ <? 17); [intros [= <- <- <-]; by split|].
    destruct (parseIMEI _) as [[i|]| |]; try done; intros [= <- <- <-].
    + by split.
    + split; [effects|done].
    + split; [effects|done].
Qed.

Lemma after_validate_valid r s : Forall valid_effect (snd (after_validate r s)).
Proof.
  destruct r; simpl; effects.
  - right. by left.
  - by left.
  - right. right. by left.
Qed.

Lemma after_route_valid avl ok s :
  0 ≤ numberOfRecords avl ≤ 255 → Forall valid_effect (snd (after_route avl ok s)).
Proof.
  intros H. simpl. effects. right. right. right.
  exists (if ok then numberOfRecords avl else 0). split; [destruct ok; lia|done].
Qed.

Lemma step_valid e w w' :
  Forall valid_effect (output w) → Forall valid_await (pending w) →
  step e w = Some w' →
  Forall valid_effect (output w') ∧ Forall valid_await (pending w').
Proof.
  intros Hout Hpend. destruct e as [chunk|k resp|k ok|dt]; simpl.
  - unfold dispatch_data.
    destruct (on_data chunk (sess w)) as [[[s out] a]| |] eqn:Hd; try done.
    apply on_data_valid in Hd as [Ho Ha].
    destruct a as [[i|[cfg|] avl]|]; simpl in Ha.
    + destruct (DataRouter.validateDevice_start i (router w)).
      * intros [= <-]. simpl. split; [|done]. effects. right. by left.
      * intros [= <-]. simpl. split; effects; done.
    + intros [= <-]. simpl. split; effects; done.
    + intros [= <-]. simpl. split; [|done]. effects. apply valid_ack_0.
    + intros [= <-]. simpl. split; [effects|done].
  - destruct (pending w !! k) as [[i|cfg avl]|]; try done.
    destruct (DataRouter.validateDevice_resume i resp (router w)) as [r rt].
    intros [= <-]. simpl. split; [|by apply Forall_delete].
    apply Forall_app_2; [done|]. apply (after_validate_valid r (sess w)).
  - destruct (pending w !! k) as [[i|cfg avl]|] eqn:Hk; try done.
    intros [= <-]. simpl. split; [|by apply Forall_delete].
    apply Forall_app_2; [done|]. apply (after_route_valid avl ok (sess w)).
    apply (Forall_lookup_1 _ _ _ _ Hpend Hk).
  - intros [= <-]. done.
Qed.

(** X23: whatever bytes a connection sends, in whatever chunks, and in
    whatever order the registry's and the sink's answers come back, the
    server only ever writes the single byte 0x00, the single byte 0x01, or a
    four-byte acknowledgement of a count from 0 to 255, or ends the socket. *)
Theorem output_alphabet (t : Z) (evs : list event) (w : world) :
  run evs (fresh t) = Some w → Forall valid_effect (output w).
Proof.
  assert (∀ evs w0 w1, Forall valid_effect (output w0) → Forall valid_await (pending w0) →
            run evs w0 = Some w1 → Forall valid_effect (output w1)) as Hgen.
  { clear. induction evs as [|e evs IH]; intros w0 w1 Ho Hp; simpl.
    - by intros [= <-].
    - destruct (step e w0) as [w'|] eqn:Hstep; [|done].
      destruct (step_valid e w0 w' Ho Hp Hstep). by apply IH. }
  apply Hgen; simpl; constructor.
Qed.

Lemma output_alphabet_witness :
  run Samples.overlap (fresh 0) =
    Some {| router := snd (DataRouter.validateDevice_resume Samples.device
                             (DataRouter.Reply (Some Samples.row) None) (DataRouter.new 0));
            sess := {| deviceIMEI := Some Samples.device;
                       clientConfig := Some Samples.route; dataBuffer := [] |};
            pending := [];
            output := [Write (createACK 0); Write [x01]] |} ∧
  Forall valid_effect [Write (createACK 0); Write [x01]].
Proof.
  match goal with |- ?P ∧ _ => assert P as H by (vm_compute; reflexivity) end.
  split; [exact H|]. exact (output_alphabet 0 Samples.overlap _ H).
Defined.

(** X24: a session that has an identity but no route (the registry has not
    answered yet, or has rejected the device) routes nothing: a chunk is
    handled at once, no request to the sink is left outstanding, and either
    nothing is written or the acknowledgement 0 is. *)
Theorem no_route_no_delivery (w : world) (chunk : list byte) (imei : string) :
  deviceIMEI (sess w) = Some imei → clientConfig (sess w) = None →
  ∃ w',
    step (Data chunk) w = Some w' ∧
    router w' = router w ∧ pending w' = pending w ∧
    deviceIMEI (sess w') = Some imei ∧ clientConfig (sess w') = None ∧
    (output w' = output w ∨ output w' = output w ++ [Write (createACK 0)]).
Proof.
  intros Hi Hc. simpl. unfold dispatch_data.
  rewrite (on_data_authenticated _ _ _ Hi). cbn zeta. rewrite Hc.
  destruct (_ <? 12).
  { eexists. split; [reflexivity|]. simpl. rewrite app_nil_r. by split_and!; auto. }
  pose proof (PacketFacts.parseAVLData_shape enough_fuel (dataBuffer (sess w) ++ chunk)
                (Nat.le_refl enough_fuel)) as Hshape.
  destruct (parseAVLData enough_fuel _) as [[avl|]| |]; try done.
  - destruct (_ =? _)%nat.
    + eexists. split; [reflexivity|]. simpl. by split_and!; auto.
    + eexists. split; [reflexivity|]. simpl. by split_and!; auto.
  - eexists. split; [reflexivity|]. simpl. by split_and!; auto.
Qed.

Lemma no_route_no_delivery_witness :
  let w := {| router := DataRouter.new 0;
              sess := {| deviceIMEI := Some Samples.device; clientConfig := None;
                         dataBuffer := [] |};
              pending := [AwaitValidate Samples.device]; output := [] |} in
  deviceIMEI (sess w) = Some Samples.device ∧ clientConfig (sess w) = None ∧
  ∃ w',
    step (Data Samples.packet) w = Some w' ∧
    router w' = router w ∧ pending w' = pending w ∧
    deviceIMEI (sess w') = Some Samples.device ∧ clientConfig (sess w') = None ∧
    (output w' = output w ∨ output w' = output w ++ [Write (createACK 0)]).
Proof.
  intros w. split; [reflexivity|]. split; [reflexivity|].
  exact (no_route_no_delivery w Samples.packet Samples.device eq_refl eq_refl).
Defined.

Lemma length_encode_packet pre c idw r rs suf :
  length pre = 8%nat → length (fst r) = 24%nat →
  (12 ≤ length (encode_packet pre c idw (r :: rs) suf))%nat.
Proof.
  intros Hpre Hr. unfold encode_packet, encode_records. cbn [flat_map].
  rewrite !length_app, Hpre, Hr. simpl. lia.
Qed.

(** X25: a packet as a device writes it, arriving in one chunk at an
    Authenticated session with a route and an empty buffer, is handed to the
    sink as exactly its records, in order, and is acknowledged with its
    record count when the sink takes them and with 0 when it does not; the
    buffer is empty afterwards. *)
Theorem packet_acknowledged (registry : string → DataRouter.response)
    (sink : DataRouter.ClientConfig → list AVLRecord → bool)
    (w : world) (imei : string) (route : DataRouter.ClientConfig) (c : byte)
    (rs : list (list byte * IOSection)) (recs : list AVLRecord) (pre suf : list byte) :
  deviceIMEI (sess w) = Some imei → clientConfig (sess w) = Some route →
  dataBuffer (sess w) = [] →
  length pre = 8%nat → u8 c = 8 ∨ u8 c = 142 →
  (0 < length rs < 256)%nat →
  Forall (λ r, length (fst r) = 24%nat ∧ section_fits (idw_of (u8 c)) (snd r)) rs →
  Forall2 (λ r d, record_of (fst r) (snd r) = Some d) rs recs →
  handle_chunk registry sink (encode_packet pre c (idw_of (u8 c)) rs suf) w =
    Some {| router := router w; sess := set_buffer [] (sess w); pending := pending w;
            output := output w ++
              [Write (createACK (if sink route recs then Z.of_nat (length rs) else 0))] |}.
Proof.
  intros Hi Hc Hbuf Hpre Hcodec Hn Hrs Hrecs.
  unfold handle_chunk. rewrite (on_data_authenticated _ _ _ Hi). cbn zeta.
  rewrite Hbuf, app_nil_l.
  destruct rs as [|r rs]; [simpl in Hn; lia|].
  pose proof (length_encode_packet pre c (idw_of (u8 c)) r rs suf Hpre
                (proj1 (Forall_inv Hrs))) as Hlen.
  rewrite (proj2 (Z.ltb_ge _ _)) by lia.
  rewrite (CodecFacts.parseAVLData_encoded enough_fuel pre c (r :: rs) suf
             (Nat.le_refl _) Hpre Hcodec (proj2 Hn) Hrs).
  pose proof (PacketMore.collect_all (r :: rs) recs Hrecs (length (r :: rs)) [] []
                (Nat.le_refl _)) as Hcol.
  rewrite app_nil_r, Nat.sub_diag in Hcol. rewrite Hcol. cbn [collect app records].
  inversion Hrecs as [|? d ? recs' Hd Hrest]; subst. cbn [length Nat.eqb].
  unfold after_route, finish, routeData. rewrite Hc. cbn [fst snd app numberOfRecords].
  done.
Qed.

Lemma packet_acknowledged_witness :
  let w := {| router := DataRouter.new 0;
              sess := {| deviceIMEI := Some Samples.device;
                         clientConfig := Some Samples.route; dataBuffer := [] |};
              pending := []; output := [Write [x01]] |} in
  handle_chunk Samples.registry Samples.sink
    (encode_packet Samples.preamble x08 (idw_of (u8 x08))
       [(Samples.record_head, Samples.io_section)] [x00; x00; x12; x34]) w =
    Some {| router := router w; sess := set_buffer [] (sess w); pending := pending w;
            output := output w ++
              [Write (createACK (if Samples.sink Samples.route [Samples.decoded_record]
                                 then Z.of_nat 1 else 0))] |}.
Proof.
  intros w.
  apply (packet_acknowledged Samples.registry Samples.sink w Samples.device Samples.route
           x08 [(Samples.record_head, Samples.io_section)] [Samples.decoded_record]
           Samples.preamble [x00; x00; x12; x34]).
  - reflexivity.
  - reflexivity.
  - reflexivity.
  - reflexivity.
  - by left.
  - simpl. lia.
  - apply (SampleFacts.sample_records_fit [Samples.record_head]).
    by apply Forall_singleton.
  - constructor; [exact SampleFacts.sample_record_decodes|constructor].
Defined.

End SessionMore.


(** ** The order in which chunks are handled *)

Module ChunkOrder.
Import Buffer TeltonikaParser Server SessionFacts SessionMore.








End ChunkOrder.
